(** * mqueue-test: the measurement engine of [mq_benchmark.cpp] and
    [gcd_benchmark.cpp]

    A shallow embedding of the latency recorder (reservoir sampling), the
    percentile estimator, the producer and consumer loops, the argument
    parser, the clocks, the attributes of the queue, the dispatch of the
    GCD variant and the exit paths of [main], followed by the properties
    of the specification (Part II) and further properties of the code
    (Part III).

    Conventions.
    - [uint64_t] and [size_t] values are integers in [Z]; every operation
      that can wrap is written with [wrap64].
    - [uniform_int_distribution] over the recorder's [mt19937_64] is the
      only source of randomness of the recorder.  It is an effect
      [Draw lo hi k] of the small monad [Rand]; a program in [Rand] can be
      run on a given list of draws ([run]) or averaged over the uniform
      distribution of each draw ([expect], [prob]).
    - One call of [record] is one step, from any state of the recorder.
      Sequences of calls are runs in which the calls do not overlap, as
      in the program with one consumer; the states that overlapping
      calls go through, in which [seen] counts a call whose value is not
      yet in the buffer, are states from which one call is taken.  The
      mutex has no counterpart in the model.  (The draw of the path
      [index >= capacity] is made before the mutex is taken, on the
      generator that all callers share.)
    - A run of [main] returns a status or is ended by an exception that
      nothing catches; the system calls, the allocator and the creation
      of threads are inputs of [main].
    - [double] arithmetic is a parameter [Arith] of the percentile
      estimator, with two instances: [binary64], the IEEE 754 numbers the
      machine computes with, and [exact], the rationals, in which the
      formulas of the specification are read. *)

From Stdlib Require Import ZArith List Bool Lia QArith Qround Qminmax Qabs Lqa.
From Stdlib Require Import Permutation Sorted.
From Stdlib Require String.
From Stdlib Require Floats.PrimFloat Floats.FloatOps Floats.SpecFloat Floats.FloatAxioms.
Import ListNotations.
Import String.StringSyntax.
Delimit Scope string_scope with string.

Local Open Scope Z_scope.

(* ================================================================== *)
(** * Part I: the embedding *)
(* ================================================================== *)

(** ** 64-bit unsigned arithmetic *)

Definition U64_MOD : Z := 2 ^ 64.

Definition wrap64 (x : Z) : Z := x mod U64_MOD.

Definition is_u64 (x : Z) : Prop := 0 <= x < U64_MOD.

(** ** Randomness as an effect *)

(** [Draw lo hi k]: [uniform_int_distribution<uint64_t> dist(lo, hi);
    pos = dist(rng);] then continue with [k pos]. *)
Inductive Rand (A : Type) : Type :=
| Ret : A -> Rand A
| Draw : Z -> Z -> (Z -> Rand A) -> Rand A.

Arguments Ret {A} _.
Arguments Draw {A} _ _ _.

Fixpoint bind {A B : Type} (m : Rand A) (f : A -> Rand B) : Rand B :=
  match m with
  | Ret a => f a
  | Draw lo hi k => Draw lo hi (fun pos => bind (k pos) f)
  end.

(** Running a program on a given list of draws.  A draw outside the range
    of its distribution, or a missing draw, is no run at all. *)
Fixpoint run {A : Type} (m : Rand A) (draws : list Z) : option (A * list Z) :=
  match m with
  | Ret a => Some (a, draws)
  | Draw lo hi k =>
      match draws with
      | [] => None
      | pos :: rest =>
          if (lo <=? pos) && (pos <=? hi) then run (k pos) rest else None
      end
  end.

(** The integers [lo, lo+1, ..., hi]. *)
Fixpoint zrange_from (lo : Z) (n : nat) : list Z :=
  match n with
  | O => []
  | S n' => lo :: zrange_from (lo + 1) n'
  end.

Definition zrange (lo hi : Z) : list Z := zrange_from lo (Z.to_nat (hi - lo + 1)).

Definition Qsum (l : list Q) : Q := fold_right Qplus 0%Q l.

(** Expected value of [g] over the outcomes of [m], every draw uniform on
    its range. *)
Fixpoint expect {A : Type} (g : A -> Q) (m : Rand A) : Q :=
  match m with
  | Ret a => g a
  | Draw lo hi k =>
      (Qsum (map (fun pos => expect g (k pos)) (zrange lo hi))
       / inject_Z (hi - lo + 1))%Q
  end.

Definition indicator {A : Type} (P : A -> bool) (a : A) : Q :=
  if P a then 1%Q else 0%Q.

Definition prob {A : Type} (P : A -> bool) (m : Rand A) : Q :=
  expect (indicator P) m.

(** ** [struct LatencyRecorder] *)

Record LatencyRecorder : Type := mkRecorder {
  samplesNs : list Z;
  capacity : Z;
  seen : Z
}.

(** [explicit LatencyRecorder(size_t cap)] *)
Definition LatencyRecorder_new (cap : Z) : LatencyRecorder :=
  mkRecorder [] cap 0.

(** [samplesNs.size()] *)
Definition size (r : LatencyRecorder) : Z := Z.of_nat (length (samplesNs r)).

(** [seen.fetch_add(1, memory_order_relaxed)]: the value before the
    increment, and the recorder after it. *)
Definition fetch_add_seen (r : LatencyRecorder) : Z * LatencyRecorder :=
  (seen r, mkRecorder (samplesNs r) (capacity r) (wrap64 (seen r + 1))).

(** [samplesNs.push_back(valueNs)] *)
Definition push_back (r : LatencyRecorder) (valueNs : Z) : LatencyRecorder :=
  mkRecorder (samplesNs r ++ [valueNs]) (capacity r) (seen r).

(** [l[n] = x]; the code only writes inside the vector, outside it the
    model leaves the list as it is. *)
Fixpoint set_at {A : Type} (n : nat) (x : A) (l : list A) : list A :=
  match l, n with
  | [], _ => []
  | _ :: t, O => x :: t
  | h :: t, S n' => h :: set_at n' x t
  end.

(** [samplesNs[pos] = valueNs] *)
Definition store_at (r : LatencyRecorder) (pos valueNs : Z) : LatencyRecorder :=
  mkRecorder (set_at (Z.to_nat pos) valueNs (samplesNs r)) (capacity r) (seen r).

(** [LatencyRecorder::record] of [mq_benchmark.cpp]. *)
Definition record_mq (r0 : LatencyRecorder) (valueNs : Z) : Rand LatencyRecorder :=
  let (index, r) := fetch_add_seen r0 in
  if capacity r =? 0 then Ret r
  else if index <? capacity r then
    if size r <? capacity r then Ret (push_back r valueNs)
    else
      Draw 0 index (fun pos =>
        if pos <? capacity r then Ret (store_at r pos valueNs) else Ret r)
  else
    Draw 0 index (fun pos =>
      if pos <? capacity r then
        if pos <? size r then Ret (store_at r pos valueNs) else Ret r
      else Ret r).

(** [LatencyRecorder::record] of [gcd_benchmark.cpp]. *)
Definition record_gcd (r0 : LatencyRecorder) (valueNs : Z) : Rand LatencyRecorder :=
  let (index, r) := fetch_add_seen r0 in
  if capacity r =? 0 then Ret r
  else if index <? capacity r then
    if size r <? capacity r then Ret (push_back r valueNs) else Ret r
  else
    Draw 0 index (fun pos =>
      if pos <? capacity r then
        if pos <? size r then Ret (store_at r pos valueNs) else Ret r
      else Ret r).

(** A sequence of calls, one after the other. *)
Fixpoint record_all (record : LatencyRecorder -> Z -> Rand LatencyRecorder)
    (r : LatencyRecorder) (values : list Z) : Rand LatencyRecorder :=
  match values with
  | [] => Ret r
  | v :: vs => bind (record r v) (fun r' => record_all record r' vs)
  end.

(** The two programs. *)
Inductive is_record : (LatencyRecorder -> Z -> Rand LatencyRecorder) -> Prop :=
| is_record_mq : is_record record_mq
| is_record_gcd : is_record record_gcd.

(** The recorder states that sequences of calls go through: the buffer is
    full, or it holds one value per call so far. *)
Definition recorder_inv (r : LatencyRecorder) : Prop :=
  is_u64 (capacity r) /\ is_u64 (seen r) /\
  (size r = capacity r \/ (size r = seen r /\ seen r < capacity r)).

(** [value] is in the buffer. *)
Definition holds (value : Z) (r : LatencyRecorder) : bool :=
  existsb (Z.eqb value) (samplesNs r).

(** The state after [fetch_add], before anything else happens. *)
Definition counted (r : LatencyRecorder) : LatencyRecorder :=
  mkRecorder (samplesNs r) (capacity r) (wrap64 (seen r + 1)).

(** The states of a run in which [seen] has not wrapped around. *)
Definition in_step (r : LatencyRecorder) : Prop :=
  0 <= seen r /\ size r = Z.min (seen r) (capacity r).

(** The position of the first occurrence of [x]. *)
Fixpoint index_of (x : Z) (l : list Z) : nat :=
  match l with
  | [] => O
  | h :: t => if h =? x then O else S (index_of x t)
  end.

(** The state after a call that drew [pos]. *)
Definition after_draw (r : LatencyRecorder) (v pos : Z) : LatencyRecorder :=
  if pos <? capacity r then store_at (counted r) pos v else counted r.

(** The probability that a value is in the final buffer, for a buffer of
    capacity [cap], a value that was in the buffer after call number [n]
    and [total] calls in all. *)
Definition law (cap n total : Z) : Q :=
  if total <=? cap then 1%Q else (inject_Z (Z.max n cap) / inject_Z total)%Q.

(** ** [computePercentiles] *)

(** The operations on [double] that [computePercentiles] uses. *)
Record Arith : Type := mkArith {
  dbl : Type;
  of_uint : Z -> dbl;            (* static_cast<double>(uint64_t), size_t -> double *)
  lit : Z -> Z -> dbl;           (* the decimal literal num/den *)
  dadd : dbl -> dbl -> dbl;
  dsub : dbl -> dbl -> dbl;
  dmul : dbl -> dbl -> dbl;
  ddiv : dbl -> dbl -> dbl;
  to_size_t : dbl -> Z;          (* static_cast<size_t>(double): truncation *)
  dleb : dbl -> dbl -> bool      (* <= on double *)
}.

(** Exact arithmetic on the rationals. *)
Definition exact : Arith :=
  mkArith Q inject_Z (fun n d => Qmake n (Z.to_pos d))
    Qplus Qminus Qmult Qdiv
    (fun q => Z.quot (Qnum q) (Zpos (Qden q)))
    Qle_bool.

(** Conversion of an integer to the nearest binary64 number. *)
Definition b64_of_Z (z : Z) : PrimFloat.float :=
  FloatOps.SF2Prim (SpecFloat.binary_normalize FloatOps.prec FloatOps.emax z 0 false).

(** Truncation of a binary64 number towards zero.  The conversion of an
    infinity or a NaN is undefined in the source and never happens in
    [computePercentiles]; the model gives 0. *)
Definition b64_trunc (f : PrimFloat.float) : Z :=
  match FloatOps.Prim2SF f with
  | SpecFloat.S754_finite s m e =>
      let v := if 0 <=? e then Z.pos m * 2 ^ e else Z.pos m / 2 ^ (- e) in
      if s then - v else v
  | _ => 0
  end.

(** IEEE 754 binary64, round to nearest even, every operation rounded on
    its own (the code as compiled for x86-64, where a product and a sum
    are not fused). *)
Definition binary64 : Arith :=
  mkArith PrimFloat.float b64_of_Z
    (fun n d => PrimFloat.div (b64_of_Z n) (b64_of_Z d))
    PrimFloat.add PrimFloat.sub PrimFloat.mul PrimFloat.div
    b64_trunc PrimFloat.leb.

(** The rational number that a finite binary64 number is. *)
Definition b64_to_Q (f : PrimFloat.float) : Q :=
  match FloatOps.Prim2SF f with
  | SpecFloat.S754_finite s m e =>
      let v := if 0 <=? e then inject_Z (Z.pos m * 2 ^ e)
               else (inject_Z (Z.pos m) / inject_Z (2 ^ (- e)))%Q in
      if s then Qopp v else v
  | _ => 0%Q
  end.

(** A binary64 number that is +0 or finite and positive. *)
Definition b64_nonneg (f : PrimFloat.float) : Prop :=
  FloatOps.Prim2SF f = SpecFloat.S754_zero false \/
  exists m e, FloatOps.Prim2SF f = SpecFloat.S754_finite false m e.

(** The interpolation in binary64, as a formula: the position, its
    integer part (the floor of the number that the position is), the next
    index, the fractional part and the weighted sum, every operation
    rounded to the nearest binary64 number.  It is what [at_ binary64]
    is compared with. *)
Definition interpolate_b64 (sorted : list Z) (q : PrimFloat.float) : PrimFloat.float :=
  let n := Z.of_nat (length sorted) in
  let p := PrimFloat.mul q (b64_of_Z (n - 1)) in
  let i := Qfloor (b64_to_Q p) in
  let i2 := Z.min (i + 1) (n - 1) in
  let f := PrimFloat.sub p (b64_of_Z i) in
  let x_lo := nth (Z.to_nat i) sorted 0 in
  let x_hi := nth (Z.to_nat i2) sorted 0 in
  PrimFloat.div
    (PrimFloat.add
       (PrimFloat.mul (b64_of_Z x_lo)
          (PrimFloat.sub (PrimFloat.div (b64_of_Z 1) (b64_of_Z 1)) f))
       (PrimFloat.mul (b64_of_Z x_hi) f))
    (PrimFloat.div (b64_of_Z 1000) (b64_of_Z 1)).

(** [std::sort] on a vector of integers. *)
Fixpoint insert_sorted (x : Z) (l : list Z) : list Z :=
  match l with
  | [] => [x]
  | h :: t => if x <=? h then x :: l else h :: insert_sorted x t
  end.

Fixpoint std_sort (l : list Z) : list Z :=
  match l with
  | [] => []
  | h :: t => insert_sorted h (std_sort t)
  end.

(** The lambda [at] of [computePercentiles], on the sorted vector. *)
Definition at_ (A : Arith) (dataNs : list Z) (pct : dbl A) : dbl A :=
  match dataNs with
  | [] => lit A 0 1
  | _ :: _ =>
      let n := Z.of_nat (length dataNs) in
      let pos := dmul A pct (of_uint A (n - 1)) in
      let idx := to_size_t A pos in
      let idx2 := Z.min (idx + 1) (n - 1) in
      let frac := dsub A pos (of_uint A idx) in
      let vNs :=
        dadd A
          (dmul A (of_uint A (nth (Z.to_nat idx) dataNs 0)) (dsub A (lit A 1 1) frac))
          (dmul A (of_uint A (nth (Z.to_nat idx2) dataNs 0)) frac) in
      ddiv A vNs (lit A 1000 1)
  end.

(** [const double pcts[] = {0.5, 0.90, 0.95, 0.99, 0.999}] *)
Definition pcts (A : Arith) : list (dbl A) :=
  [lit A 5 10; lit A 90 100; lit A 95 100; lit A 99 100; lit A 999 1000].

(** [computePercentiles(dataNs, outPctToUs)]: the vector after the call
    (sorted in place) and the output vector after the call. *)
Definition computePercentiles (A : Arith) (dataNs : list Z)
    (outPctToUs : list (dbl A * dbl A)) : list Z * list (dbl A * dbl A) :=
  match dataNs with
  | [] => (dataNs, outPctToUs)
  | _ :: _ =>
      let sorted := std_sort dataNs in
      (sorted, outPctToUs ++ map (fun p => (p, at_ A sorted p)) (pcts A))
  end.

(** What [main] does with the recorder after the run: copy the buffer and
    compute the percentiles into an empty vector [pctUs]. *)
Definition final_percentiles (A : Arith) (r : LatencyRecorder) : list (dbl A * dbl A) :=
  snd (computePercentiles A (samplesNs r) []).

(** The values of a result are in non-decreasing order. *)
Fixpoint nondecreasing (A : Arith) (l : list (dbl A)) : bool :=
  match l with
  | [] => true
  | x :: t =>
      match t with
      | [] => true
      | y :: _ => dleb A x y && nondecreasing A t
      end
  end.

(** The interpolation as the specification words it, on the rationals:
    position [p = q (n - 1)], between the order statistics at the floor
    and at the ceiling of [p], weighted by the fractional part of [p], in
    microseconds. *)
Definition interpolate (sorted : list Z) (q : Q) : Q :=
  let n := Z.of_nat (length sorted) in
  let p := (q * inject_Z (n - 1))%Q in
  let lo := Qfloor p in
  let hi := Qceiling p in
  let frac := (p - inject_Z lo)%Q in
  let x_lo := nth (Z.to_nat lo) sorted 0 in
  let x_hi := nth (Z.to_nat hi) sorted 0 in
  ((inject_Z x_lo * (1 - frac) + inject_Z x_hi * frac) / 1000)%Q.

(** The quantiles, as rationals. *)
Definition quantiles : list Q := [5 # 10; 90 # 100; 95 # 100; 99 # 100; 999 # 1000]%Q.

(** The value of [at] at position [p] of the sorted vector, before the
    division by 1000. *)
Definition at_position (s : list Z) (p : Q) : Q :=
  let n := Z.of_nat (length s) in
  let i := Qfloor p in
  let f := (p - inject_Z i)%Q in
  let x_lo := nth (Z.to_nat i) s 0 in
  let x_hi := nth (Z.to_nat (Z.min (i + 1) (n - 1))) s 0 in
  (inject_Z x_lo * (1 - f) + inject_Z x_hi * f)%Q.

(** ** [struct Config], [struct Stats], [struct MsgHeader] *)

Record Config : Type := mkConfig {
  queueName : String.string;
  durationSeconds : Z;
  messageSize : Z;
  maxMessages : Z;
  producers : Z;
  consumers : Z;
  unlinkAtStart : bool;
  unlinkAtEnd : bool;
  nonBlocking : bool;
  randomPayload : bool;
  latencySample : Z;
  printIntervalSeconds : Z;
  csvPath : String.string
}.

Record Stats : Type := mkStats {
  sentMessages : Z;
  sentBytes : Z;
  recvMessages : Z;
  recvBytes : Z;
  sendErrors : Z;
  recvErrors : Z;
  sendEagain : Z;
  recvEagain : Z
}.

(** [stats.<counter>.fetch_add(n, memory_order_relaxed)] *)
Definition add_sent (s : Stats) (bytes : Z) : Stats :=
  mkStats (wrap64 (sentMessages s + 1)) (wrap64 (sentBytes s + bytes))
    (recvMessages s) (recvBytes s) (sendErrors s) (recvErrors s)
    (sendEagain s) (recvEagain s).

Definition add_recv (s : Stats) (bytes : Z) : Stats :=
  mkStats (sentMessages s) (sentBytes s)
    (wrap64 (recvMessages s + 1)) (wrap64 (recvBytes s + bytes))
    (sendErrors s) (recvErrors s) (sendEagain s) (recvEagain s).

Definition add_sendErrors (s : Stats) : Stats :=
  mkStats (sentMessages s) (sentBytes s) (recvMessages s) (recvBytes s)
    (wrap64 (sendErrors s + 1)) (recvErrors s) (sendEagain s) (recvEagain s).

Definition add_recvErrors (s : Stats) : Stats :=
  mkStats (sentMessages s) (sentBytes s) (recvMessages s) (recvBytes s)
    (sendErrors s) (wrap64 (recvErrors s + 1)) (sendEagain s) (recvEagain s).

Definition add_sendEagain (s : Stats) : Stats :=
  mkStats (sentMessages s) (sentBytes s) (recvMessages s) (recvBytes s)
    (sendErrors s) (recvErrors s) (wrap64 (sendEagain s + 1)) (recvEagain s).

Definition add_recvEagain (s : Stats) : Stats :=
  mkStats (sentMessages s) (sentBytes s) (recvMessages s) (recvBytes s)
    (sendErrors s) (recvErrors s) (sendEagain s) (wrap64 (recvEagain s + 1)).

Record MsgHeader : Type := mkHeader {
  sequence : Z;
  sendTimeNs : Z
}.

(** [sizeof(MsgHeader)]: two [uint64_t]. *)
Definition sizeof_MsgHeader : Z := 16.

(** [EAGAIN] and [ETIMEDOUT] of [<errno.h>], with their values on Linux. *)
Definition EAGAIN : Z := 11.
Definition ETIMEDOUT : Z := 110.

(** [errno == EAGAIN || errno == ETIMEDOUT] *)
Definition would_block (errno : Z) : bool := (errno =? EAGAIN) || (errno =? ETIMEDOUT).

(** ** [producerThread] *)

(** The byte buffer of a worker.  [MsgHeader* header] points to its first
    16 bytes when the message is large enough and is null otherwise: the
    buffer is the header, if there is one, and the bytes behind it. *)
Record Message : Type := mkMessage {
  header : option MsgHeader;
  payload : list Z
}.

(** [vector<uint8_t> buffer(cfg.messageSize, 0)] and the header pointer. *)
Definition initial_buffer (cfg : Config) : Message :=
  if sizeof_MsgHeader <=? messageSize cfg
  then mkMessage (Some (mkHeader 0 0))
         (repeat 0 (Z.to_nat (messageSize cfg - sizeof_MsgHeader)))
  else mkMessage None (repeat 0 (Z.to_nat (messageSize cfg))).

(** The [n] bytes of [v], least significant first. *)
Fixpoint le_bytes (n : nat) (v : Z) : list Z :=
  match n with
  | O => []
  | S n' => v mod 256 :: le_bytes n' (v / 256)
  end.

(** [memcpy(dst + off, bytes, len)] *)
Fixpoint write_bytes (off : nat) (bytes : list Z) (dst : list Z) : list Z :=
  match bytes with
  | [] => dst
  | b :: bs => write_bytes (S off) bs (set_at off b dst)
  end.

(** The loop [for (i = start; i + sizeof(uint32_t) <= cfg.messageSize;
    i += sizeof(uint32_t))] that fills the payload.  [rng] is the stream
    of values of [dist(rng)], [drawn] the number of values used so far,
    [off] the position of byte [i] in the payload. *)
Fixpoint fill_random (fuel : nat) (rng : nat -> Z) (i size_ : Z) (off drawn : nat)
    (bytes : list Z) : list Z * nat :=
  match fuel with
  | O => (bytes, drawn)
  | S fuel' =>
      if i + 4 <=? size_ then
        fill_random fuel' rng (i + 4) size_ (off + 4) (S drawn)
          (write_bytes off (le_bytes 4 (rng drawn)) bytes)
      else (bytes, drawn)
  end.

Record ProducerState : Type := mkProducer {
  p_buffer : Message;
  p_seq : Z;
  p_drawn : nat;
  p_stats : Stats
}.

(** The result of [mq_timedsend]: 0, or -1 with [errno] set. *)
Inductive SendResult : Type :=
| SendOk
| SendFailed (errno : Z).

(** [static_cast<unsigned>(cfg.messageSize)], the length that
    [mq_timedsend] is given. *)
Definition send_length (cfg : Config) : Z := messageSize cfg mod 2 ^ 32.

(** What one iteration does that can be seen from outside: the call of
    [mq_timedsend], with the buffer as the iteration has built it
    ([it_message]) and the length ([it_length]), and the microseconds
    slept afterwards. *)
Record Iteration : Type := mkIteration {
  it_state : ProducerState;
  it_message : Message;
  it_length : Z;
  it_sleep_us : option Z
}.

(** The bytes of a buffer in memory: the two fields of the header, when
    there is one, each in 8 bytes, least significant first, and the bytes
    behind them. *)
Definition buffer_bytes (m : Message) : list Z :=
  match header m with
  | Some h => le_bytes 8 (sequence h) ++ le_bytes 8 (sendTimeNs h)
  | None => []
  end ++ payload m.

(** The bytes that [mq_timedsend] is given: the first [it_length] bytes
    of the buffer. *)
Definition mq_timedsend_bytes (it : Iteration) : list Z :=
  firstn (Z.to_nat (it_length it)) (buffer_bytes (it_message it)).

(** One iteration of the [while] loop of [producerThread]; [now] is the
    value of [nowNs()] and [ret] the outcome of [mq_timedsend]. *)
Definition producerIter (cfg : Config) (rng : nat -> Z) (st : ProducerState)
    (now : Z) (ret : SendResult) : Iteration :=
  let buf0 := p_buffer st in
  let '(hdr1, seq1) :=
    match header buf0 with
    | Some _ => (Some (mkHeader (p_seq st) now), wrap64 (p_seq st + 1))
    | None => (None, p_seq st)
    end in
  let '(bytes1, drawn1) :=
    if randomPayload cfg then
      let start := match hdr1 with Some _ => sizeof_MsgHeader | None => 0 end in
      fill_random (Z.to_nat (messageSize cfg)) rng start (messageSize cfg) 0
        (p_drawn st) (payload buf0)
    else (payload buf0, p_drawn st) in
  let buf1 := mkMessage hdr1 bytes1 in
  match ret with
  | SendOk =>
      mkIteration
        (mkProducer buf1 seq1 drawn1 (add_sent (p_stats st) (messageSize cfg)))
        buf1 (send_length cfg) None
  | SendFailed errno =>
      if would_block errno then
        mkIteration (mkProducer buf1 seq1 drawn1 (add_sendEagain (p_stats st)))
          buf1 (send_length cfg) (Some 50)
      else
        mkIteration (mkProducer buf1 seq1 drawn1 (add_sendErrors (p_stats st)))
          buf1 (send_length cfg) (Some 100)
  end.

(** The loop, for as many iterations as the stop flag lets through; each
    iteration has its clock value and its send outcome. *)
Fixpoint producerLoop (cfg : Config) (rng : nat -> Z) (st : ProducerState)
    (steps : list (Z * SendResult)) : list Iteration :=
  match steps with
  | [] => []
  | (now, ret) :: rest =>
      let it := producerIter cfg rng st now ret in
      it :: producerLoop cfg rng (it_state it) rest
  end.

Definition producerThread (cfg : Config) (rng : nat -> Z) (stats : Stats)
    (steps : list (Z * SendResult)) : list Iteration :=
  producerLoop cfg rng (mkProducer (initial_buffer cfg) 0 0 stats) steps.

(** A configuration with messages of 16 bytes, the header and nothing
    else, and the counters of a new run. *)
Definition cfg16 : Config :=
  mkConfig String.EmptyString 5 16 1024 1 1 true true false false 100000 1
    String.EmptyString.

Definition stats0 : Stats := mkStats 0 0 0 0 0 0 0 0.

(** ** [consumerThread] and the completion block of [gcd_benchmark.cpp] *)

(** The argument of the call [latRecorder.record(recvNs - sendNs)], when
    the call is made.  [has_header] is [header != nullptr], [n] the number
    of bytes received. *)
Definition latency_sample (has_header : bool) (n recvNs sendNs : Z) : option Z :=
  if has_header && (sizeof_MsgHeader <=? n) then
    if sendNs <=? recvNs then Some (wrap64 (recvNs - sendNs)) else None
  else None.

Record ConsumerState : Type := mkConsumer {
  c_stats : Stats;
  c_recorder : LatencyRecorder
}.

(** The result of [mq_timedreceive]: the size of the message and the
    [sendTimeNs] field of the buffer after it, or -1 with [errno] set. *)
Inductive RecvResult : Type :=
| RecvOk (n : Z) (sendNs : Z)
| RecvFailed (errno : Z).

(** One iteration of the [while] loop of [consumerThread]: the state after
    it and the microseconds slept. *)
Definition consumerIter (cfg : Config) (st : ConsumerState) (res : RecvResult)
    (now : Z) : Rand (ConsumerState * option Z) :=
  match res with
  | RecvOk n sendNs =>
      let stats1 := add_recv (c_stats st) n in
      match latency_sample (sizeof_MsgHeader <=? messageSize cfg) n now sendNs with
      | Some latency =>
          bind (record_mq (c_recorder st) latency)
            (fun r => Ret (mkConsumer stats1 r, None))
      | None => Ret (mkConsumer stats1 (c_recorder st), None)
      end
  | RecvFailed errno =>
      if would_block errno then
        Ret (mkConsumer (add_recvEagain (c_stats st)) (c_recorder st), Some 50)
      else
        Ret (mkConsumer (add_recvErrors (c_stats st)) (c_recorder st), Some 100)
  end.

(** The block that [produceFunc] dispatches in [gcd_benchmark.cpp], for a
    payload of [payload_size] bytes whose header holds [sendNs]. *)
Definition gcd_completion (st : ConsumerState) (payload_size sendNs now : Z)
    : Rand ConsumerState :=
  let stats1 := add_recv (c_stats st) payload_size in
  match latency_sample true payload_size now sendNs with
  | Some latency =>
      bind (record_gcd (c_recorder st) latency)
        (fun r => Ret (mkConsumer stats1 r))
  | None => Ret (mkConsumer stats1 (c_recorder st))
  end.

(** The loop of [consumerThread], for as many iterations as the stop flag
    lets through; each iteration has the outcome of its receive and its
    clock value. *)
Fixpoint consumerLoop (cfg : Config) (st : ConsumerState)
    (steps : list (RecvResult * Z)) : Rand ConsumerState :=
  match steps with
  | [] => Ret st
  | (res, now) :: rest =>
      bind (consumerIter cfg st res now) (fun out => consumerLoop cfg (fst out) rest)
  end.

(** A value is the latency of one of the messages of the run: the
    difference, in the integers, of a receive time and a send time that
    is not after it. *)
Definition latency_of (steps : list (RecvResult * Z)) (x : Z) : Prop :=
  exists n sendNs recvNs,
    In (RecvOk n sendNs, recvNs) steps /\ sizeof_MsgHeader <= n /\
    sendNs <= recvNs /\ x = recvNs - sendNs.

(** ** The exit paths of [main] *)

(** What [main] does that the outside sees, in order. *)
Inductive Event : Type :=
| ErrMessageSize        (* "message-size must be > 0" *)
| ErrWorkers            (* "producers and consumers must be >= 1" *)
| ErrDuration           (* "duration-seconds must be >= 1" *)
| ErrMaxMessages        (* "max-messages must be >= 1" *)
| ErrInvalidConfig      (* "Invalid config" *)
| MqUnlink
| MqOpen
| PerrorMqOpen
| MqGetattr
| PerrorMqGetattr
| MqClose
| RunWorkers            (* the workers run, the progress loop, the joins *)
| PrintSummary
| FopenCsv
| PerrorFopenCsv
| CsvLine.

(** The outcomes of the system calls of [main], and what the system lets
    the process have: [alloc_ok n] is whether the allocator gives a block
    of [n] bytes, [threads_ok] whether the threads can all be created. *)
Record MainEnv : Type := mkMainEnv {
  mq_open_ok : bool;
  mq_getattr_ok : bool;
  fopen_ok : bool;
  alloc_ok : Z -> bool;
  threads_ok : bool
}.

Definition PTRDIFF_MAX : Z := 2 ^ 63 - 1.
Definition INT_MAX : Z := 2 ^ 31 - 1.

(** Whether a vector gets room for [bytes] bytes.  Nothing is allocated
    for 0 bytes; above [PTRDIFF_MAX], which no [max_size()] exceeds, the
    vector throws [std::length_error]; in between the allocator decides,
    and [std::bad_alloc] is thrown when it refuses. *)
Definition allocates (env : MainEnv) (bytes : Z) : bool :=
  (bytes =? 0) || ((bytes <=? PTRDIFF_MAX) && alloc_ok env bytes).

(** [LatencyRecorder latRecorder(cfg.latencySample)]: the constructor
    returns when [samplesNs.reserve(capacity)] does, for values of 8
    bytes. *)
Definition recorder_constructed (cfg : Config) (env : MainEnv) : bool :=
  allocates env (8 * latencySample cfg).

(** The workers start and run: [threads.reserve] and the [emplace_back]
    calls return, and each worker gets its
    [vector<uint8_t> buffer(cfg.messageSize, 0)].  The sum
    [cfg.producers + cfg.consumers] is an [int]; a sum above [INT_MAX]
    overflows, and no run with as many threads starts. *)
Definition workers_started (cfg : Config) (env : MainEnv) : bool :=
  (producers cfg + consumers cfg <=? INT_MAX) && threads_ok env
  && allocates env (messageSize cfg).

(** The producers of [gcd_benchmark.cpp] start and run: the threads are
    created and each gets its buffer. *)
Definition producers_started (cfg : Config) (env : MainEnv) : bool :=
  threads_ok env && allocates env (messageSize cfg).

Definition is_empty (s : String.string) : bool :=
  match s with
  | String.EmptyString => true
  | String.String _ _ => false
  end.

(** The CSV block at the end of both [main]s. *)
Definition write_csv (cfg : Config) (env : MainEnv) : list Event :=
  if is_empty (csvPath cfg) then []
  else if fopen_ok env then [FopenCsv; CsvLine]
  else [FopenCsv; PerrorFopenCsv].

Definition unlink_if (b : bool) : list Event := if b then [MqUnlink] else [].

(** How the process ends: [main] returns a status, or an exception that
    nothing catches, in [main] or in a thread, ends the process through
    [std::terminate]; both with the events up to there. *)
Inductive Outcome : Type :=
| Exited (events : list Event) (status : Z)
| Aborted (events : list Event).

Definition events_of (o : Outcome) : list Event :=
  match o with
  | Exited events _ => events
  | Aborted events => events
  end.

(** The exit status, when [main] returns. *)
Definition status_of (o : Outcome) : option Z :=
  match o with
  | Exited _ status => Some status
  | Aborted _ => None
  end.


(** [main] of [mq_benchmark.cpp], after [parseArgs].  The exceptions
    that end a run are those of the recorder, of the threads and of the
    buffers of the workers, whose sizes the configuration sets; the other
    allocations of [main] are taken to succeed. *)
Definition main_mq (cfg : Config) (env : MainEnv) : Outcome :=
  if messageSize cfg =? 0 then Exited [ErrMessageSize] 1
  else if (producers cfg <=? 0) || (consumers cfg <=? 0) then Exited [ErrWorkers] 1
  else if durationSeconds cfg <=? 0 then Exited [ErrDuration] 1
  else if maxMessages cfg <=? 0 then Exited [ErrMaxMessages] 1
  else
    let start := unlink_if (unlinkAtStart cfg) ++ [MqOpen] in
    if negb (mq_open_ok env) then Exited (start ++ [PerrorMqOpen]) 2
    else if negb (mq_getattr_ok env) then
      Exited (start ++ [MqGetattr; PerrorMqGetattr; MqClose]
                ++ unlink_if (unlinkAtEnd cfg)) 2
    else if negb (recorder_constructed cfg env) then Aborted (start ++ [MqGetattr])
    else if negb (workers_started cfg env) then Aborted (start ++ [MqGetattr])
    else
      Exited (start ++ [MqGetattr; RunWorkers; PrintSummary] ++ write_csv cfg env
                ++ unlink_if (unlinkAtEnd cfg) ++ [MqClose]) 0.

(** [main] of [gcd_benchmark.cpp], after [parseArgs]; [maxMessages] is
    the field [maxInFlight] there.  The exceptions that end a run are
    those of the recorder, of the threads and of the buffers of the
    producers; the copies of the buffer that the blocks get are no larger
    than the buffer and are taken to succeed, as the other allocations
    of [main]. *)
Definition main_gcd (cfg : Config) (env : MainEnv) : Outcome :=
  if (messageSize cfg =? 0) || (producers cfg <=? 0) || (consumers cfg <=? 0)
     || (durationSeconds cfg <=? 0) || (maxMessages cfg <=? 0)
  then Exited [ErrInvalidConfig] 1
  else if negb (recorder_constructed cfg env) then Aborted []
  else if negb (producers_started cfg env) then Aborted []
  else Exited ([RunWorkers; PrintSummary] ++ write_csv cfg env) 0.

(** A configuration that [main] rejects, as the specification lists it. *)
Definition invalid_config (cfg : Config) : Prop :=
  messageSize cfg = 0 \/ producers cfg < 1 \/ consumers cfg < 1 \/
  durationSeconds cfg < 1 \/ maxMessages cfg < 1.

(** ** Clocks: [nowNs] and the deadline of the timed calls *)

(** [struct timespec] *)
Record timespec : Type := mkTimespec {
  tv_sec : Z;
  tv_nsec : Z
}.

(** A clock reading as the system returns it. *)
Definition normalized (ts : timespec) : Prop :=
  0 <= tv_sec ts /\ 0 <= tv_nsec ts < 1000000000.

(** The nanoseconds that a [timespec] stands for. *)
Definition ns_value (ts : timespec) : Z := tv_sec ts * 1000000000 + tv_nsec ts.

(** [nowNs], on the reading [ts] of [CLOCK_MONOTONIC]:
    [static_cast<uint64_t>(ts.tv_sec) * 1000000000ull
     + static_cast<uint64_t>(ts.tv_nsec)]. *)
Definition nowNs (ts : timespec) : Z :=
  wrap64 (wrap64 (wrap64 (tv_sec ts) * 1000000000) + wrap64 (tv_nsec ts)).

(** The deadline of [mq_timedsend] and [mq_timedreceive], from the reading
    [ts] of [CLOCK_REALTIME]: [ts.tv_nsec += 100 * 1000 * 1000;
    if (ts.tv_nsec >= 1000000000L) { ts.tv_sec += 1; ts.tv_nsec -= 1000000000L; }] *)
Definition deadline (ts : timespec) : timespec :=
  let nsec := tv_nsec ts + 100 * 1000 * 1000 in
  if 1000000000 <=? nsec
  then mkTimespec (tv_sec ts + 1) (nsec - 1000000000)
  else mkTimespec (tv_sec ts) nsec.

(** ** The attributes of the queue *)

(** [static_cast<long>(size_t)] *)
Definition to_long (x : Z) : Z :=
  if x <? 2 ^ 63 then x else x - U64_MOD.

(** [readLongFromFile(path, fallback)]; the file is [None] when it cannot
    be opened, [Some None] when no number can be read from it. *)
Definition readLongFromFile (file : option (option Z)) (fallback : Z) : Z :=
  match file with
  | None => fallback
  | Some None => fallback
  | Some (Some v) => v
  end.

(** The Linux branch of [main] that fills [attr.mq_maxmsg] and
    [attr.mq_msgsize], from the two files of [/proc/sys/fs/mqueue]. *)
Definition mq_attr_request (cfg : Config) (msg_max msgsize_max : option (option Z))
    : Z * Z :=
  let sys_maxmsg := readLongFromFile msg_max 10 in
  let sys_msgsize := readLongFromFile msgsize_max 8192 in
  let requested_maxmsg := maxMessages cfg in
  let requested_msgsize := to_long (messageSize cfg) in
  let requested_maxmsg :=
    if sys_maxmsg <? requested_maxmsg then sys_maxmsg else requested_maxmsg in
  let requested_msgsize :=
    if sys_msgsize <? requested_msgsize then sys_msgsize else requested_msgsize in
  let requested_maxmsg := if requested_maxmsg <? 1 then 1 else requested_maxmsg in
  let requested_msgsize := if requested_msgsize <? 1 then 1 else requested_msgsize in
  (requested_maxmsg, requested_msgsize).

(** ** The latency lines of the summary and of the CSV record *)

(** What the summary prints about the latency. *)
Inductive SummaryLatency (A : Arith) : Type :=
| LatencyValues (pctUs : list (dbl A * dbl A))   (* "latency-us (p50,...)" *)
| LatencyNotAvailable.                           (* "not available (message-size < header)" *)

Arguments LatencyValues {A} _.
Arguments LatencyNotAvailable {A}.

(** [if (!pctUs.empty()) ... else ...] *)
Definition summary_latency (A : Arith) (pctUs : list (dbl A * dbl A)) : SummaryLatency A :=
  match pctUs with
  | [] => LatencyNotAvailable
  | _ :: _ => LatencyValues pctUs
  end.

(** The five latency fields of the CSV line; [None] is the [NAN] that the
    fields are initialised with. *)
Definition csv_latency (A : Arith) (pctUs : list (dbl A * dbl A)) : list (option (dbl A)) :=
  if 5 <=? Z.of_nat (length pctUs) then
    map (fun k => option_map snd (nth_error pctUs k)) [0; 1; 2; 3; 4]%nat
  else [None; None; None; None; None].

(** ** The dispatch of [gcd_benchmark.cpp] *)

(** [workerQueues[static_cast<size_t>(idx % workerQueues.size())]], the
    number of the queue that the block with index [idx] goes to. *)
Definition pick_queue (idx queues : Z) : Z := idx mod queues.

(** The queues of the first [n] blocks: [rr.fetch_add(1)] gives the
    indices 0, 1, 2, ... to the blocks, whichever producer dispatches
    them. *)
Definition dispatched (n : nat) (queues : Z) : list Z :=
  map (fun k => pick_queue (wrap64 (Z.of_nat k)) queues) (seq 0 n).

(** ** [parseBool] and [parseArgs] *)

(** [parseBool] *)
Definition parseBool (s : String.string) : bool :=
  String.eqb s "1" || String.eqb s "true" || String.eqb s "True"
  || String.eqb s "TRUE" || String.eqb s "yes" || String.eqb s "on".

(** The assignments of [parseArgs] to the fields of [cfg]. *)
Definition with_queueName (cfg : Config) (v : String.string) : Config :=
  mkConfig v (durationSeconds cfg) (messageSize cfg) (maxMessages cfg)
    (producers cfg) (consumers cfg) (unlinkAtStart cfg) (unlinkAtEnd cfg)
    (nonBlocking cfg) (randomPayload cfg) (latencySample cfg)
    (printIntervalSeconds cfg) (csvPath cfg).

Definition with_durationSeconds (cfg : Config) (v : Z) : Config :=
  mkConfig (queueName cfg) v (messageSize cfg) (maxMessages cfg)
    (producers cfg) (consumers cfg) (unlinkAtStart cfg) (unlinkAtEnd cfg)
    (nonBlocking cfg) (randomPayload cfg) (latencySample cfg)
    (printIntervalSeconds cfg) (csvPath cfg).

Definition with_messageSize (cfg : Config) (v : Z) : Config :=
  mkConfig (queueName cfg) (durationSeconds cfg) v (maxMessages cfg)
    (producers cfg) (consumers cfg) (unlinkAtStart cfg) (unlinkAtEnd cfg)
    (nonBlocking cfg) (randomPayload cfg) (latencySample cfg)
    (printIntervalSeconds cfg) (csvPath cfg).

Definition with_maxMessages (cfg : Config) (v : Z) : Config :=
  mkConfig (queueName cfg) (durationSeconds cfg) (messageSize cfg) v
    (producers cfg) (consumers cfg) (unlinkAtStart cfg) (unlinkAtEnd cfg)
    (nonBlocking cfg) (randomPayload cfg) (latencySample cfg)
    (printIntervalSeconds cfg) (csvPath cfg).

Definition with_producers (cfg : Config) (v : Z) : Config :=
  mkConfig (queueName cfg) (durationSeconds cfg) (messageSize cfg) (maxMessages cfg)
    v (consumers cfg) (unlinkAtStart cfg) (unlinkAtEnd cfg)
    (nonBlocking cfg) (randomPayload cfg) (latencySample cfg)
    (printIntervalSeconds cfg) (csvPath cfg).

Definition with_consumers (cfg : Config) (v : Z) : Config :=
  mkConfig (queueName cfg) (durationSeconds cfg) (messageSize cfg) (maxMessages cfg)
    (producers cfg) v (unlinkAtStart cfg) (unlinkAtEnd cfg)
    (nonBlocking cfg) (randomPayload cfg) (latencySample cfg)
    (printIntervalSeconds cfg) (csvPath cfg).

Definition with_unlinkAtStart (cfg : Config) (v : bool) : Config :=
  mkConfig (queueName cfg) (durationSeconds cfg) (messageSize cfg) (maxMessages cfg)
    (producers cfg) (consumers cfg) v (unlinkAtEnd cfg)
    (nonBlocking cfg) (randomPayload cfg) (latencySample cfg)
    (printIntervalSeconds cfg) (csvPath cfg).

Definition with_unlinkAtEnd (cfg : Config) (v : bool) : Config :=
  mkConfig (queueName cfg) (durationSeconds cfg) (messageSize cfg) (maxMessages cfg)
    (producers cfg) (consumers cfg) (unlinkAtStart cfg) v
    (nonBlocking cfg) (randomPayload cfg) (latencySample cfg)
    (printIntervalSeconds cfg) (csvPath cfg).

Definition with_nonBlocking (cfg : Config) (v : bool) : Config :=
  mkConfig (queueName cfg) (durationSeconds cfg) (messageSize cfg) (maxMessages cfg)
    (producers cfg) (consumers cfg) (unlinkAtStart cfg) (unlinkAtEnd cfg)
    v (randomPayload cfg) (latencySample cfg)
    (printIntervalSeconds cfg) (csvPath cfg).

Definition with_randomPayload (cfg : Config) (v : bool) : Config :=
  mkConfig (queueName cfg) (durationSeconds cfg) (messageSize cfg) (maxMessages cfg)
    (producers cfg) (consumers cfg) (unlinkAtStart cfg) (unlinkAtEnd cfg)
    (nonBlocking cfg) v (latencySample cfg)
    (printIntervalSeconds cfg) (csvPath cfg).

Definition with_latencySample (cfg : Config) (v : Z) : Config :=
  mkConfig (queueName cfg) (durationSeconds cfg) (messageSize cfg) (maxMessages cfg)
    (producers cfg) (consumers cfg) (unlinkAtStart cfg) (unlinkAtEnd cfg)
    (nonBlocking cfg) (randomPayload cfg) v
    (printIntervalSeconds cfg) (csvPath cfg).

Definition with_printIntervalSeconds (cfg : Config) (v : Z) : Config :=
  mkConfig (queueName cfg) (durationSeconds cfg) (messageSize cfg) (maxMessages cfg)
    (producers cfg) (consumers cfg) (unlinkAtStart cfg) (unlinkAtEnd cfg)
    (nonBlocking cfg) (randomPayload cfg) (latencySample cfg)
    v (csvPath cfg).

Definition with_csvPath (cfg : Config) (v : String.string) : Config :=
  mkConfig (queueName cfg) (durationSeconds cfg) (messageSize cfg) (maxMessages cfg)
    (producers cfg) (consumers cfg) (unlinkAtStart cfg) (unlinkAtEnd cfg)
    (nonBlocking cfg) (randomPayload cfg) (latencySample cfg)
    (printIntervalSeconds cfg) v.

(** The member initialisers of [struct Config] in [mq_benchmark.cpp]. *)
Definition default_config_mq : Config :=
  mkConfig "/mq_bench"%string 5 256 1024 1 1 true true false false 100000 1 String.EmptyString.

(** The member initialisers of [struct Config] in [gcd_benchmark.cpp];
    the fields that the structure does not have there are unused. *)
Definition default_config_gcd : Config :=
  mkConfig String.EmptyString 5 256 1024 1 1 false false false false 100000 1
    String.EmptyString.

(** Why [parseArgs] ends the process. *)
Inductive ExitReason : Type :=
| MissingValue (opt : String.string)     (* "Missing value for ..." *)
| UnknownOption (arg : String.string)    (* "Unknown option: ..." *)
| HelpRequested.

(** What a call of [parseArgs] comes to: the configuration, a call of
    [exit], or an exception of a number conversion that nothing catches. *)
Inductive ArgsResult : Type :=
| ArgsOk (cfg : Config)
| ArgsExit (status : Z) (why : ExitReason)
| ArgsThrow.

Section Arguments.

(** [std::stoi], [std::stol] and [std::stoll] of the standard library:
    the number read, or [None] when the call throws. *)
Variables stoi stol stoll : String.string -> option Z.

(** The branch of [parseArgs] in [mq_benchmark.cpp] for an option that
    takes a value: what the branch assigns, given the value. *)
Definition option_mq (arg : String.string)
    : option (Config -> String.string -> option Config) :=
  if String.eqb arg "--queue-name" then
    Some (fun cfg v => Some (with_queueName cfg v))
  else if String.eqb arg "--duration-seconds" then
    Some (fun cfg v => option_map (with_durationSeconds cfg) (stoi v))
  else if String.eqb arg "--message-size" then
    Some (fun cfg v => option_map (fun z => with_messageSize cfg (wrap64 z)) (stoll v))
  else if String.eqb arg "--max-messages" then
    Some (fun cfg v => option_map (with_maxMessages cfg) (stol v))
  else if String.eqb arg "--producers" then
    Some (fun cfg v => option_map (with_producers cfg) (stoi v))
  else if String.eqb arg "--consumers" then
    Some (fun cfg v => option_map (with_consumers cfg) (stoi v))
  else if String.eqb arg "--unlink-start" then
    Some (fun cfg v => Some (with_unlinkAtStart cfg (parseBool v)))
  else if String.eqb arg "--unlink-end" then
    Some (fun cfg v => Some (with_unlinkAtEnd cfg (parseBool v)))
  else if String.eqb arg "--nonblocking" then
    Some (fun cfg v => Some (with_nonBlocking cfg (parseBool v)))
  else if String.eqb arg "--random-payload" then
    Some (fun cfg v => Some (with_randomPayload cfg (parseBool v)))
  else if String.eqb arg "--latency-sample" then
    Some (fun cfg v => option_map (fun z => with_latencySample cfg (wrap64 z)) (stoll v))
  else if String.eqb arg "--print-interval" then
    Some (fun cfg v => option_map (with_printIntervalSeconds cfg) (stoi v))
  else if String.eqb arg "--csv" then
    Some (fun cfg v => Some (with_csvPath cfg v))
  else None.

(** The same for [gcd_benchmark.cpp]; [--max-inflight] sets the field
    that is [maxMessages] here. *)
Definition option_gcd (arg : String.string)
    : option (Config -> String.string -> option Config) :=
  if String.eqb arg "--duration-seconds" then
    Some (fun cfg v => option_map (with_durationSeconds cfg) (stoi v))
  else if String.eqb arg "--message-size" then
    Some (fun cfg v => option_map (fun z => with_messageSize cfg (wrap64 z)) (stoll v))
  else if String.eqb arg "--max-inflight" then
    Some (fun cfg v => option_map (with_maxMessages cfg) (stol v))
  else if String.eqb arg "--producers" then
    Some (fun cfg v => option_map (with_producers cfg) (stoi v))
  else if String.eqb arg "--consumers" then
    Some (fun cfg v => option_map (with_consumers cfg) (stoi v))
  else if String.eqb arg "--random-payload" then
    Some (fun cfg v => Some (with_randomPayload cfg (parseBool v)))
  else if String.eqb arg "--latency-sample" then
    Some (fun cfg v => option_map (fun z => with_latencySample cfg (wrap64 z)) (stoll v))
  else if String.eqb arg "--print-interval" then
    Some (fun cfg v => option_map (with_printIntervalSeconds cfg) (stoi v))
  else if String.eqb arg "--csv" then
    Some (fun cfg v => Some (with_csvPath cfg v))
  else None.

(** The loop of [parseArgs] over [argv[1]], [argv[2]], ...: an option
    that takes a value first needs the value to be there ([need]), then
    assigns; [--help] and [-h] exit with 0; anything else exits with 1. *)
Fixpoint parseArgs_from
    (options : String.string -> option (Config -> String.string -> option Config))
    (cfg : Config) (args : list String.string) : ArgsResult :=
  match args with
  | [] => ArgsOk cfg
  | arg :: rest =>
      match options arg with
      | Some assign =>
          match rest with
          | [] => ArgsExit 1 (MissingValue arg)
          | v :: rest' =>
              match assign cfg v with
              | Some cfg' => parseArgs_from options cfg' rest'
              | None => ArgsThrow
              end
          end
      | None =>
          if String.eqb arg "--help" || String.eqb arg "-h"
          then ArgsExit 0 HelpRequested
          else ArgsExit 1 (UnknownOption arg)
      end
  end.

(** [parseArgs] of the two programs. *)
Definition parseArgs_mq (args : list String.string) : ArgsResult :=
  parseArgs_from option_mq default_config_mq args.

Definition parseArgs_gcd (args : list String.string) : ArgsResult :=
  parseArgs_from option_gcd default_config_gcd args.

End Arguments.

(** [main] of [mq_benchmark.cpp] from [argv]. *)
Definition program_mq (stoi stol stoll : String.string -> option Z)
    (args : list String.string) (env : MainEnv) : Outcome :=
  match parseArgs_mq stoi stol stoll args with
  | ArgsOk cfg => main_mq cfg env
  | ArgsExit status _ => Exited [] status
  | ArgsThrow => Aborted []
  end.

(** ** Counting what the loops do *)

(** The state of the producer when its loop ends. *)
Definition producerEnd (cfg : Config) (rng : nat -> Z) (st : ProducerState)
    (steps : list (Z * SendResult)) : ProducerState :=
  last (map it_state (producerLoop cfg rng st steps)) st.

Definition send_ok (step : Z * SendResult) : bool :=
  match snd step with
  | SendOk => true
  | SendFailed _ => false
  end.

Definition send_blocked (step : Z * SendResult) : bool :=
  match snd step with
  | SendOk => false
  | SendFailed errno => would_block errno
  end.

Definition send_failed (step : Z * SendResult) : bool :=
  match snd step with
  | SendOk => false
  | SendFailed errno => negb (would_block errno)
  end.

(** The number of steps that [f] holds of. *)
Definition count {A : Type} (f : A -> bool) (l : list A) : Z :=
  Z.of_nat (length (filter f l)).

(** The bytes of a buffer: the header, when there is one, and the bytes
    behind it. *)
Definition message_size (m : Message) : Z :=
  match header m with
  | Some _ => sizeof_MsgHeader + Z.of_nat (length (payload m))
  | None => Z.of_nat (length (payload m))
  end.

(** The bytes of [w] values of the generator, from value number [first]
    on, each value least significant byte first. *)
Definition random_words (rng : nat -> Z) (first w : nat) : list Z :=
  flat_map (fun k => le_bytes 4 (rng (first + k)%nat)) (seq 0 w).

(** The latencies that a run of the consumer hands to the recorder, in
    the order of the messages. *)
Fixpoint latencies (cfg : Config) (steps : list (RecvResult * Z)) : list Z :=
  match steps with
  | [] => []
  | (RecvOk n sendNs, now) :: rest =>
      match latency_sample (sizeof_MsgHeader <=? messageSize cfg) n now sendNs with
      | Some latency => latency :: latencies cfg rest
      | None => latencies cfg rest
      end
  | (RecvFailed _, _) :: rest => latencies cfg rest
  end.

(** The counters after a run of the consumer. *)
Fixpoint consumer_stats (stats : Stats) (steps : list (RecvResult * Z)) : Stats :=
  match steps with
  | [] => stats
  | (RecvOk n _, _) :: rest => consumer_stats (add_recv stats n) rest
  | (RecvFailed errno, _) :: rest =>
      consumer_stats
        (if would_block errno then add_recvEagain stats else add_recvErrors stats) rest
  end.

Definition recv_ok (step : RecvResult * Z) : bool :=
  match fst step with
  | RecvOk _ _ => true
  | RecvFailed _ => false
  end.

Definition recv_blocked (step : RecvResult * Z) : bool :=
  match fst step with
  | RecvOk _ _ => false
  | RecvFailed errno => would_block errno
  end.

Definition recv_failed (step : RecvResult * Z) : bool :=
  match fst step with
  | RecvOk _ _ => false
  | RecvFailed errno => negb (would_block errno)
  end.

(** The bytes of the messages received. *)
Fixpoint received_bytes (steps : list (RecvResult * Z)) : Z :=
  match steps with
  | [] => 0
  | (RecvOk n _, _) :: rest => n + received_bytes rest
  | (RecvFailed _, _) :: rest => received_bytes rest
  end.

(** The draws that [n] calls use, from a state in which [seen] calls
    were made: one per call whose index is at least the capacity. *)
Definition draws_used (cap seen0 n : Z) : Z :=
  if cap =? 0 then 0 else Z.max 0 (seen0 + n - Z.max seen0 cap).

(** The number of times that [e] is among the events of a run. *)
Definition Event_eqb (a b : Event) : bool :=
  match a, b with
  | ErrMessageSize, ErrMessageSize | ErrWorkers, ErrWorkers
  | ErrDuration, ErrDuration | ErrMaxMessages, ErrMaxMessages
  | ErrInvalidConfig, ErrInvalidConfig | MqUnlink, MqUnlink | MqOpen, MqOpen
  | PerrorMqOpen, PerrorMqOpen | MqGetattr, MqGetattr
  | PerrorMqGetattr, PerrorMqGetattr | MqClose, MqClose
  | RunWorkers, RunWorkers | PrintSummary, PrintSummary | FopenCsv, FopenCsv
  | PerrorFopenCsv, PerrorFopenCsv | CsvLine, CsvLine => true
  | _, _ => false
  end.

Definition occurrences (e : Event) (events : list Event) : nat :=
  length (filter (Event_eqb e) events).

(** ** The semaphore of [gcd_benchmark.cpp] *)

(** The steps of the producers and of the blocks that touch [spaceSem]:
    a producer returns from [dispatch_semaphore_wait], a producer submits
    its block with [dispatch_async], a block reaches its
    [dispatch_semaphore_signal]. *)
Inductive GcdStep : Type :=
| Acquire
| Dispatch
| Complete.

(** The value of the semaphore, the producers between the wait and the
    [dispatch_async], and the blocks submitted that have not signalled. *)
Record GcdState : Type := mkGcdState {
  sem_value : Z;
  acquired : Z;
  in_flight : Z
}.

(** [dispatch_semaphore_create(cfg.maxInFlight)] *)
Definition gcd_start (cfg : Config) : GcdState := mkGcdState (maxMessages cfg) 0 0.

(** A step, when it can be taken: the wait returns only with a positive
    value, which it decrements; the signal increments. *)
Definition gcd_step (s : GcdState) (e : GcdStep) : option GcdState :=
  match e with
  | Acquire =>
      if 0 <? sem_value s
      then Some (mkGcdState (sem_value s - 1) (acquired s + 1) (in_flight s))
      else None
  | Dispatch =>
      if 0 <? acquired s
      then Some (mkGcdState (sem_value s) (acquired s - 1) (in_flight s + 1))
      else None
  | Complete =>
      if 0 <? in_flight s
      then Some (mkGcdState (sem_value s + 1) (acquired s) (in_flight s - 1))
      else None
  end.

Fixpoint gcd_run (s : GcdState) (steps : list GcdStep) : option GcdState :=
  match steps with
  | [] => Some s
  | e :: rest =>
      match gcd_step s e with
      | Some s' => gcd_run s' rest
      | None => None
      end
  end.

Definition is_dispatch (e : GcdStep) : bool :=
  match e with Dispatch => true | _ => false end.

Definition is_complete (e : GcdStep) : bool :=
  match e with Complete => true | _ => false end.

(** ** The buffer of the producer over a run *)

Definition has_header (m : Message) : bool :=
  match header m with
  | Some _ => true
  | None => false
  end.

(** [size_t start = header ? sizeof(MsgHeader) : 0] *)
Definition header_size (cfg : Config) : Z :=
  if sizeof_MsgHeader <=? messageSize cfg then sizeof_MsgHeader else 0.

(** The 32-bit values that fit behind the header, and the bytes that are
    left behind the last of them. *)
Definition payload_words (cfg : Config) : nat :=
  Z.to_nat ((messageSize cfg - header_size cfg) / 4).

Definition payload_rest (cfg : Config) : nat :=
  Z.to_nat ((messageSize cfg - header_size cfg) mod 4).

(** The bytes behind the header after [n] iterations. *)
Definition payload_after (cfg : Config) (rng : nat -> Z) (n : nat) : list Z :=
  match n with
  | O => repeat 0 (4 * payload_words cfg)
  | S k =>
      if randomPayload cfg
      then random_words rng (k * payload_words cfg) (payload_words cfg)
      else repeat 0 (4 * payload_words cfg)
  end ++ repeat 0 (payload_rest cfg).

(** The state of the producer after [n] iterations, the counters apart. *)
Definition producer_inv (cfg : Config) (rng : nat -> Z) (n : nat) (st : ProducerState)
    : Prop :=
  has_header (p_buffer st) = (sizeof_MsgHeader <=? messageSize cfg) /\
  p_seq st = (if sizeof_MsgHeader <=? messageSize cfg then wrap64 (Z.of_nat n) else 0) /\
  p_drawn st = (if randomPayload cfg then n * payload_words cfg else 0)%nat /\
  payload (p_buffer st) = payload_after cfg rng n.

(** The loop of [produceFunc] in [gcd_benchmark.cpp]: it builds the
    message as [producerThread] does, and when [dispatch_semaphore_wait]
    has returned it submits a copy of the whole buffer ([it_message]; the
    length [it_length] is of the call that [producerThread] makes and
    has no part here) and counts it as sent, as the iteration of
    [producerThread] whose send succeeds; [nows] are the clock values of
    the iterations. *)
Definition produceFunc (cfg : Config) (rng : nat -> Z) (stats : Stats) (nows : list Z)
    : list Iteration :=
  producerThread cfg rng stats (map (fun now => (now, SendOk)) nows).

(* ================================================================== *)
(** * Part II: properties *)
(* ================================================================== *)

(** ** Tactics *)

(** Opens a call of either program: the state after [fetch_add] has the
    buffer, and so the size, of the state before it. *)
Ltac open_record :=
  unfold record_mq, record_gcd, fetch_add_seen, counted;
  cbn [fst snd capacity seen samplesNs];
  repeat match goal with
         | |- context [size (mkRecorder (samplesNs ?r) (capacity ?r) ?s)] =>
             change (size (mkRecorder (samplesNs r) (capacity r) s)) with (size r)
         end.

(** ** Lists, 64-bit arithmetic and runs *)

Lemma wrap64_small (x : Z) : is_u64 x -> wrap64 x = x.
Proof. unfold is_u64, wrap64. intros H. now apply Z.mod_small. Qed.

Lemma wrap64_is_u64 (x : Z) : is_u64 (wrap64 x).
Proof.
  unfold is_u64, wrap64. apply Z.mod_pos_bound. unfold U64_MOD. lia.
Qed.

Lemma U64_MOD_pos : 0 < U64_MOD.
Proof. unfold U64_MOD. lia. Qed.

Lemma length_set_at {A : Type} (n : nat) (x : A) (l : list A) :
  length (set_at n x l) = length l.
Proof.
  revert n. induction l as [|h t IH]; intros [|n]; simpl; auto.
Qed.

Lemma nth_error_set_at {A : Type} (n p : nat) (x : A) (l : list A) :
  (n < length l)%nat ->
  nth_error (set_at n x l) p = if Nat.eqb p n then Some x else nth_error l p.
Proof.
  revert n p. induction l as [|h t IH]; intros n p Hn; simpl in Hn; [lia|].
  destruct n as [|n]; destruct p as [|p]; simpl; auto.
  apply IH. lia.
Qed.

Lemma set_at_outside {A : Type} (n : nat) (x : A) (l : list A) :
  (length l <= n)%nat -> set_at n x l = l.
Proof.
  revert n. induction l as [|h t IH]; intros [|n] Hn; simpl in *; auto; try lia.
  f_equal. apply IH. lia.
Qed.

Lemma run_bind {A B : Type} (m : Rand A) (f : A -> Rand B) (draws : list Z) :
  run (bind m f) draws =
  match run m draws with
  | Some (a, rest) => run (f a) rest
  | None => None
  end.
Proof.
  revert draws. induction m as [a | lo hi k IH]; intros draws; simpl; auto.
  destruct draws as [|pos rest]; auto.
  destruct ((lo <=? pos) && (pos <=? hi)); auto.
Qed.

(** ** The recorder, one call at a time *)

Lemma size_push_back (r : LatencyRecorder) (v : Z) : size (push_back r v) = size r + 1.
Proof. unfold size, push_back. simpl. rewrite length_app. simpl. lia. Qed.

Lemma size_store_at (r : LatencyRecorder) (pos v : Z) : size (store_at r pos v) = size r.
Proof. unfold size, store_at. simpl. now rewrite length_set_at. Qed.

Lemma size_nonneg (r : LatencyRecorder) : 0 <= size r.
Proof. unfold size. lia. Qed.

(** Every run of one call, in either program: the capacity stays, [seen]
    is incremented, the buffer grows by the value when it is not full and
    keeps its length when it is. *)
Lemma record_step (record : LatencyRecorder -> Z -> Rand LatencyRecorder)
    (r : LatencyRecorder) (v : Z) (draws : list Z) (r' : LatencyRecorder)
    (rest : list Z) :
  is_record record ->
  run (record r v) draws = Some (r', rest) ->
  capacity r' = capacity r /\
  seen r' = wrap64 (seen r + 1) /\
  ((capacity r = 0 /\ samplesNs r' = samplesNs r)
   \/ (capacity r <> 0 /\ seen r < capacity r /\ size r < capacity r /\
       samplesNs r' = samplesNs r ++ [v] /\ rest = draws)
   \/ (capacity r <> 0 /\ (capacity r <= seen r \/ capacity r <= size r) /\
       length (samplesNs r') = length (samplesNs r))).
Proof.
  intros []; unfold record_mq, record_gcd, fetch_add_seen; simpl;
    change (size (mkRecorder (samplesNs r) (capacity r) (wrap64 (seen r + 1))))
      with (size r);
    destruct (Z.eqb_spec (capacity r) 0) as [E0|E0];
    destruct (Z.ltb_spec (seen r) (capacity r)) as [Ei|Ei];
    destruct (Z.ltb_spec (size r) (capacity r)) as [Es|Es]; simpl;
    try (intros H; injection H as <- <-; simpl; intuition lia);
    try (destruct draws as [|pos ds]; [discriminate|];
         destruct ((0 <=? pos) && (pos <=? seen r)); [|discriminate];
         repeat match goal with
                | |- context [if ?b then _ else _] => destruct b
                end; simpl;
         intros H; injection H as <- <-; simpl;
         rewrite ?length_set_at; intuition lia).
Qed.

Lemma recorder_inv_new (cap : Z) : is_u64 cap -> recorder_inv (LatencyRecorder_new cap).
Proof.
  intros Hc. unfold recorder_inv, LatencyRecorder_new, size, is_u64 in *; simpl.
  pose proof U64_MOD_pos. repeat split; try lia.
Qed.

Lemma recorder_inv_step (record : LatencyRecorder -> Z -> Rand LatencyRecorder)
    (r : LatencyRecorder) (v : Z) (draws : list Z) (r' : LatencyRecorder)
    (rest : list Z) :
  is_record record ->
  recorder_inv r ->
  run (record r v) draws = Some (r', rest) ->
  recorder_inv r'.
Proof.
  intros Hrec (Hc & Hs & Hfill) Hrun.
  destruct (record_step record r v draws r' rest Hrec Hrun) as (Hcap & Hseen & Hbuf).
  unfold recorder_inv. rewrite Hcap, Hseen.
  split; [assumption|]. split; [apply wrap64_is_u64|].
  unfold size in *. unfold is_u64 in *.
  destruct Hbuf as [(E0 & Eb) | [(N0 & Hi & Hsz & Eb & _) | (N0 & Hfull & El)]].
  - left. rewrite Eb. lia.
  - rewrite Eb, length_app. simpl.
    assert (Hw : wrap64 (seen r + 1) = seen r + 1)
      by (apply wrap64_small; unfold is_u64; lia).
    rewrite Hw. lia.
  - left. rewrite El. lia.
Qed.

Lemma recorder_inv_all (record : LatencyRecorder -> Z -> Rand LatencyRecorder)
    (values : list Z) :
  is_record record ->
  forall r draws r' rest,
    recorder_inv r ->
    run (record_all record r values) draws = Some (r', rest) ->
    recorder_inv r' /\ capacity r' = capacity r.
Proof.
  intros Hrec. induction values as [|v vs IH]; intros r draws r' rest Hinv Hrun; simpl in Hrun.
  - injection Hrun as <- <-. auto.
  - rewrite run_bind in Hrun.
    destruct (run (record r v) draws) as [[r1 d1]|] eqn:E1; [|discriminate].
    pose proof (recorder_inv_step record r v draws r1 d1 Hrec Hinv E1) as Hinv1.
    destruct (record_step record r v draws r1 d1 Hrec E1) as (Hcap & _).
    destruct (IH r1 d1 r' rest Hinv1 Hrun) as (Hinv' & Hcap').
    split; [assumption | congruence].
Qed.

(** While the calls so far and the calls to come fit in the buffer, every
    value is appended and no draw is made. *)
Lemma record_all_fill (record : LatencyRecorder -> Z -> Rand LatencyRecorder)
    (values : list Z) :
  is_record record ->
  forall r draws,
    is_u64 (capacity r) ->
    size r = seen r ->
    seen r + Z.of_nat (length values) <= capacity r ->
    run (record_all record r values) draws =
    Some (mkRecorder (samplesNs r ++ values) (capacity r)
            (seen r + Z.of_nat (length values)), draws).
Proof.
  intros Hrec. induction values as [|v vs IH]; intros r draws Hc Hsz Hfit.
  - simpl. rewrite app_nil_r, Z.add_0_r. destruct r; reflexivity.
  - simpl record_all. rewrite run_bind.
    assert (Hlen : Z.of_nat (length (v :: vs)) = 1 + Z.of_nat (length vs))
      by (simpl length; lia).
    rewrite Hlen in *.
    assert (Hone : run (record r v) draws = Some (push_back (counted r) v, draws)).
    { pose proof (size_nonneg r) as Hnn.
      destruct Hrec; unfold record_mq, record_gcd, fetch_add_seen; simpl;
        change (size (mkRecorder (samplesNs r) (capacity r) (wrap64 (seen r + 1))))
          with (size r);
        destruct (Z.eqb_spec (capacity r) 0); try lia;
        destruct (Z.ltb_spec (seen r) (capacity r)); try lia;
        destruct (Z.ltb_spec (size r) (capacity r)); try lia; reflexivity. }
    rewrite Hone.
    assert (Hw : wrap64 (seen r + 1) = seen r + 1).
    { apply wrap64_small. pose proof (size_nonneg r).
      unfold is_u64 in *. lia. }
    rewrite IH.
    + unfold push_back, counted. cbn [samplesNs capacity seen].
      rewrite Hw, <- app_assoc. cbn [app]. do 3 f_equal. lia.
    + assumption.
    + rewrite size_push_back. unfold push_back, counted, size.
      cbn [samplesNs capacity seen]. unfold size in Hsz. lia.
    + unfold push_back, counted. cbn [samplesNs capacity seen]. lia.
Qed.

(** A sequence of calls always runs when every draw is 0, the one value
    that is in the range of every distribution of the recorder. *)
Lemma record_all_total (record : LatencyRecorder -> Z -> Rand LatencyRecorder)
    (values : list Z) :
  is_record record ->
  forall r n,
    0 <= seen r ->
    (length values <= n)%nat ->
    exists r' m, run (record_all record r values) (repeat 0 n) = Some (r', repeat 0 m)
                 /\ (n - length values <= m)%nat.
Proof.
  intros Hrec. induction values as [|v vs IH]; intros r n Hs Hn.
  - exists r, n. simpl. split; [reflexivity | lia].
  - simpl record_all. simpl length in Hn. rewrite run_bind.
    assert (Hone : exists r1 m1, run (record r v) (repeat 0 n) = Some (r1, repeat 0 m1)
                                 /\ (n - 1 <= m1)%nat /\ 0 <= seen r1).
    { destruct n as [|n]; [lia|].
      assert (Hin : (0 <=? 0) && (0 <=? seen r) = true)
        by (apply andb_true_intro; split; apply Z.leb_le; lia).
      pose proof (wrap64_is_u64 (seen r + 1)) as [Hw _].
      destruct Hrec; unfold record_mq, record_gcd, fetch_add_seen;
        cbn [fst snd capacity seen samplesNs];
        destruct (capacity r =? 0); [| destruct (seen r <? capacity r);
          [ destruct (_ <? capacity r) |] | | destruct (seen r <? capacity r);
          [ destruct (_ <? capacity r) |] ];
        cbn [run repeat]; rewrite ?Hin;
        repeat match goal with
               | |- context [if ?b then _ else _] => destruct b
               end;
        cbn [run];
        first [ eexists _, (S n); split; [reflexivity | split; [lia | assumption]]
              | eexists _, n; split; [reflexivity | split; [lia | assumption]] ]. }
    destruct Hone as (r1 & m1 & -> & Hm1 & Hs1).
    destruct (IH r1 m1 Hs1 ltac:(lia)) as (r' & m & Hrun & Hm).
    exists r', m. split; [assumption | simpl length; lia].
Qed.

(** ** C7: a recorder of capacity 0 *)

Lemma record_all_capacity_zero (record : LatencyRecorder -> Z -> Rand LatencyRecorder)
    (values : list Z) :
  is_record record ->
  forall r draws,
    capacity r = 0 ->
    exists n, run (record_all record r values) draws
              = Some (mkRecorder (samplesNs r) 0 n, draws).
Proof.
  intros Hrec. induction values as [|v vs IH]; intros r draws Hc.
  - exists (seen r). simpl. destruct r; simpl in *; subst; reflexivity.
  - simpl record_all. rewrite run_bind.
    assert (Hone : run (record r v) draws = Some (counted r, draws)).
    { destruct Hrec; unfold record_mq, record_gcd, fetch_add_seen, counted;
        cbn [fst snd capacity seen samplesNs]; rewrite Hc; reflexivity. }
    rewrite Hone. destruct (IH (counted r) draws Hc) as (n & Hn).
    exists n. exact Hn.
Qed.

(** C7, as the specification states it, fails: the call on a recorder of
    capacity 0 increments [seen] before it looks at the capacity, so the
    state after the call is not the state before it. *)
Lemma record_capacity_zero_changes_seen :
  record_mq (LatencyRecorder_new 0) 42 = Ret (mkRecorder [] 0 1) /\
  record_gcd (LatencyRecorder_new 0) 42 = Ret (mkRecorder [] 0 1) /\
  mkRecorder [] 0 1 <> LatencyRecorder_new 0.
Proof.
  repeat split; try reflexivity. unfold LatencyRecorder_new. intros H. discriminate H.
Qed.

(** C7 (amended): on a recorder of capacity 0, [record] leaves the buffer
    and the capacity as they are and only increments [seen]; after any
    sequence of calls on a new recorder of capacity 0 the buffer is empty
    and the percentile result of the run is empty, in both programs and
    whatever the arithmetic of [double]. *)
Theorem record_capacity_zero_keeps_buffer :
  forall (samples : list Z) (seen0 valueNs : Z) (values draws : list Z) (A : Arith),
    record_mq (mkRecorder samples 0 seen0) valueNs
      = Ret (mkRecorder samples 0 (wrap64 (seen0 + 1))) /\
    record_gcd (mkRecorder samples 0 seen0) valueNs
      = Ret (mkRecorder samples 0 (wrap64 (seen0 + 1))) /\
    (exists n, run (record_all record_mq (LatencyRecorder_new 0) values) draws
               = Some (mkRecorder [] 0 n, draws)) /\
    (exists n, run (record_all record_gcd (LatencyRecorder_new 0) values) draws
               = Some (mkRecorder [] 0 n, draws)) /\
    (forall n, final_percentiles A (mkRecorder [] 0 n) = []).
Proof.
  intros samples seen0 valueNs values draws A.
  split; [reflexivity|]. split; [reflexivity|].
  split; [| split].
  - apply (record_all_capacity_zero record_mq values is_record_mq
             (LatencyRecorder_new 0) draws eq_refl).
  - apply (record_all_capacity_zero record_gcd values is_record_gcd
             (LatencyRecorder_new 0) draws eq_refl).
  - intros n. reflexivity.
Qed.

(** ** C3: the invariant of the buffer *)

(** C3: sequences of calls on a new recorder, in either program.  After
    every sequence, whatever the draws, the buffer is no longer than the
    capacity, and it has exactly the capacity as its length when
    [seen >= capacity].  A sequence of at most [capacity] calls returns
    for every list of draws, uses none of them and leaves exactly the
    values of the calls in the buffer, in order.  And every sequence of
    calls returns when each of its draws is 0, the value that every
    distribution of the recorder can give. *)
Theorem buffer_never_exceeds_capacity :
  forall (record : LatencyRecorder -> Z -> Rand LatencyRecorder)
         (cap : Z) (values : list Z),
    is_record record ->
    is_u64 cap ->
    (forall (draws : list Z) (r : LatencyRecorder) (rest : list Z),
       run (record_all record (LatencyRecorder_new cap) values) draws = Some (r, rest) ->
       capacity r = cap /\
       size r <= capacity r /\
       (capacity r <= seen r -> size r = capacity r)) /\
    (Z.of_nat (length values) <= cap ->
     forall draws : list Z,
       run (record_all record (LatencyRecorder_new cap) values) draws
       = Some (mkRecorder values cap (Z.of_nat (length values)), draws)) /\
    (forall n : nat,
       (length values <= n)%nat ->
       exists r m,
         run (record_all record (LatencyRecorder_new cap) values) (repeat 0 n)
         = Some (r, repeat 0 m) /\
         capacity r = cap /\ size r <= cap).
Proof.
  intros record cap values Hrec Hcap.
  assert (Hinv : forall draws r rest,
            run (record_all record (LatencyRecorder_new cap) values) draws = Some (r, rest) ->
            capacity r = cap /\ size r <= capacity r /\
            (capacity r <= seen r -> size r = capacity r)).
  { intros draws r rest Hrun.
    destruct (recorder_inv_all record values Hrec _ _ _ _ (recorder_inv_new cap Hcap) Hrun)
      as ((Hc & Hs & Hfill) & Hsame).
    simpl in Hsame. split; [assumption|]. split.
    - destruct Hfill as [-> | (-> & Hlt)]; lia.
    - intros Hge. destruct Hfill as [E | (E & Hlt)]; [assumption | lia]. }
  split; [exact Hinv|]. split.
  - intros Hfit draws.
    rewrite (record_all_fill record values Hrec (LatencyRecorder_new cap) draws).
    + reflexivity.
    + exact Hcap.
    + reflexivity.
    + simpl. lia.
  - intros n Hn.
    destruct (record_all_total record values Hrec (LatencyRecorder_new cap) n)
      as (r & m & Hrun & _); [simpl; lia | exact Hn |].
    exists r, m. split; [exact Hrun|].
    destruct (Hinv _ _ _ Hrun) as (Hc & Hsz & _). split; [exact Hc | lia].
Qed.

Lemma buffer_never_exceeds_capacity_witness :
  (run (record_all record_gcd (LatencyRecorder_new 2) [5; 6; 9]) [0]
   = Some (mkRecorder [9; 6] 2 3, []) /\
   size (mkRecorder [9; 6] 2 3) = capacity (mkRecorder [9; 6] 2 3)) /\
  run (record_all record_mq (LatencyRecorder_new 2) [5; 6]) [4; 4]
  = Some (mkRecorder [5; 6] 2 2, [4; 4]) /\
  exists r m,
    run (record_all record_gcd (LatencyRecorder_new 2) [5; 6; 9; 7]) (repeat 0 4)
    = Some (r, repeat 0 m) /\ capacity r = 2 /\ size r <= 2.
Proof.
  assert (H2 : is_u64 2) by (unfold is_u64, U64_MOD; lia).
  assert (Hrun : run (record_all record_gcd (LatencyRecorder_new 2) [5; 6; 9]) [0]
                 = Some (mkRecorder [9; 6] 2 3, [])) by reflexivity.
  split; [| split].
  - split; [exact Hrun|].
    destruct (buffer_never_exceeds_capacity record_gcd 2 [5; 6; 9] is_record_gcd H2)
      as (Hinv & _).
    destruct (Hinv [0] _ [] Hrun) as (_ & _ & Hfull).
    apply Hfull. simpl. lia.
  - destruct (buffer_never_exceeds_capacity record_mq 2 [5; 6] is_record_mq H2)
      as (_ & Hfit & _).
    apply (Hfit ltac:(simpl; lia) [4; 4]).
  - destruct (buffer_never_exceeds_capacity record_gcd 2 [5; 6; 9; 7] is_record_gcd H2)
      as (_ & _ & Htotal).
    apply (Htotal 4%nat). simpl. lia.
Defined.

(** ** C1: what one call does *)

Lemma nth_error_store_at (r : LatencyRecorder) (pos v : Z) (p : nat) :
  0 <= pos < size r ->
  nth_error (samplesNs (store_at r pos v)) p
  = if Nat.eqb p (Z.to_nat pos) then Some v else nth_error (samplesNs r) p.
Proof.
  intros Hpos. unfold store_at. cbn [samplesNs].
  apply nth_error_set_at. unfold size in Hpos. lia.
Qed.

(** C1, as the specification states it, fails in the states that
    overlapping calls go through.  On a new recorder of capacity 1 a
    first call has taken index 0 with [fetch_add] and has not yet taken
    the lock; a second call takes index 1, draws 0, which is below the
    capacity, and leaves the buffer as it is, because position 0 is not
    yet in the buffer: the code tests [pos < samplesNs.size()] as well. *)
Lemma record_draw_below_capacity_not_stored :
  let r := mkRecorder [] 1 1 in
  fetch_add_seen (LatencyRecorder_new 1) = (0, r) /\
  0 < capacity r /\ capacity r <= seen r /\ 0 < capacity r /\
  run (record_mq r 7) [0] = Some (mkRecorder [] 1 2, []) /\
  run (record_gcd r 7) [0] = Some (mkRecorder [] 1 2, []) /\
  holds 7 (mkRecorder [] 1 2) = false.
Proof. cbv zeta. repeat split; reflexivity. Qed.

(** C1 (amended): a call on a recorder of capacity > 0, in any state,
    takes the pre-increment value [i] of [seen].  If [i < capacity] and
    the buffer is shorter than the capacity, the call returns without a
    draw and the value is the new last element of the buffer; if the
    buffer is not shorter, no run of the call makes it longer.  If
    [i >= capacity], the call draws [pos] uniformly in [[0, i]] and
    position [pos] of the buffer, and no other, is overwritten exactly
    when [pos < capacity] and [pos] is a position of the buffer;
    otherwise the buffer is unchanged.  In the states that calls which do
    not overlap go through, the buffer is full when [i >= capacity], and
    the condition is [pos < capacity]. *)
Theorem record_reservoir_step :
  forall (record : LatencyRecorder -> Z -> Rand LatencyRecorder)
         (r : LatencyRecorder) (valueNs : Z),
    is_record record ->
    0 < capacity r ->
    let i := seen r in
    (i < capacity r -> size r < capacity r ->
       forall draws : list Z,
         run (record r valueNs) draws
         = Some (mkRecorder (samplesNs r ++ [valueNs]) (capacity r) (wrap64 (i + 1)),
                 draws)) /\
    (i < capacity r -> capacity r <= size r ->
       forall draws r' rest,
         run (record r valueNs) draws = Some (r', rest) ->
         length (samplesNs r') = length (samplesNs r) /\
         capacity r' = capacity r /\ seen r' = wrap64 (i + 1)) /\
    (capacity r <= i ->
       (exists k, record r valueNs = Draw 0 i k) /\
       (forall pos rest, 0 <= pos <= i ->
          run (record r valueNs) (pos :: rest)
          = Some (mkRecorder
                    (if (pos <? capacity r) && (pos <? size r)
                     then set_at (Z.to_nat pos) valueNs (samplesNs r)
                     else samplesNs r)
                    (capacity r) (wrap64 (i + 1)), rest)) /\
       (forall pos rest, pos < 0 \/ i < pos ->
          run (record r valueNs) (pos :: rest) = None)) /\
    (forall pos p, 0 <= pos < size r ->
       nth_error (set_at (Z.to_nat pos) valueNs (samplesNs r)) p
       = if Nat.eqb p (Z.to_nat pos) then Some valueNs else nth_error (samplesNs r) p) /\
    (recorder_inv r -> capacity r <= i ->
       size r = capacity r /\
       forall pos, (pos <? capacity r) && (pos <? size r) = (pos <? capacity r)).
Proof.
  intros record r valueNs Hrec Hpos i. subst i.
  split; [| split; [| split; [| split]]].
  - intros Hi Hsz draws.
    destruct Hrec; open_record;
      destruct (Z.eqb_spec (capacity r) 0); try lia;
      destruct (Z.ltb_spec (seen r) (capacity r)); try lia;
      destruct (Z.ltb_spec (size r) (capacity r)); try lia; reflexivity.
  - intros Hi Hsz draws r' rest Hrun.
    destruct (record_step record r valueNs draws r' rest Hrec Hrun) as (Hc & Hs & Hbuf).
    split; [| split; assumption].
    destruct Hbuf as [(E0 & _) | [(_ & _ & Hlt & _) | (_ & _ & El)]];
      [lia | lia | exact El].
  - intros Hi.
    assert (Hshape : record r valueNs
              = Draw 0 (seen r) (fun pos =>
                  if pos <? capacity r then
                    if pos <? size r then Ret (store_at (counted r) pos valueNs)
                    else Ret (counted r)
                  else Ret (counted r))).
    { destruct Hrec; open_record;
        destruct (Z.eqb_spec (capacity r) 0); try lia;
        destruct (Z.ltb_spec (seen r) (capacity r)); try lia; reflexivity. }
    split; [eexists; exact Hshape|]. rewrite Hshape. split.
    + intros pos rest Hp. cbn [run].
      assert (Hin : (0 <=? pos) && (pos <=? seen r) = true)
        by (apply andb_true_intro; split; apply Z.leb_le; lia).
      rewrite Hin.
      destruct (pos <? capacity r); [destruct (pos <? size r)|]; reflexivity.
    + intros pos rest Hp. cbn [run].
      assert (Hout : (0 <=? pos) && (pos <=? seen r) = false).
      { apply andb_false_iff. destruct Hp; [left; apply Z.leb_gt | right; apply Z.leb_gt]; lia. }
      rewrite Hout. reflexivity.
  - intros pos p Hp. apply nth_error_set_at. unfold size in Hp. lia.
  - intros (Hc & Hs & Hfill) Hi.
    assert (Hfull : size r = capacity r) by (destruct Hfill as [E | (E & Hlt)]; lia).
    split; [exact Hfull|]. intros pos. rewrite Hfull.
    destruct (pos <? capacity r); reflexivity.
Qed.

Lemma record_reservoir_step_witness :
  let r := mkRecorder [5; 6] 2 7 in
  0 < capacity r /\ capacity r <= seen r /\ recorder_inv r /\
  run (record_gcd r 9) [1; 3] = Some (mkRecorder [5; 9] 2 8, [3]) /\
  run (record_gcd r 9) [4; 3] = Some (mkRecorder [5; 6] 2 8, [3]) /\
  run (record_gcd (mkRecorder [5] 2 1) 9) [3]
  = Some (mkRecorder [5; 9] 2 2, [3]).
Proof.
  intros r.
  assert (Hinv : recorder_inv r).
  { unfold recorder_inv, is_u64, U64_MOD, size. simpl. lia. }
  assert (Hcap : 0 < capacity r) by (simpl; lia).
  assert (Hge : capacity r <= seen r) by (simpl; lia).
  split; [exact Hcap|]. split; [exact Hge|]. split; [exact Hinv|].
  destruct (record_reservoir_step record_gcd r 9 is_record_gcd Hcap)
    as (_ & _ & Hdraw & _ & _).
  destruct (Hdraw Hge) as (_ & Hin & _).
  split; [exact (Hin 1 [3] ltac:(simpl; lia))|].
  split; [exact (Hin 4 [3] ltac:(simpl; lia))|].
  destruct (record_reservoir_step record_gcd (mkRecorder [5] 2 1) 9 is_record_gcd
              ltac:(simpl; lia)) as (Happ & _).
  exact (Happ ltac:(simpl; lia) ltac:(unfold size; simpl; lia) [3]).
Defined.

(** ** C10: the two programs agree *)

(** In such a state the extra branch of [mq_benchmark.cpp] is not taken:
    the two programs are the same program. *)
Lemma record_mq_gcd_same (r : LatencyRecorder) (v : Z) :
  in_step r -> record_mq r v = record_gcd r v.
Proof.
  intros (Hs & Hsz).
  open_record.
  destruct (Z.eqb_spec (capacity r) 0); [reflexivity|].
  destruct (Z.ltb_spec (seen r) (capacity r)); [|reflexivity].
  destruct (Z.ltb_spec (size r) (capacity r)); [reflexivity | lia].
Qed.

Lemma in_step_step (r : LatencyRecorder) (v : Z) (draws : list Z)
    (r' : LatencyRecorder) (rest : list Z) :
  in_step r ->
  seen r + 1 < U64_MOD ->
  run (record_gcd r v) draws = Some (r', rest) ->
  in_step r' /\ seen r' = seen r + 1 /\ capacity r' = capacity r.
Proof.
  intros (Hs & Hsz) Hw Hrun.
  destruct (record_step record_gcd r v draws r' rest is_record_gcd Hrun)
    as (Hcap & Hseen & Hbuf).
  rewrite wrap64_small in Hseen by (unfold is_u64; lia).
  split; [| split; assumption].
  unfold in_step. rewrite Hcap, Hseen. split; [lia|].
  unfold size in *.
  destruct Hbuf as [(E0 & Eb) | [(N0 & Hi & Hlt & Eb & _) | (N0 & Hfull & El)]].
  - rewrite Eb. lia.
  - rewrite Eb, length_app. simpl. lia.
  - rewrite El. lia.
Qed.

Lemma record_all_mq_gcd (values : list Z) :
  forall r draws,
    in_step r ->
    seen r + Z.of_nat (length values) <= U64_MOD ->
    run (record_all record_mq r values) draws = run (record_all record_gcd r values) draws.
Proof.
  induction values as [|v vs IH]; intros r draws Hin Hlen; [reflexivity|].
  simpl record_all. rewrite !run_bind, (record_mq_gcd_same r v Hin).
  destruct (run (record_gcd r v) draws) as [[r1 d1]|] eqn:E1; [|reflexivity].
  destruct vs as [|w ws]; [reflexivity|].
  simpl length in Hlen.
  destruct (in_step_step r v draws r1 d1 Hin ltac:(lia) E1) as (Hin1 & Hs1 & _).
  apply IH; [assumption|]. simpl length. lia.
Qed.

(** C10: for every capacity, every sequence of at most 2^64 calls (so
    that the 64-bit counter [seen] does not wrap around before the last
    call) and every list of draws, the two programs end in the same state
    and use the same draws. *)
Theorem record_mq_gcd_equivalent :
  forall (cap : Z) (values draws : list Z),
    is_u64 cap ->
    Z.of_nat (length values) <= U64_MOD ->
    run (record_all record_mq (LatencyRecorder_new cap) values) draws
    = run (record_all record_gcd (LatencyRecorder_new cap) values) draws.
Proof.
  intros cap values draws Hcap Hlen.
  apply record_all_mq_gcd.
  - unfold in_step, LatencyRecorder_new, size, is_u64 in *. simpl. lia.
  - simpl. lia.
Qed.

Lemma record_mq_gcd_equivalent_witness :
  is_u64 2 /\ Z.of_nat (length [5; 6; 9; 4]) <= U64_MOD /\
  run (record_all record_mq (LatencyRecorder_new 2) [5; 6; 9; 4]) [2; 1]
  = run (record_all record_gcd (LatencyRecorder_new 2) [5; 6; 9; 4]) [2; 1] /\
  run (record_all record_gcd (LatencyRecorder_new 2) [5; 6; 9; 4]) [2; 1]
  = Some (mkRecorder [5; 4] 2 4, []).
Proof.
  assert (H1 : is_u64 2) by (unfold is_u64, U64_MOD; lia).
  assert (H2 : Z.of_nat (length [5; 6; 9; 4]) <= U64_MOD) by (unfold U64_MOD; simpl; lia).
  split; [exact H1|]. split; [exact H2|]. split.
  - exact (record_mq_gcd_equivalent 2 [5; 6; 9; 4] [2; 1] H1 H2).
  - reflexivity.
Defined.

(** ** Sums, ranges and expectations *)

Lemma Qsum_ext {A : Type} (f g : A -> Q) (l : list A) :
  (forall a, In a l -> f a == g a) -> Qsum (map f l) == Qsum (map g l).
Proof.
  induction l as [|a t IH]; intros H; simpl.
  - reflexivity.
  - rewrite (H a (or_introl eq_refl)), IH; [reflexivity|].
    intros b Hb. apply H. now right.
Qed.

(** A sum whose terms are [c] where [P] holds and 0 elsewhere. *)
Lemma Qsum_filter {A : Type} (P : A -> bool) (c : Q) (l : list A) :
  Qsum (map (fun a => if P a then c else 0%Q) l)
  == c * inject_Z (Z.of_nat (length (filter P l))).
Proof.
  induction l as [|a t IH]; simpl.
  - ring.
  - destruct (P a); rewrite IH; simpl length.
    + rewrite Nat2Z.inj_succ. unfold Z.succ. rewrite inject_Z_plus. ring.
    + ring.
Qed.

Lemma Qsum_cases {A : Type} (f : A -> Q) (P : A -> bool) (c : Q) (l : list A) :
  (forall a, In a l -> f a == if P a then c else 0%Q) ->
  Qsum (map f l) == c * inject_Z (Z.of_nat (length (filter P l))).
Proof.
  intros H. rewrite (Qsum_ext f (fun a => if P a then c else 0%Q) l H).
  apply Qsum_filter.
Qed.

Lemma filter_all {A : Type} (l : list A) : filter (fun _ : A => true) l = l.
Proof. induction l as [|a t IH]; simpl; [reflexivity | now rewrite IH]. Qed.

Lemma in_zrange_from (lo : Z) (n : nat) (x : Z) :
  In x (zrange_from lo n) <-> lo <= x < lo + Z.of_nat n.
Proof.
  revert lo. induction n as [|n IH]; intros lo; simpl zrange_from.
  - simpl. lia.
  - simpl In. rewrite IH. lia.
Qed.

Lemma in_zrange (lo hi x : Z) : In x (zrange lo hi) <-> lo <= x <= hi.
Proof. unfold zrange. rewrite in_zrange_from. lia. Qed.

Lemma length_zrange_from (lo : Z) (n : nat) : length (zrange_from lo n) = n.
Proof. revert lo. induction n as [|n IH]; intros lo; simpl; auto. Qed.

(** How many integers of a range are below [c]. *)
Lemma count_below (c : Z) (n : nat) (lo : Z) :
  Z.of_nat (length (filter (fun x => x <? c) (zrange_from lo n)))
  = Z.max 0 (Z.min (c - lo) (Z.of_nat n)).
Proof.
  revert lo. induction n as [|n IH]; intros lo; simpl zrange_from; simpl filter.
  - simpl. lia.
  - destruct (Z.ltb_spec lo c); simpl length; rewrite ?Nat2Z.inj_succ, IH; lia.
Qed.

(** How many integers of a range differ from [q]. *)
Lemma count_other (q : Z) (n : nat) (lo : Z) :
  Z.of_nat (length (filter (fun x => negb (x =? q)) (zrange_from lo n)))
  = if (lo <=? q) && (q <? lo + Z.of_nat n) then Z.of_nat n - 1 else Z.of_nat n.
Proof.
  revert lo. induction n as [|n IH]; intros lo; simpl zrange_from; simpl filter.
  - simpl. destruct ((lo <=? q) && (q <? lo + 0)) eqn:E; [|reflexivity].
    apply andb_prop in E. destruct E as [E1 E2].
    apply Z.leb_le in E1. apply Z.ltb_lt in E2. lia.
  - destruct (Z.eqb_spec lo q) as [->|Hne]; simpl negb; cbv iota; simpl length;
      rewrite ?Nat2Z.inj_succ, IH;
      repeat match goal with
             | |- context [?a <=? ?b] => destruct (Z.leb_spec a b)
             | |- context [?a <? ?b] => destruct (Z.ltb_spec a b)
             end; simpl andb; cbv iota; lia.
Qed.

Lemma expect_bind {A B : Type} (g : B -> Q) (m : Rand A) (f : A -> Rand B) :
  expect g (bind m f) == expect (fun a => expect g (f a)) m.
Proof.
  induction m as [a | lo hi k IH]; simpl.
  - reflexivity.
  - rewrite (Qsum_ext (fun pos => expect g (bind (k pos) f))
               (fun pos => expect (fun a => expect g (f a)) (k pos))).
    + reflexivity.
    + intros pos _. apply IH.
Qed.

(** ** Membership in the buffer *)

Lemma index_of_lt (x : Z) (l : list Z) : In x l -> (index_of x l < length l)%nat.
Proof.
  induction l as [|h t IH]; simpl; [intros []|].
  intros [-> | Hin].
  - rewrite Z.eqb_refl. lia.
  - destruct (h =? x); [lia|]. specialize (IH Hin). lia.
Qed.

Lemma in_set_at {A : Type} (p : nat) (v x : A) (l : list A) :
  In x (set_at p v l) -> x = v \/ In x l.
Proof.
  revert p. induction l as [|h t IH]; intros [|p]; simpl; try tauto.
  - intros [<- | H]; auto.
  - intros [<- | H]; auto. destruct (IH p H); auto.
Qed.

Lemma in_set_at_new {A : Type} (p : nat) (v : A) (l : list A) :
  (p < length l)%nat -> In v (set_at p v l).
Proof.
  revert p. induction l as [|h t IH]; intros p Hp; simpl in Hp; [lia|].
  destruct p as [|p]; simpl; auto. right. apply IH. lia.
Qed.

(** An old value survives the overwrite of any position but its own. *)
Lemma in_set_at_old (p : nat) (v x : Z) (l : list Z) :
  NoDup l -> In x l -> x <> v ->
  (In x (set_at p v l) <-> p <> index_of x l).
Proof.
  revert p. induction l as [|h t IH]; intros p Hnd Hin Hxv; [destruct Hin|].
  inversion Hnd as [|h' t' Hh Ht]; subst.
  simpl index_of. destruct (Z.eqb_spec h x) as [->|Hne].
  - destruct p as [|p]; simpl.
    + split; [|congruence]. intros [E | Hx]; [congruence | contradiction].
    + split; [lia | auto].
  - destruct Hin as [E | Hin]; [congruence|].
    destruct p as [|p]; simpl.
    + split; [lia | auto].
    + rewrite Nat.succ_inj_wd_neg, <- (IH p Ht Hin Hxv).
      split; [intros [E | H]; [congruence | exact H] | auto].
Qed.

Lemma NoDup_set_at (p : nat) (v : Z) (l : list Z) :
  NoDup l -> ~ In v l -> NoDup (set_at p v l).
Proof.
  revert p. induction l as [|h t IH]; intros p Hnd Hv;
    [destruct p; constructor|].
  inversion Hnd as [|h' t' Hh Ht]; subst.
  destruct p as [|p]; simpl.
  - constructor; [|assumption]. intros H. apply Hv. now right.
  - constructor.
    + intros H. apply in_set_at in H. destruct H as [-> | H]; [|contradiction].
      apply Hv. now left.
    + apply IH; [assumption|]. intros H. apply Hv. now right.
Qed.

Lemma holds_In (x : Z) (r : LatencyRecorder) : holds x r = true <-> In x (samplesNs r).
Proof.
  unfold holds. rewrite existsb_exists. split.
  - intros (y & Hy & E). apply Z.eqb_eq in E. now subst.
  - intros H. exists x. split; [assumption | apply Z.eqb_refl].
Qed.

Lemma holds_false (x : Z) (r : LatencyRecorder) : holds x r = false <-> ~ In x (samplesNs r).
Proof.
  rewrite <- holds_In. destruct (holds x r); split; congruence.
Qed.

(** ** C2: the sampling law *)

Lemma inject_Z_nonzero (z : Z) : z <> 0 -> ~ inject_Z z == 0.
Proof. intros Hz H. unfold Qeq in H. simpl in H. lia. Qed.

Lemma NoDup_app_disjoint {A : Type} (l l' : list A) (a : A) :
  NoDup (l ++ l') -> In a l -> ~ In a l'.
Proof.
  induction l as [|h t IH]; simpl; intros Hnd Hin; [destruct Hin|].
  inversion Hnd as [|h' t' Hh Ht]; subst.
  destruct Hin as [-> | Hin]; [|auto].
  intros H. apply Hh. apply in_or_app. now right.
Qed.

Lemma record_gcd_fill (r : LatencyRecorder) (v : Z) :
  0 < capacity r -> in_step r -> seen r < capacity r ->
  record_gcd r v = Ret (push_back (counted r) v).
Proof.
  intros Hcap (Hs & Hsz) Hlt.
  unfold record_gcd, fetch_add_seen, counted; cbn [fst snd capacity seen samplesNs].
  change (size (mkRecorder (samplesNs r) (capacity r) (wrap64 (seen r + 1))))
    with (size r).
  destruct (Z.eqb_spec (capacity r) 0); [lia|].
  destruct (Z.ltb_spec (seen r) (capacity r)); [|lia].
  destruct (Z.ltb_spec (size r) (capacity r)); [reflexivity | lia].
Qed.

Lemma prob_record_gcd_draw (P : LatencyRecorder -> bool) (r : LatencyRecorder)
    (v : Z) (vs : list Z) :
  0 < capacity r -> capacity r <= seen r -> size r = capacity r ->
  prob P (record_all record_gcd r (v :: vs))
  == Qsum (map (fun pos => prob P (record_all record_gcd (after_draw r v pos) vs))
             (zrange 0 (seen r)))
     / inject_Z (seen r + 1).
Proof.
  intros Hcap Hge Hfull. unfold prob. simpl record_all.
  unfold record_gcd, fetch_add_seen; cbn [fst snd capacity seen samplesNs].
  change (size (mkRecorder (samplesNs r) (capacity r) (wrap64 (seen r + 1))))
    with (size r).
  destruct (Z.eqb_spec (capacity r) 0); [lia|].
  destruct (Z.ltb_spec (seen r) (capacity r)); [lia|].
  cbn [bind expect]. rewrite Z.sub_0_r.
  rewrite (map_ext
             (fun pos => expect (indicator P)
                (bind (if pos <? capacity r
                       then if pos <? size r
                            then Ret (store_at (mkRecorder (samplesNs r) (capacity r)
                                                  (wrap64 (seen r + 1))) pos v)
                            else Ret (mkRecorder (samplesNs r) (capacity r)
                                        (wrap64 (seen r + 1)))
                       else Ret (mkRecorder (samplesNs r) (capacity r)
                                   (wrap64 (seen r + 1))))
                   (fun r' => record_all record_gcd r' vs)))
             (fun pos => expect (indicator P)
                (record_all record_gcd (after_draw r v pos) vs))).
  - reflexivity.
  - intros pos. unfold after_draw, counted. rewrite Hfull.
    destruct (pos <? capacity r); reflexivity.
Qed.

(** The state after a draw is again a state of the run, with the same
    capacity, one more call seen and a buffer without repetitions. *)
Lemma after_draw_state (r : LatencyRecorder) (v pos : Z) (vs : list Z) :
  in_step r -> capacity r <= seen r -> seen r + 1 < U64_MOD ->
  0 <= pos ->
  NoDup (samplesNs r ++ v :: vs) ->
  let r' := after_draw r v pos in
  capacity r' = capacity r /\ seen r' = seen r + 1 /\ in_step r' /\
  NoDup (samplesNs r' ++ vs) /\
  samplesNs r' = (if pos <? capacity r
                  then set_at (Z.to_nat pos) v (samplesNs r)
                  else samplesNs r).
Proof.
  intros (Hs & Hsz) Hge Hw Hpos Hnd r'. subst r'.
  assert (Hseen : wrap64 (seen r + 1) = seen r + 1)
    by (apply wrap64_small; unfold is_u64; lia).
  pose proof (NoDup_remove _ _ _ Hnd) as (Hnd' & Hv).
  unfold after_draw, in_step, size in *.
  destruct (pos <? capacity r); unfold store_at, counted; cbn [samplesNs capacity seen];
    rewrite ?length_set_at, Hseen; repeat split; try lia; try assumption.
  apply NoDup_app.
  - apply NoDup_set_at; [apply (NoDup_app_remove_r _ _ Hnd')|].
    intros H. apply Hv. apply in_or_app. now left.
  - apply (NoDup_app_remove_l _ _ Hnd').
  - intros a Ha Hin. apply in_set_at in Ha. destruct Ha as [-> | Ha].
    + apply Hv. apply in_or_app. now right.
    + apply (NoDup_app_disjoint _ _ a Hnd' Ha Hin).
Qed.

Lemma law_fill (cap n total : Z) :
  0 <= n -> n + 1 <= cap ->
  law cap (n + 1) total = law cap n total /\ law cap (n + 1) total = law cap 0 total.
Proof.
  intros H0 H. unfold law. destruct (total <=? cap); [split; reflexivity|].
  rewrite !Z.max_r by lia. split; reflexivity.
Qed.

(** The law, from any state of a run: a value that is neither in the
    buffer nor among the calls to come is never in the final buffer; a
    value in the buffer survives the calls to come with probability
    [law cap seen total]; a value among the calls to come is in the final
    buffer with probability [law cap 0 total]. *)
Lemma reservoir_from (vs : list Z) :
  forall (r : LatencyRecorder) (x total : Z),
    0 < capacity r ->
    in_step r ->
    total = seen r + Z.of_nat (length vs) ->
    total < U64_MOD ->
    NoDup (samplesNs r ++ vs) ->
    (~ In x (samplesNs r ++ vs) ->
       prob (holds x) (record_all record_gcd r vs) == 0) /\
    (In x (samplesNs r) ->
       prob (holds x) (record_all record_gcd r vs) == law (capacity r) (seen r) total) /\
    (In x vs ->
       prob (holds x) (record_all record_gcd r vs) == law (capacity r) 0 total).
Proof.
  induction vs as [|v vs IH]; intros r x total Hcap Hin HT Hlen Hnd.
  - (* no call left *)
    simpl length in HT. rewrite Z.add_0_r in HT. subst total.
    unfold prob. simpl. unfold indicator. split; [| split].
    + rewrite app_nil_r. intros Hx. apply holds_false in Hx. rewrite Hx. reflexivity.
    + intros Hx. apply holds_In in Hx. rewrite Hx. unfold law.
      destruct (Z.leb_spec (seen r) (capacity r)); [reflexivity|].
      rewrite Z.max_l by lia. field. apply inject_Z_nonzero. lia.
    + intros [].
  - assert (HL : Z.of_nat (length (v :: vs)) = Z.of_nat (length vs) + 1)
      by (simpl length; lia).
    rewrite HL in HT. clear HL.
    destruct Hin as (Hs & Hsz).
    pose proof (NoDup_remove _ _ _ Hnd) as (Hnd' & Hv).
    destruct (Z.ltb_spec (seen r) (capacity r)) as [Hlt | Hge].
    + (* the buffer is filling: the value is appended *)
      simpl record_all.
      rewrite (record_gcd_fill r v Hcap (conj Hs Hsz) Hlt). cbn [bind].
      assert (Hseen : wrap64 (seen r + 1) = seen r + 1)
        by (apply wrap64_small; unfold is_u64; lia).
      remember (push_back (counted r) v) as r1 eqn:Er1.
      assert (Hsam1 : samplesNs r1 = samplesNs r ++ [v]) by (subst r1; reflexivity).
      assert (Hcap1 : capacity r1 = capacity r) by (subst r1; reflexivity).
      assert (Hseen1 : seen r1 = seen r + 1) by (subst r1; exact Hseen).
      assert (Hin1 : in_step r1).
      { unfold in_step, size in *. rewrite Hsam1, Hcap1, Hseen1, length_app.
        simpl length. lia. }
      assert (Hnd1 : NoDup (samplesNs r1 ++ vs)).
      { rewrite Hsam1, <- app_assoc. exact Hnd. }
      destruct (IH r1 x total) as (IHa & IHb & IHc);
        [ lia | assumption | lia | assumption | assumption |].
      rewrite Hsam1 in IHa, IHb. rewrite Hcap1, Hseen1 in IHb. rewrite Hcap1 in IHc.
      destruct (law_fill (capacity r) (seen r) total Hs ltac:(lia)) as (E1 & E2).
      split; [| split].
      * intros Hx. apply IHa. rewrite <- app_assoc. exact Hx.
      * intros Hx. rewrite <- E1. apply IHb. apply in_or_app. now left.
      * intros [<- | Hx].
        -- rewrite <- E2. apply IHb. apply in_or_app. right. now left.
        -- apply IHc. exact Hx.
    + (* the buffer is full: the call draws a position *)
      assert (Hfull : size r = capacity r) by lia.
      assert (Hbig : capacity r < total) by lia.
      assert (HlawT : forall n, law (capacity r) n total
                                = (inject_Z (Z.max n (capacity r)) / inject_Z total)%Q).
      { intros n. unfold law. destruct (Z.leb_spec total (capacity r)); [lia | reflexivity]. }
      assert (Hstate : forall pos, In pos (zrange 0 (seen r)) ->
                let r' := after_draw r v pos in
                capacity r' = capacity r /\ seen r' = seen r + 1 /\ in_step r' /\
                NoDup (samplesNs r' ++ vs) /\
                samplesNs r' = (if pos <? capacity r
                                then set_at (Z.to_nat pos) v (samplesNs r)
                                else samplesNs r)).
      { intros pos Hpos. apply in_zrange in Hpos.
        apply after_draw_state; try assumption; try lia. split; assumption. }
      assert (HIH : forall pos, In pos (zrange 0 (seen r)) ->
                let r' := after_draw r v pos in
                (~ In x (samplesNs r' ++ vs) ->
                   prob (holds x) (record_all record_gcd r' vs) == 0) /\
                (In x (samplesNs r') ->
                   prob (holds x) (record_all record_gcd r' vs)
                   == inject_Z (seen r + 1) / inject_Z total) /\
                (In x vs ->
                   prob (holds x) (record_all record_gcd r' vs)
                   == inject_Z (capacity r) / inject_Z total)).
      { intros pos Hpos. destruct (Hstate pos Hpos) as (Hc' & Hs' & Hin' & Hnd1 & _).
        cbv zeta.
        destruct (IH (after_draw r v pos) x total) as (IHa & IHb & IHc);
          try assumption; try lia.
        rewrite Hc', Hs', !HlawT in *.
        rewrite Z.max_l in IHb by lia. rewrite Z.max_r in IHc by lia.
        repeat split; assumption. }
      assert (Hdiv : ~ inject_Z (seen r + 1) == 0) by (apply inject_Z_nonzero; lia).
      assert (HdivT : ~ inject_Z total == 0) by (apply inject_Z_nonzero; lia).
      assert (Hlen0 : Z.of_nat (Z.to_nat (seen r - 0 + 1)) = seen r + 1) by lia.
      rewrite (prob_record_gcd_draw (holds x) r v vs Hcap Hge Hfull).
      split; [| split].
      * (* a value that is nowhere *)
        intros Hx.
        rewrite (Qsum_cases _ (fun _ : Z => true) 0%Q).
        -- field. exact Hdiv.
        -- intros pos Hpos. cbv beta iota.
           destruct (Hstate pos Hpos) as (_ & _ & _ & _ & Hsam).
           apply (HIH pos Hpos). rewrite Hsam. intros Hmem. apply Hx.
           apply in_app_or in Hmem. apply in_or_app. destruct Hmem as [Hmem | Hmem].
           ++ destruct (pos <? capacity r).
              ** apply in_set_at in Hmem.
                 destruct Hmem as [-> | Hmem]; [right; now left | now left].
              ** now left.
           ++ right. now right.
      * (* a value of the buffer: it goes when its position is drawn *)
        intros Hx.
        assert (Hxv : x <> v).
        { intros ->. apply Hv. apply in_or_app. now left. }
        assert (Hxvs : ~ In x vs) by (apply (NoDup_app_disjoint _ _ x Hnd' Hx)).
        pose proof (index_of_lt x (samplesNs r) Hx) as Hidx.
        rewrite (Qsum_cases _
                   (fun p => negb (p =? Z.of_nat (index_of x (samplesNs r))))
                   (inject_Z (seen r + 1) / inject_Z total)%Q).
        -- unfold zrange. rewrite count_other, Hlen0.
           unfold size in Hfull.
           replace ((0 <=? Z.of_nat (index_of x (samplesNs r)))
                    && (Z.of_nat (index_of x (samplesNs r)) <? 0 + (seen r + 1)))
             with true
             by (symmetry; apply andb_true_intro; split;
                 [apply Z.leb_le | apply Z.ltb_lt]; lia).
           replace (seen r + 1 - 1) with (seen r) by lia.
           rewrite HlawT, Z.max_l by lia. field. split; assumption.
        -- intros pos Hpos. cbv beta.
           destruct (Hstate pos Hpos) as (_ & _ & _ & _ & Hsam).
           destruct (HIH pos Hpos) as (IHa & IHb & _).
           apply in_zrange in Hpos.
           destruct (Z.eqb_spec pos (Z.of_nat (index_of x (samplesNs r)))) as [E | N];
             cbn [negb].
           ++ apply IHa. rewrite Hsam. unfold size in Hfull.
              destruct (Z.ltb_spec pos (capacity r)) as [Hp | Hp]; [|lia].
              intros Hmem. apply in_app_or in Hmem.
              destruct Hmem as [Hmem | Hmem]; [|contradiction].
              apply (in_set_at_old (Z.to_nat pos) v x (samplesNs r)) in Hmem;
                try assumption; [| apply (NoDup_app_remove_r _ _ Hnd')].
              apply Hmem. lia.
           ++ apply IHb. rewrite Hsam.
              destruct (Z.ltb_spec pos (capacity r)) as [Hp | Hp]; [|assumption].
              apply (in_set_at_old (Z.to_nat pos) v x (samplesNs r));
                try assumption; [apply (NoDup_app_remove_r _ _ Hnd') | lia].
      * intros [<- | Hx].
        -- (* the value of this call: it enters when a position is drawn *)
           rename v into x.
           assert (Hxs : ~ In x (samplesNs r)).
           { intros H. apply Hv. apply in_or_app. now left. }
           assert (Hxvs : ~ In x vs).
           { intros H. apply Hv. apply in_or_app. now right. }
           rewrite (Qsum_cases _ (fun p => p <? capacity r)
                      (inject_Z (seen r + 1) / inject_Z total)%Q).
           ++ unfold zrange. rewrite count_below, Hlen0.
              replace (Z.max 0 (Z.min (capacity r - 0) (seen r + 1)))
                with (capacity r) by lia.
              rewrite HlawT, Z.max_r by lia. field. split; assumption.
           ++ intros pos Hpos. cbv beta.
              destruct (Hstate pos Hpos) as (_ & _ & _ & _ & Hsam).
              destruct (HIH pos Hpos) as (IHa & IHb & _).
              apply in_zrange in Hpos. unfold size in Hfull.
              destruct (Z.ltb_spec pos (capacity r)) as [Hp | Hp].
              ** apply IHb. rewrite Hsam. apply in_set_at_new. lia.
              ** apply IHa. rewrite Hsam. intros Hmem. apply in_app_or in Hmem. tauto.
        -- (* a value of a later call *)
           rewrite (Qsum_cases _ (fun _ : Z => true)
                      (inject_Z (capacity r) / inject_Z total)%Q).
           ++ unfold zrange.
              rewrite filter_all, length_zrange_from, Hlen0.
              rewrite HlawT, Z.max_r by lia. field. split; assumption.
           ++ intros pos Hpos. cbv beta iota. apply (HIH pos Hpos). exact Hx.
Qed.

Lemma law_min (cap total : Z) :
  0 < cap -> 0 < total ->
  law cap 0 total == Qmin 1 (inject_Z cap / inject_Z total).
Proof.
  intros Hcap Htot. unfold law.
  assert (HT : (0 < inject_Z total)%Q) by (unfold Qlt; simpl; lia).
  destruct (Z.leb_spec total cap) as [Hle | Hlt].
  - symmetry. apply Q.min_l. apply Qle_shift_div_l; [exact HT|].
    rewrite Qmult_1_l, <- Zle_Qle. exact Hle.
  - rewrite Z.max_r by lia. symmetry. apply Q.min_r.
    apply Qle_shift_div_r; [exact HT|].
    rewrite Qmult_1_l, <- Zle_Qle. lia.
Qed.

(** Two functions that agree on every outcome of a program have the same
    expected value. *)
Lemma expect_ext {A : Type} (f g : A -> Q) (m : Rand A) :
  (forall a draws rest, run m draws = Some (a, rest) -> f a == g a) ->
  expect f m == expect g m.
Proof.
  induction m as [a | lo hi k IH]; intros H; simpl.
  - apply (H a [] []). reflexivity.
  - rewrite (Qsum_ext (fun pos => expect f (k pos)) (fun pos => expect g (k pos))).
    + reflexivity.
    + intros pos Hpos. apply in_zrange in Hpos. apply IH.
      intros a draws rest Hrun. apply (H a (pos :: draws) rest). simpl.
      replace ((lo <=? pos) && (pos <=? hi)) with true; [exact Hrun|].
      symmetry. apply andb_true_intro. split; apply Z.leb_le; lia.
Qed.

Lemma expect_record_all_mq_gcd (g : LatencyRecorder -> Q) (vs : list Z) :
  forall r,
    in_step r ->
    seen r + Z.of_nat (length vs) <= U64_MOD ->
    expect g (record_all record_mq r vs) == expect g (record_all record_gcd r vs).
Proof.
  induction vs as [|v vs IH]; intros r Hin Hlen; [reflexivity|].
  simpl record_all. rewrite (record_mq_gcd_same r v Hin), !expect_bind.
  apply expect_ext. intros r1 draws rest Hrun.
  destruct vs as [|w ws]; [reflexivity|].
  simpl length in Hlen.
  destruct (in_step_step r v draws r1 rest Hin ltac:(lia) Hrun) as (Hin1 & Hs1 & _).
  apply IH; [assumption|]. simpl length. lia.
Qed.

Lemma reservoir_law_gcd (cap : Z) (values : list Z) (x : Z) :
  0 < cap -> NoDup values -> Z.of_nat (length values) < U64_MOD -> In x values ->
  prob (holds x) (record_all record_gcd (LatencyRecorder_new cap) values)
  == Qmin 1 (inject_Z cap / inject_Z (Z.of_nat (length values))).
Proof.
  intros Hcap Hnd Hlen Hx.
  assert (Hpos : 0 < Z.of_nat (length values)) by (destruct values; [destruct Hx | simpl; lia]).
  destruct (reservoir_from values (LatencyRecorder_new cap) x
              (Z.of_nat (length values))) as (_ & _ & Hc).
  - exact Hcap.
  - unfold in_step, size. simpl. lia.
  - simpl. lia.
  - exact Hlen.
  - exact Hnd.
  - rewrite (Hc Hx). apply law_min; assumption.
Qed.

(** C2: for every capacity > 0 and every sequence of [N] distinct values
    recorded one after the other ([N] below 2^64, so that [seen] does not
    wrap around), with every draw uniform on its range, each value is in
    the final buffer with probability [min(1, capacity / N)], in both
    programs.  The probability does not depend on the position of the
    value in the sequence: it is the same after any reordering of the
    calls. *)
Theorem reservoir_sampling_law :
  forall (cap : Z) (values : list Z) (x : Z),
    0 < cap ->
    NoDup values ->
    Z.of_nat (length values) < U64_MOD ->
    In x values ->
    prob (holds x) (record_all record_gcd (LatencyRecorder_new cap) values)
    == Qmin 1 (inject_Z cap / inject_Z (Z.of_nat (length values))) /\
    prob (holds x) (record_all record_mq (LatencyRecorder_new cap) values)
    == Qmin 1 (inject_Z cap / inject_Z (Z.of_nat (length values))) /\
    (forall values',
       Permutation values values' ->
       prob (holds x) (record_all record_gcd (LatencyRecorder_new cap) values')
       == prob (holds x) (record_all record_gcd (LatencyRecorder_new cap) values)).
Proof.
  intros cap values x Hcap Hnd Hlen Hx.
  pose proof (reservoir_law_gcd cap values x Hcap Hnd Hlen Hx) as Hgcd.
  split; [exact Hgcd|]. split.
  - unfold prob. rewrite expect_record_all_mq_gcd; [exact Hgcd | | simpl; lia].
    unfold in_step, size. simpl. lia.
  - intros values' Hperm. rewrite Hgcd, (Permutation_length Hperm).
    apply reservoir_law_gcd.
    + exact Hcap.
    + apply (Permutation_NoDup Hperm Hnd).
    + rewrite <- (Permutation_length Hperm). exact Hlen.
    + apply (Permutation_in x Hperm Hx).
Qed.

Lemma reservoir_sampling_law_witness :
  0 < 2 /\ NoDup [5; 6; 9; 4] /\ Z.of_nat (length [5; 6; 9; 4]) < U64_MOD /\ In 6 [5; 6; 9; 4] /\
  prob (holds 6) (record_all record_mq (LatencyRecorder_new 2) [5; 6; 9; 4])
  == Qmin 1 (inject_Z 2 / inject_Z (Z.of_nat (length [5; 6; 9; 4]))).
Proof.
  assert (H1 : 0 < 2) by lia.
  assert (H2 : NoDup [5; 6; 9; 4]).
  { repeat constructor; simpl; intros H;
      repeat (destruct H as [H | H]; [discriminate H|]); exact H. }
  assert (H3 : Z.of_nat (length [5; 6; 9; 4]) < U64_MOD) by (unfold U64_MOD; simpl; lia).
  assert (H4 : In 6 [5; 6; 9; 4]) by (simpl; auto).
  split; [exact H1|]. split; [exact H2|]. split; [exact H3|]. split; [exact H4|].
  exact (proj1 (proj2 (reservoir_sampling_law 2 [5; 6; 9; 4] 6 H1 H2 H3 H4))).
Defined.

(** The law on a small run, by enumeration of the draws: with capacity 2
    and four calls, every value is kept with probability 1/2. *)
Example reservoir_law_enumerated :
  map (fun x => Qred (prob (holds x) (record_all record_mq (LatencyRecorder_new 2) [5; 6; 9; 4])))
      [5; 6; 9; 4]
  = [1 # 2; 1 # 2; 1 # 2; 1 # 2]%Q.
Proof. vm_compute. reflexivity. Qed.

(** ** [std::sort] *)

Lemma insert_sorted_perm (x : Z) (l : list Z) : Permutation (insert_sorted x l) (x :: l).
Proof.
  induction l as [|h t IH]; simpl.
  - apply Permutation_refl.
  - destruct (x <=? h).
    + apply Permutation_refl.
    + apply perm_trans with (h :: x :: t).
      * apply perm_skip. exact IH.
      * apply perm_swap.
Qed.

Lemma std_sort_perm (l : list Z) : Permutation (std_sort l) l.
Proof.
  induction l as [|h t IH]; simpl.
  - apply perm_nil.
  - apply perm_trans with (h :: std_sort t).
    + apply insert_sorted_perm.
    + apply perm_skip. exact IH.
Qed.

Lemma insert_sorted_sorted (x : Z) (l : list Z) :
  StronglySorted Z.le l -> StronglySorted Z.le (insert_sorted x l).
Proof.
  induction l as [|h t IH]; intros Hs; simpl.
  - constructor; constructor.
  - destruct (Z.leb_spec x h) as [Hle | Hgt].
    + constructor; [exact Hs|].
      inversion Hs as [|h' t' Ht Hall]; subst.
      constructor; [exact Hle|].
      apply Forall_impl with (P := Z.le h); [intros a Ha; lia | exact Hall].
    + inversion Hs as [|h' t' Ht Hall]; subst.
      constructor; [apply IH; exact Ht|].
      apply (Permutation_Forall (Permutation_sym (insert_sorted_perm x t))).
      constructor; [lia | exact Hall].
Qed.

Lemma std_sort_sorted (l : list Z) : StronglySorted Z.le (std_sort l).
Proof.
  induction l as [|h t IH]; simpl.
  - constructor.
  - apply insert_sorted_sorted. exact IH.
Qed.

Lemma std_sort_length (l : list Z) : length (std_sort l) = length l.
Proof. apply Permutation_length. apply std_sort_perm. Qed.

(** The order statistics of a sorted vector are in order. *)
Lemma sorted_nth_le (s : list Z) :
  StronglySorted Z.le s ->
  forall i j, (i <= j < length s)%nat -> nth i s 0 <= nth j s 0.
Proof.
  induction 1 as [|h t Ht IH Hall]; intros i j Hij; simpl in Hij; [lia|].
  destruct i as [|i]; destruct j as [|j]; simpl; try lia.
  - rewrite Forall_forall in Hall. apply Hall. apply nth_In. lia.
  - apply IH. lia.
Qed.

Lemma sorted_first_least (s : list Z) (x : Z) :
  StronglySorted Z.le s -> In x s -> nth 0 s 0 <= x.
Proof.
  intros Hs Hx. destruct (In_nth s x 0 Hx) as (j & Hj & <-).
  apply sorted_nth_le; [exact Hs | lia].
Qed.

Lemma sorted_last_greatest (s : list Z) (x : Z) :
  StronglySorted Z.le s -> In x s -> x <= nth (length s - 1) s 0.
Proof.
  intros Hs Hx. destruct (In_nth s x 0 Hx) as (j & Hj & <-).
  apply sorted_nth_le; [exact Hs | lia].
Qed.

(** ** Binary64 arithmetic *)

(** The facts about IEEE 754 binary64 that [computePercentiles] rests on,
    from the specification of the operations in [SpecFloat]. *)

Lemma digits2_bounds (p : positive) :
  2 ^ (Z.pos (SpecFloat.digits2_pos p) - 1) <= Z.pos p < 2 ^ Z.pos (SpecFloat.digits2_pos p).
Proof.
  induction p as [p IH | p IH |]; cbn [SpecFloat.digits2_pos].
  - rewrite Pos2Z.inj_succ. replace (Z.succ (Z.pos (SpecFloat.digits2_pos p)) - 1)
      with (Z.succ (Z.pos (SpecFloat.digits2_pos p) - 1)) by lia.
    rewrite !Z.pow_succ_r by lia. lia.
  - rewrite Pos2Z.inj_succ. replace (Z.succ (Z.pos (SpecFloat.digits2_pos p)) - 1)
      with (Z.succ (Z.pos (SpecFloat.digits2_pos p) - 1)) by lia.
    rewrite !Z.pow_succ_r by lia. lia.
  - simpl. lia.
Qed.

Lemma digits2_unique (p : positive) (d : Z) :
  2 ^ (d - 1) <= Z.pos p < 2 ^ d -> Z.pos (SpecFloat.digits2_pos p) = d.
Proof.
  intros (Hl & Hu). pose proof (digits2_bounds p) as (Bl & Bu).
  set (k := Z.pos (SpecFloat.digits2_pos p)) in *.
  assert (0 < k) by (unfold k; lia).
  assert (0 < d). { destruct (Z.lt_ge_cases 0 d); [assumption|].
    assert (2 ^ d <= 2 ^ 0) by (apply Z.pow_le_mono_r; lia). simpl in *. lia. }
  destruct (Z.lt_trichotomy k d) as [Hlt | [E | Hgt]]; [| exact E |].
  - assert (2 ^ k <= 2 ^ (d - 1)) by (apply Z.pow_le_mono_r; lia). lia.
  - assert (2 ^ d <= 2 ^ (k - 1)) by (apply Z.pow_le_mono_r; lia). lia.
Qed.

Lemma shr_1_m (r : SpecFloat.shr_record) :
  0 <= SpecFloat.shr_m r -> SpecFloat.shr_m (SpecFloat.shr_1 r) = SpecFloat.shr_m r / 2.
Proof.
  destruct r as [m b s]. cbn [SpecFloat.shr_m]. intros Hm.
  destruct m as [|[p|p|]|p]; cbn [SpecFloat.shr_1 SpecFloat.shr_m]; try lia.
  - reflexivity.
  - rewrite Pos2Z.inj_xI. apply (Z.div_unique _ _ _ 1); lia.
  - rewrite Pos2Z.inj_xO. apply (Z.div_unique _ _ _ 0); lia.
  - reflexivity.
Qed.

Lemma iter_shr_1_m (k : positive) :
  forall r, 0 <= SpecFloat.shr_m r ->
    SpecFloat.shr_m (SpecFloat.iter_pos SpecFloat.shr_1 k r) = SpecFloat.shr_m r / 2 ^ Z.pos k.
Proof.
  induction k as [k IH | k IH |]; intros r Hr; cbn [SpecFloat.iter_pos].
  - assert (H1 : 0 <= SpecFloat.shr_m (SpecFloat.shr_1 r))
      by (rewrite shr_1_m by assumption; apply Z.div_pos; lia).
    assert (H2 : 0 <= SpecFloat.shr_m (SpecFloat.iter_pos SpecFloat.shr_1 k (SpecFloat.shr_1 r)))
      by (rewrite IH by assumption; apply Z.div_pos; [assumption | apply Z.pow_pos_nonneg; lia]).
    rewrite IH, IH, shr_1_m by assumption.
    assert (Hp : 0 < 2 ^ Z.pos k) by (apply Z.pow_pos_nonneg; lia).
    rewrite !Z.div_div by lia.
    assert (E : 2 ^ Z.pos k~1 = 2 * (2 ^ Z.pos k * 2 ^ Z.pos k)).
    { assert (Z.pos k~1 = 1 + (Z.pos k + Z.pos k)) as -> by lia.
      rewrite !Z.pow_add_r by lia. reflexivity. }
    rewrite E. reflexivity.
  - assert (H2 : 0 <= SpecFloat.shr_m (SpecFloat.iter_pos SpecFloat.shr_1 k r))
      by (rewrite IH by assumption; apply Z.div_pos; [assumption | apply Z.pow_pos_nonneg; lia]).
    rewrite IH, IH by assumption.
    assert (Hp : 0 < 2 ^ Z.pos k) by (apply Z.pow_pos_nonneg; lia).
    rewrite !Z.div_div by lia.
    assert (E : 2 ^ Z.pos k~0 = 2 ^ Z.pos k * 2 ^ Z.pos k).
    { assert (Z.pos k~0 = Z.pos k + Z.pos k) as -> by lia.
      rewrite !Z.pow_add_r by lia. reflexivity. }
    rewrite E. reflexivity.
  - rewrite shr_1_m by assumption. reflexivity.
Qed.

Lemma fexp64_eq (e : Z) : (SpecFloat.fexp FloatOps.prec FloatOps.emax) e = Z.max (e - 53) (-1074).
Proof. reflexivity. Qed.

Lemma shr_nonpos (mrs : SpecFloat.shr_record) (e n : Z) :
  n <= 0 -> SpecFloat.shr mrs e n = (mrs, e).
Proof. destruct n; [reflexivity | lia | reflexivity]. Qed.

Lemma shr_positive (mrs : SpecFloat.shr_record) (e n : Z) :
  0 < n ->
  SpecFloat.shr mrs e n = (SpecFloat.iter_pos SpecFloat.shr_1 (Z.to_pos n) mrs, e + n).
Proof. destruct n; [lia | reflexivity | lia]. Qed.

Lemma round_nearest_even_cases (m : Z) (l : SpecFloat.location) :
  SpecFloat.round_nearest_even m l = m \/ SpecFloat.round_nearest_even m l = m + 1.
Proof.
  destruct l as [|[| |]]; cbn [SpecFloat.round_nearest_even]; auto.
  destruct (Z.even m); auto.
Qed.

Lemma canonical_iff (m : positive) (e : Z) :
  SpecFloat.canonical_mantissa FloatOps.prec FloatOps.emax m e = true
  <-> (SpecFloat.fexp FloatOps.prec FloatOps.emax) (Z.pos (SpecFloat.digits2_pos m) + e) = e.
Proof. unfold SpecFloat.canonical_mantissa. apply Z.eqb_eq. Qed.

(** A mantissa that already has its exponent is left as it is. *)
Lemma binary_round_aux_canonical (s : bool) (m : positive) (e : Z) :
  SpecFloat.canonical_mantissa FloatOps.prec FloatOps.emax m e = true ->
  e <= 971 ->
  SpecFloat.binary_round_aux FloatOps.prec FloatOps.emax s (Z.pos m) e SpecFloat.loc_Exact
  = SpecFloat.S754_finite s m e.
Proof.
  intros Hc He. apply canonical_iff in Hc.
  unfold SpecFloat.binary_round_aux, SpecFloat.shr_fexp.
  cbn [SpecFloat.Zdigits2 SpecFloat.shr_record_of_loc].
  rewrite Hc, Z.sub_diag. cbn [SpecFloat.shr SpecFloat.shr_m SpecFloat.loc_of_shr_record
                                 SpecFloat.round_nearest_even SpecFloat.Zdigits2
                                 SpecFloat.shr_record_of_loc].
  rewrite Hc, Z.sub_diag. cbn [SpecFloat.shr SpecFloat.shr_m].
  change (FloatOps.emax - FloatOps.prec) with 971.
  destruct (Z.leb_spec e 971); [reflexivity | lia].
Qed.

Lemma iter_xO_value (p : positive) (n : positive) :
  Z.pos (Pos.iter xO p n) = Z.pos p * 2 ^ Z.pos n.
Proof.
  induction n as [|n IH] using Pos.peano_ind.
  - cbn. lia.
  - rewrite Pos.iter_succ, Pos2Z.inj_xO, IH, Pos2Z.inj_succ, Z.pow_succ_r by lia. lia.
Qed.

Lemma digits2_shift (p : positive) (n : Z) :
  0 <= n ->
  forall q, Z.pos q = Z.pos p * 2 ^ n ->
  Z.pos (SpecFloat.digits2_pos q) = Z.pos (SpecFloat.digits2_pos p) + n.
Proof.
  intros Hn q Hq. apply digits2_unique. rewrite Hq.
  pose proof (digits2_bounds p) as (Bl & Bu).
  assert (Hp : 0 < 2 ^ n) by (apply Z.pow_pos_nonneg; lia).
  replace (Z.pos (SpecFloat.digits2_pos p) + n - 1)
    with ((Z.pos (SpecFloat.digits2_pos p) - 1) + n) by lia.
  rewrite !Z.pow_add_r by lia. split; nia.
Qed.

(** The conversion of a 64-bit integer gives a finite number. *)
Lemma binary_round_u64 (p : positive) :
  Z.pos p < 2 ^ 64 ->
  exists m e,
    SpecFloat.binary_round FloatOps.prec FloatOps.emax false p 0
    = SpecFloat.S754_finite false m e /\
    SpecFloat.canonical_mantissa FloatOps.prec FloatOps.emax m e = true /\
    -52 <= e <= 12 /\
    (Z.pos p < 2 ^ 53 ->
     e = Z.pos (SpecFloat.digits2_pos p) - 53 /\ e <= 0 /\ Z.pos m = Z.pos p * 2 ^ (- e)).
Proof.
  intros Hp. pose proof (digits2_bounds p) as (Bl & Bu).
  set (d := Z.pos (SpecFloat.digits2_pos p)) in *.
  assert (Hd1 : 1 <= d) by (unfold d; lia).
  assert (Hd2 : d <= 64).
  { destruct (Z.le_gt_cases d 64); [assumption|].
    assert (2 ^ 64 <= 2 ^ (d - 1)) by (apply Z.pow_le_mono_r; lia). lia. }
  unfold SpecFloat.binary_round.
  replace (Z.pos (SpecFloat.digits2_pos p) + 0) with d by (unfold d; lia).
  rewrite fexp64_eq.
  destruct (Z.le_gt_cases d 53) as [Hle | Hgt].
  - (* no rounding *)
    rewrite Z.max_l by lia.
    assert (Hsmall : Z.pos p < 2 ^ 53).
    { assert (2 ^ d <= 2 ^ 53) by (apply Z.pow_le_mono_r; lia). lia. }
    destruct (Z.eq_dec d 53) as [E53 | N53].
    + unfold SpecFloat.shl_align. replace (d - 53 - 0) with 0 by lia. cbv beta iota.
      exists p, 0. rewrite binary_round_aux_canonical.
      * split; [reflexivity|]. split; [| split; [lia|]].
        -- apply canonical_iff. fold d. rewrite E53. reflexivity.
        -- intros _. split; [fold d; lia|]. split; [lia|]. simpl. lia.
      * apply canonical_iff. fold d. rewrite E53. reflexivity.
      * lia.
    + assert (Hneg : d - 53 - 0 = Z.neg (Z.to_pos (53 - d))).
      { rewrite <- Pos2Z.opp_pos, Z2Pos.id by lia. lia. }
      unfold SpecFloat.shl_align. rewrite Hneg. cbv beta iota.
      set (q := Pos.iter xO p (Z.to_pos (53 - d))).
      assert (Hq : Z.pos q = Z.pos p * 2 ^ (53 - d)).
      { unfold q. rewrite iter_xO_value, Z2Pos.id by lia. reflexivity. }
      assert (Hdq : Z.pos (SpecFloat.digits2_pos q) = 53).
      { rewrite (digits2_shift p (53 - d)) by (lia || exact Hq). fold d. lia. }
      assert (Hcan : SpecFloat.canonical_mantissa FloatOps.prec FloatOps.emax q (d - 53) = true).
      { apply canonical_iff. rewrite Hdq, fexp64_eq. lia. }
      exists q, (d - 53). rewrite binary_round_aux_canonical by (assumption || lia).
      split; [reflexivity|]. split; [exact Hcan|]. split; [lia|].
      intros _. split; [reflexivity|]. split; [lia|]. rewrite Hq. f_equal. f_equal. lia.
  - (* the low d - 53 bits are rounded away *)
    rewrite Z.max_l by lia.
    assert (Hk : d - 53 - 0 = Z.pos (Z.to_pos (d - 53))) by (rewrite Z2Pos.id; lia).
    unfold SpecFloat.shl_align. rewrite Hk. cbv beta iota.
    unfold SpecFloat.binary_round_aux, SpecFloat.shr_fexp at 1.
    cbn [SpecFloat.Zdigits2 SpecFloat.shr_record_of_loc].
    replace (Z.pos (SpecFloat.digits2_pos p) + 0) with d by (unfold d; lia).
    rewrite fexp64_eq, Z.max_l, shr_positive by lia.
    cbv beta iota. rewrite !Z.sub_0_r.
    set (k := d - 53) in *.
    set (mrs := SpecFloat.iter_pos SpecFloat.shr_1 (Z.to_pos k)
                  {| SpecFloat.shr_m := Z.pos p; SpecFloat.shr_r := false;
                     SpecFloat.shr_s := false |}).
    assert (Hm : SpecFloat.shr_m mrs = Z.pos p / 2 ^ k).
    { unfold mrs. rewrite iter_shr_1_m by (cbn; lia). cbn [SpecFloat.shr_m].
      rewrite Z2Pos.id by lia. reflexivity. }
    assert (Hpk : 0 < 2 ^ k) by (apply Z.pow_pos_nonneg; lia).
    assert (Hpow : 2 ^ (d - 1) = 2 ^ 52 * 2 ^ k /\ 2 ^ d = 2 ^ 53 * 2 ^ k).
    { split; rewrite <- Z.pow_add_r by lia; f_equal; lia. }
    destruct Hpow as (Hp1 & Hp2).
    assert (Hrange : 2 ^ 52 <= SpecFloat.shr_m mrs < 2 ^ 53).
    { rewrite Hm. split.
      - apply Z.div_le_lower_bound; lia.
      - apply Z.div_lt_upper_bound; lia. }
    set (m2 := SpecFloat.round_nearest_even (SpecFloat.shr_m mrs)
                 (SpecFloat.loc_of_shr_record mrs)).
    assert (Hm2 : 2 ^ 52 <= m2 <= 2 ^ 53).
    { unfold m2. destruct (round_nearest_even_cases (SpecFloat.shr_m mrs)
                             (SpecFloat.loc_of_shr_record mrs)) as [-> | ->]; lia. }
    cbn [Z.add]. replace (0 + k) with k by lia.
    destruct m2 as [|pm2|pm2] eqn:Em2; try (simpl in Hm2; lia).
    destruct (Z.eq_dec (Z.pos pm2) (2 ^ 53)) as [Etop | Ntop].
    + (* rounded up to the next power of two *)
      assert (Epm : pm2 = 9007199254740992%positive) by (simpl in Etop; lia).
      subst pm2.
      unfold SpecFloat.shr_fexp. cbn [SpecFloat.Zdigits2 SpecFloat.digits2_pos Pos.succ].
      rewrite fexp64_eq.
      replace (Z.max (54 + k - 53) (-1074) - k) with 1 by lia.
      cbn [SpecFloat.shr SpecFloat.iter_pos SpecFloat.shr_record_of_loc SpecFloat.shr_1
           SpecFloat.shr_m orb].
      change (FloatOps.emax - FloatOps.prec) with 971.
      destruct (Z.leb_spec (k + 1) 971); [| lia].
      exists 4503599627370496%positive, (k + 1).
      split; [reflexivity|]. split; [| split; [lia|]].
      * apply canonical_iff. cbn [SpecFloat.digits2_pos Pos.succ]. rewrite fexp64_eq. lia.
      * intros Hs. assert (2 ^ 53 <= 2 ^ (d - 1)) by (apply Z.pow_le_mono_r; lia). lia.
    + assert (Hd53 : Z.pos (SpecFloat.digits2_pos pm2) = 53).
      { apply digits2_unique. change (53 - 1) with 52. lia. }
      assert (Hcan : SpecFloat.canonical_mantissa FloatOps.prec FloatOps.emax pm2 k = true).
      { apply canonical_iff. rewrite Hd53, fexp64_eq. lia. }
      apply canonical_iff in Hcan.
      unfold SpecFloat.shr_fexp. cbn [SpecFloat.Zdigits2 SpecFloat.shr_record_of_loc].
      rewrite Hcan, Z.sub_diag. cbn [SpecFloat.shr SpecFloat.shr_m].
      change (FloatOps.emax - FloatOps.prec) with 971.
      destruct (Z.leb_spec k 971); [| lia].
      exists pm2, k. split; [reflexivity|]. split; [apply canonical_iff; exact Hcan|].
      split; [lia|].
      intros Hs. assert (2 ^ 53 <= 2 ^ (d - 1)) by (apply Z.pow_le_mono_r; lia). lia.
Qed.

Lemma b64_of_Z_SF (z : Z) :
  0 <= z < 2 ^ 64 ->
  FloatOps.Prim2SF (b64_of_Z z)
  = SpecFloat.binary_normalize FloatOps.prec FloatOps.emax z 0 false.
Proof.
  intros Hz. unfold b64_of_Z. apply FloatAxioms.Prim2SF_SF2Prim.
  destruct z as [|p|p]; [reflexivity | | lia].
  cbn [SpecFloat.binary_normalize].
  destruct (binary_round_u64 p ltac:(lia)) as (m & e & -> & Hc & He & _).
  cbn [SpecFloat.valid_binary]. unfold SpecFloat.bounded. rewrite Hc.
  change (FloatOps.emax - FloatOps.prec) with 971.
  apply andb_true_intro. split; [reflexivity | apply Z.leb_le; lia].
Qed.

Lemma b64_of_Z_nonneg (z : Z) : 0 <= z < 2 ^ 64 -> b64_nonneg (b64_of_Z z).
Proof.
  intros Hz. unfold b64_nonneg. rewrite (b64_of_Z_SF z Hz).
  destruct z as [|p|p]; [left; reflexivity | right | lia].
  cbn [SpecFloat.binary_normalize].
  destruct (binary_round_u64 p ltac:(lia)) as (m & e & -> & _).
  now exists m, e.
Qed.

(** Integers below [2^53] survive the conversion to binary64 and back. *)
Lemma b64_trunc_of_Z (z : Z) : 0 <= z < 2 ^ 53 -> b64_trunc (b64_of_Z z) = z.
Proof.
  intros Hz. unfold b64_trunc.
  rewrite (b64_of_Z_SF z) by (split; [lia|]; apply Z.lt_trans with (2 ^ 53); [lia | reflexivity]).
  destruct z as [|p|p]; [reflexivity | | lia].
  cbn [SpecFloat.binary_normalize].
  destruct (binary_round_u64 p) as (m & e & -> & _ & He & Hsmall).
  { apply Z.lt_trans with (2 ^ 53); [lia | reflexivity]. }
  destruct (Hsmall ltac:(lia)) as (_ & He0 & Hm).
  destruct (Z.leb_spec 0 e) as [H0 | H0].
  - assert (e = 0) by lia. subst e. rewrite Hm. simpl. lia.
  - rewrite Hm. apply Z.div_mul. apply Z.pow_nonzero; lia.
Qed.

Lemma Prim2SF_one :
  FloatOps.Prim2SF PrimFloat.one = SpecFloat.S754_finite false 4503599627370496 (-52).
Proof. vm_compute. reflexivity. Qed.

Lemma Prim2SF_zero : FloatOps.Prim2SF PrimFloat.zero = SpecFloat.S754_zero false.
Proof. vm_compute. reflexivity. Qed.

Lemma valid_finite (f : PrimFloat.float) (s : bool) (m : positive) (e : Z) :
  FloatOps.Prim2SF f = SpecFloat.S754_finite s m e ->
  SpecFloat.canonical_mantissa FloatOps.prec FloatOps.emax m e = true /\ e <= 971.
Proof.
  intros Hf. pose proof (FloatAxioms.Prim2SF_valid f) as Hv. rewrite Hf in Hv.
  cbn [SpecFloat.valid_binary] in Hv. unfold SpecFloat.bounded in Hv.
  apply andb_true_iff in Hv. destruct Hv as (Hc & He).
  split; [exact Hc|]. apply Z.leb_le in He. exact He.
Qed.

(** Multiplication of a mantissa by [2^52] with the exponent lowered by
    52 rounds back to the number itself. *)
Lemma binary_round_aux_times_one (s : bool) (m : positive) (e : Z) :
  SpecFloat.canonical_mantissa FloatOps.prec FloatOps.emax m e = true ->
  e <= 971 ->
  SpecFloat.binary_round_aux FloatOps.prec FloatOps.emax s
    (Z.pos (4503599627370496 * m)) (e + -52) SpecFloat.loc_Exact
  = SpecFloat.S754_finite s m e.
Proof.
  intros Hc He. pose proof Hc as Hc'. apply canonical_iff in Hc'.
  assert (Hd : Z.pos (SpecFloat.digits2_pos (4503599627370496 * m))
               = Z.pos (SpecFloat.digits2_pos m) + 52).
  { apply (digits2_shift m 52); [lia|]. rewrite Pos2Z.inj_mul. simpl (2 ^ 52). lia. }
  unfold SpecFloat.binary_round_aux, SpecFloat.shr_fexp at 1.
  cbn [SpecFloat.Zdigits2 SpecFloat.shr_record_of_loc].
  rewrite Hd.
  replace (Z.pos (SpecFloat.digits2_pos m) + 52 + (e + -52))
    with (Z.pos (SpecFloat.digits2_pos m) + e) by lia.
  rewrite Hc'. replace (e - (e + -52)) with 52 by lia.
  cbv [SpecFloat.shr Pos.mul SpecFloat.iter_pos SpecFloat.shr_1 orb].
  cbv beta iota.
  cbn [SpecFloat.shr_m SpecFloat.loc_of_shr_record SpecFloat.round_nearest_even].
  replace (e + -52 + 52) with e by lia.
  unfold SpecFloat.shr_fexp. cbn [SpecFloat.Zdigits2 SpecFloat.shr_record_of_loc].
  rewrite Hc', Z.sub_diag. cbn [SpecFloat.shr SpecFloat.shr_m].
  change (FloatOps.emax - FloatOps.prec) with 971.
  destruct (Z.leb_spec e 971); [reflexivity | lia].
Qed.

Lemma b64_mul_one_l (x : PrimFloat.float) : PrimFloat.mul PrimFloat.one x = x.
Proof.
  apply FloatAxioms.Prim2SF_inj. rewrite FloatAxioms.mul_spec, Prim2SF_one.
  destruct (FloatOps.Prim2SF x) as [s | s | | s m e] eqn:Ex;
    cbn [FloatAxioms.SF64mul SpecFloat.SFmul xorb]; try reflexivity.
  destruct (valid_finite x s m e Ex) as (Hc & He).
  unfold FloatAxioms.SF64mul. cbn [SpecFloat.SFmul xorb].
  rewrite (Z.add_comm (-52) e).
  apply binary_round_aux_times_one; assumption.
Qed.

Lemma b64_mul_one_r (x : PrimFloat.float) : PrimFloat.mul x PrimFloat.one = x.
Proof.
  apply FloatAxioms.Prim2SF_inj. rewrite FloatAxioms.mul_spec, Prim2SF_one.
  destruct (FloatOps.Prim2SF x) as [s | s | | s m e] eqn:Ex;
    unfold FloatAxioms.SF64mul; cbn [SpecFloat.SFmul];
    rewrite ?xorb_false_r; try reflexivity.
  destruct (valid_finite x s m e Ex) as (Hc & He).
  rewrite Pos.mul_comm. apply binary_round_aux_times_one; assumption.
Qed.

Lemma b64_mul_zero_l (x : PrimFloat.float) :
  b64_nonneg x -> PrimFloat.mul PrimFloat.zero x = PrimFloat.zero.
Proof.
  intros Hx. apply FloatAxioms.Prim2SF_inj. rewrite FloatAxioms.mul_spec, Prim2SF_zero.
  destruct Hx as [-> | (m & e & ->)]; reflexivity.
Qed.

Lemma b64_mul_zero_r (x : PrimFloat.float) :
  b64_nonneg x -> PrimFloat.mul x PrimFloat.zero = PrimFloat.zero.
Proof.
  intros Hx. apply FloatAxioms.Prim2SF_inj. rewrite FloatAxioms.mul_spec, Prim2SF_zero.
  destruct Hx as [-> | (m & e & ->)]; reflexivity.
Qed.

Lemma b64_add_zero_r (x : PrimFloat.float) :
  b64_nonneg x -> PrimFloat.add x PrimFloat.zero = x.
Proof.
  intros Hx. apply FloatAxioms.Prim2SF_inj. rewrite FloatAxioms.add_spec, Prim2SF_zero.
  destruct Hx as [-> | (m & e & ->)]; reflexivity.
Qed.

Lemma b64_sub_diag (x : PrimFloat.float) :
  b64_nonneg x -> PrimFloat.sub x x = PrimFloat.zero.
Proof.
  intros Hx. apply FloatAxioms.Prim2SF_inj. rewrite FloatAxioms.sub_spec, Prim2SF_zero.
  destruct Hx as [-> | (m & e & ->)]; [reflexivity|].
  unfold FloatAxioms.SF64sub. cbn [SpecFloat.SFsub SpecFloat.cond_Zopp].
  rewrite Z.sub_diag. reflexivity.
Qed.

(** *** The interpolation at the quantiles 0 and 1 in binary64 *)

Lemma lit_binary64_values :
  lit binary64 0 1 = PrimFloat.zero /\ lit binary64 1 1 = PrimFloat.one /\
  of_uint binary64 0 = PrimFloat.zero /\
  to_size_t binary64 PrimFloat.zero = 0 /\
  dsub binary64 PrimFloat.zero PrimFloat.zero = PrimFloat.zero /\
  dsub binary64 PrimFloat.one PrimFloat.zero = PrimFloat.one.
Proof. vm_compute. repeat split; reflexivity. Qed.

Lemma nth_u64 (s : list Z) (k : nat) :
  (forall x, In x s -> 0 <= x < 2 ^ 64) -> 0 <= nth k s 0 < 2 ^ 64.
Proof.
  intros Hs. destruct (nth_in_or_default k s 0) as [Hin | ->]; [apply Hs, Hin|].
  split; [lia | reflexivity].
Qed.

(** [x * 1 + y * 0 = x] for two converted integers. *)
Lemma b64_weights_one_zero (x y : Z) :
  0 <= x < 2 ^ 64 -> 0 <= y < 2 ^ 64 ->
  PrimFloat.add (PrimFloat.mul (b64_of_Z x) PrimFloat.one)
                (PrimFloat.mul (b64_of_Z y) PrimFloat.zero)
  = b64_of_Z x.
Proof.
  intros Hx Hy.
  rewrite b64_mul_one_r, b64_mul_zero_r by (apply b64_of_Z_nonneg; exact Hy).
  apply b64_add_zero_r, b64_of_Z_nonneg, Hx.
Qed.

Lemma at_binary64_quantile_0 (s : list Z) :
  s <> [] ->
  (forall x, In x s -> 0 <= x < 2 ^ 64) ->
  Z.of_nat (length s) <= 2 ^ 64 ->
  at_ binary64 s (lit binary64 0 1)
  = ddiv binary64 (of_uint binary64 (nth 0 s 0)) (lit binary64 1000 1).
Proof.
  intros Hne Hs Hn. destruct s as [|x t]; [congruence|].
  destruct lit_binary64_values as (L0 & L1 & U0 & T0 & S00 & S10).
  unfold at_. rewrite L0, L1.
  set (n := Z.of_nat (length (x :: t))) in *.
  assert (Hn1 : 1 <= n) by (unfold n; cbn [length]; lia).
  cbn [dmul dsub dadd ddiv of_uint to_size_t binary64] in *.
  rewrite b64_mul_zero_l by (apply b64_of_Z_nonneg; lia).
  rewrite T0, U0, S00, S10. cbn [Z.to_nat].
  rewrite b64_weights_one_zero by (apply nth_u64; exact Hs).
  reflexivity.
Qed.

Lemma at_binary64_quantile_1 (s : list Z) :
  s <> [] ->
  (forall x, In x s -> 0 <= x < 2 ^ 64) ->
  Z.of_nat (length s) <= 2 ^ 53 ->
  at_ binary64 s (lit binary64 1 1)
  = ddiv binary64 (of_uint binary64 (nth (length s - 1) s 0)) (lit binary64 1000 1).
Proof.
  intros Hne Hs Hn. destruct s as [|x t]; [congruence|].
  destruct lit_binary64_values as (L0 & L1 & U0 & T0 & S00 & S10).
  unfold at_. rewrite L1.
  set (n := Z.of_nat (length (x :: t))) in *.
  assert (Hn1 : 1 <= n) by (unfold n; cbn [length]; lia).
  assert (H64 : 2 ^ 53 < 2 ^ 64) by reflexivity.
  cbn [dmul dsub dadd ddiv of_uint to_size_t binary64] in *.
  rewrite b64_mul_one_l, b64_trunc_of_Z by lia.
  rewrite b64_sub_diag by (apply b64_of_Z_nonneg; lia).
  rewrite S10, Z.min_r by lia.
  rewrite b64_weights_one_zero by (apply nth_u64; exact Hs).
  replace (Z.to_nat (n - 1)) with (length (x :: t) - 1)%nat by (unfold n; lia).
  reflexivity.
Qed.

(** *** The median of an odd number of samples in binary64 *)

Lemma Prim2SF_half :
  FloatOps.Prim2SF (lit binary64 5 10) = SpecFloat.S754_finite false 4503599627370496 (-53).
Proof. vm_compute. reflexivity. Qed.

(** Halving an even integer below [2^53] is exact. *)
Lemma b64_half_of_even (m : Z) :
  0 <= m -> 2 * m < 2 ^ 53 ->
  PrimFloat.mul (lit binary64 5 10) (b64_of_Z (2 * m)) = b64_of_Z m.
Proof.
  intros Hm Hs.
  assert (H53 : 2 ^ 53 < 2 ^ 64) by reflexivity.
  apply FloatAxioms.Prim2SF_inj.
  rewrite FloatAxioms.mul_spec, Prim2SF_half, !b64_of_Z_SF by lia.
  destruct m as [|p|p]; [reflexivity | | lia].
  change (2 * Z.pos p) with (Z.pos p~0).
  cbn [SpecFloat.binary_normalize].
  destruct (binary_round_u64 p~0 ltac:(lia)) as (M & e & -> & Hc & He & Hsmall).
  destruct (binary_round_u64 p ltac:(lia)) as (M' & e' & -> & Hc' & He' & Hsmall').
  destruct (Hsmall ltac:(lia)) as (Ee & _ & EM).
  destruct (Hsmall' ltac:(lia)) as (Ee' & _ & EM').
  cbn [SpecFloat.digits2_pos] in Ee. rewrite Pos2Z.inj_succ in Ee.
  assert (Eexp : e = e' + 1) by lia.
  assert (Emant : M = M').
  { apply Pos2Z.inj. rewrite EM, EM', Eexp, Pos2Z.inj_xO.
    replace (- e') with (1 + - (e' + 1)) by lia.
    rewrite Z.pow_add_r by lia. simpl (2 ^ 1). lia. }
  rewrite Emant.
  unfold FloatAxioms.SF64mul. cbn [SpecFloat.SFmul xorb].
  replace (-53 + e) with (e' + -52) by lia.
  apply binary_round_aux_times_one; [exact Hc' | lia].
Qed.

Lemma at_binary64_median (s : list Z) (m : nat) :
  length s = (2 * m + 1)%nat ->
  (forall x, In x s -> 0 <= x < 2 ^ 64) ->
  Z.of_nat (length s) <= 2 ^ 53 ->
  at_ binary64 s (lit binary64 5 10)
  = ddiv binary64 (of_uint binary64 (nth m s 0)) (lit binary64 1000 1).
Proof.
  intros Hlen Hs Hn. destruct s as [|x t]; [cbn [length] in Hlen; lia|].
  destruct lit_binary64_values as (L0 & L1 & U0 & T0 & S00 & S10).
  unfold at_. rewrite L1.
  set (n := Z.of_nat (length (x :: t))) in *.
  assert (En : n - 1 = 2 * Z.of_nat m) by (unfold n; rewrite Hlen; lia).
  assert (H64 : 2 ^ 53 < 2 ^ 64) by reflexivity.
  cbn [dmul dsub dadd ddiv of_uint to_size_t binary64] in *.
  rewrite En, b64_half_of_even, b64_trunc_of_Z by lia.
  rewrite b64_sub_diag by (apply b64_of_Z_nonneg; lia).
  rewrite S10, b64_weights_one_zero by (apply nth_u64; exact Hs).
  rewrite Nat2Z.id. reflexivity.
Qed.

(** *** Truncation is the integer part *)

Lemma Qfloor_div_pos (a b : Z) : 0 < b -> Qfloor (inject_Z a / inject_Z b) = a / b.
Proof.
  intros Hb. destruct b as [|p|p]; try lia.
  unfold Qdiv, Qinv, inject_Z, Qmult, Qfloor. cbn [Qnum Qden].
  rewrite Z.mul_1_r, Pos.mul_1_l. reflexivity.
Qed.

Lemma b64_trunc_floor (f : PrimFloat.float) :
  (forall s m e, FloatOps.Prim2SF f = SpecFloat.S754_finite s m e -> s = false) ->
  b64_trunc f = Qfloor (b64_to_Q f).
Proof.
  intros Hsign. unfold b64_trunc, b64_to_Q.
  destruct (FloatOps.Prim2SF f) as [s | s | | s m e]; try reflexivity.
  rewrite (Hsign s m e eq_refl).
  destruct (Z.leb_spec 0 e).
  - symmetry. apply Qfloor_Z.
  - symmetry. apply Qfloor_div_pos. apply Z.pow_pos_nonneg; lia.
Qed.

Lemma binary_round_aux_sign (s s' : bool) (mx ex : Z) (lx : SpecFloat.location)
    (m : positive) (e : Z) :
  SpecFloat.binary_round_aux FloatOps.prec FloatOps.emax s mx ex lx
  = SpecFloat.S754_finite s' m e -> s' = s.
Proof.
  unfold SpecFloat.binary_round_aux.
  destruct (SpecFloat.shr_fexp _ _ mx ex lx) as [mrs1 e1].
  destruct (SpecFloat.shr_fexp _ _ _ e1 _) as [mrs2 e2].
  destruct (SpecFloat.shr_m mrs2); try discriminate.
  destruct (e2 <=? _); intros H; [injection H as <- _ _; reflexivity | discriminate].
Qed.

Lemma b64_mul_sign (x y : PrimFloat.float) :
  b64_nonneg x -> b64_nonneg y ->
  forall s m e, FloatOps.Prim2SF (PrimFloat.mul x y) = SpecFloat.S754_finite s m e -> s = false.
Proof.
  intros Hx Hy s m e. rewrite FloatAxioms.mul_spec.
  destruct Hx as [-> | (mx & ex & ->)]; destruct Hy as [-> | (my & ey & ->)];
    unfold FloatAxioms.SF64mul; cbn [SpecFloat.SFmul xorb]; try discriminate.
  apply binary_round_aux_sign.
Qed.

Lemma pcts_binary64_nonneg (q : PrimFloat.float) : In q (pcts binary64) -> b64_nonneg q.
Proof.
  unfold pcts. intros [<- | [<- | [<- | [<- | [<- | []]]]]];
    right; eexists; eexists; vm_compute; reflexivity.
Qed.

Lemma at_binary64_formula (s : list Z) (q : PrimFloat.float) :
  s <> [] -> Z.of_nat (length s) <= 2 ^ 64 -> b64_nonneg q ->
  at_ binary64 s q = interpolate_b64 s q.
Proof.
  intros Hne Hn Hq. destruct s as [|x t]; [congruence|].
  unfold at_, interpolate_b64.
  cbn [dmul dsub dadd ddiv of_uint to_size_t binary64 lit].
  rewrite b64_trunc_floor; [reflexivity|].
  apply b64_mul_sign; [exact Hq|]. apply b64_of_Z_nonneg. cbn [length] in *. lia.
Qed.

(** ** [computePercentiles] in exact arithmetic *)

Lemma to_size_t_floor (p : Q) : (0 <= p)%Q -> to_size_t exact p = Qfloor p.
Proof.
  destruct p as [n d]. unfold Qle. simpl. intros H.
  apply Z.quot_div_nonneg; lia.
Qed.

Lemma at_exact_position (s : list Z) (q : Q) :
  s <> [] -> (0 <= q)%Q ->
  at_ exact s q
  = (at_position s (q * inject_Z (Z.of_nat (length s) - 1)) / 1000)%Q.
Proof.
  intros Hs Hq. destruct s as [|x t]; [congruence|].
  unfold at_, at_position. cbn [dbl of_uint lit dadd dsub dmul ddiv exact].
  rewrite to_size_t_floor; [reflexivity|].
  apply Qmult_le_0_compat; [exact Hq|].
  change 0%Q with (inject_Z 0). rewrite <- Zle_Qle. cbn [length]. lia.
Qed.

(** The fractional part and the bounds of a position. *)
Lemma position_bounds (n : Z) (q : Q) :
  1 <= n -> (0 <= q)%Q -> (q <= 1)%Q ->
  let p := (q * inject_Z (n - 1))%Q in
  (0 <= p)%Q /\ (p <= inject_Z (n - 1))%Q /\ 0 <= Qfloor p <= n - 1 /\
  (0 <= p - inject_Z (Qfloor p))%Q /\ (p - inject_Z (Qfloor p) < 1)%Q.
Proof.
  intros Hn H0 H1 p.
  assert (Hm : (0 <= inject_Z (n - 1))%Q) by (unfold Qle; simpl; lia).
  assert (Hp0 : (0 <= p)%Q) by (apply Qmult_le_0_compat; assumption).
  assert (Hp1 : (p <= inject_Z (n - 1))%Q).
  { unfold p. rewrite <- (Qmult_1_l (inject_Z (n - 1))) at 2.
    apply Qmult_le_compat_r; assumption. }
  pose proof (Qfloor_le p) as Hfl.
  pose proof (Qlt_floor p) as Hlt. rewrite inject_Z_plus in Hlt.
  change (inject_Z 1) with 1%Q in Hlt.
  assert (Hf0 : 0 <= Qfloor p).
  { change 0 with (Qfloor 0). apply Qfloor_resp_le. exact Hp0. }
  assert (Hf1 : Qfloor p <= n - 1).
  { rewrite <- (Qfloor_Z (n - 1)). apply Qfloor_resp_le. exact Hp1. }
  repeat split; try assumption; lra.
Qed.

(** [at] is the interpolation of the specification. *)
Lemma at_exact_interpolate (s : list Z) (q : Q) :
  s <> [] -> (0 <= q)%Q -> (q <= 1)%Q ->
  at_ exact s q == interpolate s q.
Proof.
  intros Hs H0 H1. rewrite (at_exact_position s q Hs H0).
  unfold at_position, interpolate.
  assert (Hn : 1 <= Z.of_nat (length s)) by (destruct s; [congruence | simpl; lia]).
  destruct (position_bounds (Z.of_nat (length s)) q Hn H0 H1)
    as (Hp0 & Hp1 & (Hf0 & Hf1) & Hfr0 & Hfr1).
  set (n := Z.of_nat (length s)) in *.
  set (p := (q * inject_Z (n - 1))%Q) in *.
  cbv zeta.
  pose proof (Qle_ceiling p) as Hc1. pose proof (Qceiling_lt p) as Hc2.
  pose proof (Qfloor_le p) as Hl1. pose proof (Qlt_floor p) as Hl2.
  destruct (Qeq_dec p (inject_Z (Qfloor p))) as [Hint | Hfrac].
  - (* the position is an integer: the weight of the upper neighbour is 0 *)
    assert (Hz : (p - inject_Z (Qfloor p) == 0)%Q) by (rewrite <- Hint; ring).
    set (f := (p - inject_Z (Qfloor p))%Q) in *.
    rewrite Hz. field.
  - (* otherwise the ceiling is the next index, and it is inside the vector *)
    assert (Hlt : (inject_Z (Qfloor p) < p)%Q).
    { apply Qle_lteq in Hl1. destruct Hl1 as [Hl1 | Hl1]; [exact Hl1|].
      exfalso. apply Hfrac. symmetry. exact Hl1. }
    assert (Hceil : Qceiling p = Qfloor p + 1).
    { assert (Qfloor p < Qceiling p).
      { rewrite Zlt_Qlt. apply Qlt_le_trans with p; assumption. }
      assert (Qceiling p - 1 < Qfloor p + 1).
      { rewrite Zlt_Qlt. apply Qlt_trans with p; assumption. }
      lia. }
    assert (Hin : Qfloor p + 1 <= n - 1).
    { assert (Qfloor p < n - 1); [|lia].
      rewrite Zlt_Qlt. apply Qlt_le_trans with p; assumption. }
    rewrite Hceil, Z.min_l by exact Hin. reflexivity.
Qed.

(** ** C5: the percentiles are the interpolated order statistics *)

(** C5, as the specification states it, fails on the numbers the code
    computes with.  For the latencies 0, 1000 and 6000 ns the position of
    the 95th percentile is [0.95 * 2], the interpolation between 1000 and
    6000 with weight 0.9 is 5500 ns, and 5.5 microseconds is a binary64
    number; the code returns the number below it, [5.5 - 2^-50], because
    the literal 0.95, the position, the weights, the two products and the
    sum are rounded one after the other. *)
Lemma percentiles_binary64_not_interpolated :
  let result := computePercentiles binary64 [6000; 0; 1000] [] in
  let p95 := nth 2 (map snd (snd result)) PrimFloat.zero in
  fst result = [0; 1000; 6000] /\
  interpolate [0; 1000; 6000] (95 # 100) == 11 # 2 /\
  FloatOps.Prim2SF (lit binary64 11 2)
  = SpecFloat.S754_finite false 6192449487634432 (-50) /\
  FloatOps.Prim2SF p95 = SpecFloat.S754_finite false 6192449487634431 (-50) /\
  Qeq_bool (b64_to_Q p95) (11 # 2) = false /\
  PrimFloat.ltb p95 (lit binary64 11 2) = true.
Proof. vm_compute. repeat split; reflexivity. Qed.

(** C5 (amended): on an empty snapshot [computePercentiles] leaves the
    result empty, whatever the arithmetic.  On a non-empty snapshot it
    sorts the values in ascending order and appends one pair per quantile
    0.50, 0.90, 0.95, 0.99, 0.999, in that order.  The value that the
    code computes, in binary64, is the formula
    [(x[i] * (1 - f) + x[i2] * f) / 1000] with [p = q * (n - 1)], [i] the
    integer part of [p], [i2 = min (i + 1, n - 1)] and [f = p - i], every
    operation rounded to the nearest binary64 number; where the position
    is an integer no rounding enters before the division: for an odd
    number [2 m + 1] of samples the 50th percentile is the middle sample,
    converted to binary64, divided by 1000.  Read on the rationals the
    formula is the interpolation between the order statistics at the
    floor and the ceiling of [p], weighted by the fractional part of
    [p], divided by 1000. *)
Theorem computePercentiles_interpolates :
  forall (A : Arith) (data : list Z),
    computePercentiles A [] [] = ([], []) /\
    (data <> [] ->
       fst (computePercentiles A data []) = std_sort data /\
       map fst (snd (computePercentiles A data [])) = pcts A /\
       StronglySorted Z.le (std_sort data) /\
       Permutation (std_sort data) data /\
       (Z.of_nat (length data) <= 2 ^ 64 ->
        snd (computePercentiles binary64 data [])
        = map (fun q => (q, interpolate_b64 (std_sort data) q)) (pcts binary64)) /\
       (forall m : nat,
          length data = (2 * m + 1)%nat ->
          Z.of_nat (length data) <= 2 ^ 53 ->
          (forall x, In x data -> 0 <= x < 2 ^ 64) ->
          nth_error (snd (computePercentiles binary64 data [])) 0
          = Some (lit binary64 5 10,
                  PrimFloat.div (b64_of_Z (nth m (std_sort data) 0))
                    (lit binary64 1000 1))) /\
       Forall2 (fun q r => fst r = q /\ snd r == interpolate (std_sort data) q)
         quantiles (snd (computePercentiles exact data []))).
Proof.
  intros A data. split; [reflexivity|]. intros Hne.
  destruct data as [|x t]; [congruence|].
  assert (Hs : std_sort (x :: t) <> []).
  { intros E. pose proof (std_sort_length (x :: t)) as Hl. rewrite E in Hl. discriminate Hl. }
  split; [reflexivity|]. split; [reflexivity|].
  split; [apply std_sort_sorted|]. split; [apply std_sort_perm|].
  split; [| split].
  - intros Hn. unfold computePercentiles. cbn [snd app].
    apply map_ext_in. intros q Hq. f_equal.
    change (insert_sorted x (std_sort t)) with (std_sort (x :: t)).
    apply at_binary64_formula; [exact Hs | | apply pcts_binary64_nonneg, Hq].
    rewrite std_sort_length. exact Hn.
  - intros m Hlen Hn Hu. unfold computePercentiles. cbn [snd app pcts map nth_error].
    change (insert_sorted x (std_sort t)) with (std_sort (x :: t)).
    rewrite (at_binary64_median (std_sort (x :: t)) m).
    + reflexivity.
    + rewrite std_sort_length. exact Hlen.
    + intros y Hy. apply Hu. apply (Permutation_in _ (std_sort_perm (x :: t)) Hy).
    + rewrite std_sort_length. exact Hn.
  - unfold computePercentiles, quantiles, pcts.
    cbn [snd app map lit exact fst].
    repeat (constructor; [split; [reflexivity|];
                          apply (at_exact_interpolate _ _ Hs);
                          unfold Qle; simpl; lia |]).
    constructor.
Qed.

Lemma computePercentiles_interpolates_witness :
  [3000; 1000; 2000] <> [] /\
  Z.of_nat (length [3000; 1000; 2000]) <= 2 ^ 53 /\
  (forall x, In x [3000; 1000; 2000] -> 0 <= x < 2 ^ 64) /\
  fst (computePercentiles exact [3000; 1000; 2000] []) = [1000; 2000; 3000] /\
  snd (computePercentiles binary64 [3000; 1000; 2000] [])
  = map (fun q => (q, interpolate_b64 (std_sort [3000; 1000; 2000]) q)) (pcts binary64) /\
  nth_error (snd (computePercentiles binary64 [3000; 1000; 2000] [])) 0
  = Some (lit binary64 5 10,
          PrimFloat.div (b64_of_Z (nth 1 (std_sort [3000; 1000; 2000]) 0))
            (lit binary64 1000 1)) /\
  Forall2 (fun q r => fst r = q /\ snd r == interpolate [1000; 2000; 3000] q)
    quantiles (snd (computePercentiles exact [3000; 1000; 2000] [])).
Proof.
  assert (Hne : [3000; 1000; 2000] <> []) by discriminate.
  assert (H53 : Z.of_nat (length [3000; 1000; 2000]) <= 2 ^ 53) by (vm_compute; discriminate).
  assert (H64 : Z.of_nat (length [3000; 1000; 2000]) <= 2 ^ 64) by (vm_compute; discriminate).
  assert (Hu : forall x, In x [3000; 1000; 2000] -> 0 <= x < 2 ^ 64).
  { intros x [<- | [<- | [<- | []]]]; split; (lia || reflexivity). }
  split; [exact Hne|]. split; [exact H53|]. split; [exact Hu|].
  destruct (computePercentiles_interpolates exact [3000; 1000; 2000])
    as (_ & Hres).
  destruct (Hres Hne) as (Hfst & _ & _ & _ & Hb64 & Hmed & Hall).
  split; [exact Hfst|]. split; [exact (Hb64 H64)|].
  split; [exact (Hmed 1%nat eq_refl H53 Hu) | exact Hall].
Defined.

(** The same run in the two arithmetics: the median of 1, 2 and 3
    microseconds, and the 90th percentile, 2.8 microseconds, which has no
    binary representation. *)
Example percentiles_exact_run :
  map (fun r => Qred (snd r)) (snd (computePercentiles exact [3000; 1000; 2000] []))
  = [2; 14 # 5; 29 # 10; 149 # 50; 1499 # 500]%Q.
Proof. vm_compute. reflexivity. Qed.

Example percentiles_binary64_run :
  map (fun r => FloatOps.Prim2SF (snd r))
    (firstn 2 (snd (computePercentiles binary64 [3000; 1000; 2000] [])))
  = [SpecFloat.S754_finite false 4503599627370496 (-51);
     SpecFloat.S754_finite false 6305039478318694 (-51)].
Proof. vm_compute. reflexivity. Qed.

(** On latencies of a few microseconds the two arithmetics agree to
    within 10^-12 microseconds. *)
Example percentiles_binary64_close :
  forallb (fun d => Qle_bool (Qabs d) (1 # 1000000000000))
    (map (fun r => (b64_to_Q (snd (fst r)) - snd (snd r))%Q)
       (combine (snd (computePercentiles binary64 [3000; 1000; 2000; 5000; 4000] []))
                (snd (computePercentiles exact [3000; 1000; 2000; 5000; 4000] []))))
  = true.
Proof. vm_compute. reflexivity. Qed.

(** ** C6: order of the percentiles *)

Lemma at_position_integer (s : list Z) (p : Q) (k : Z) :
  p == inject_Z k -> at_position s p == inject_Z (nth (Z.to_nat k) s 0).
Proof.
  intros Hp. unfold at_position. cbv zeta.
  assert (Hfl : Qfloor p = k) by (rewrite Hp; apply Qfloor_Z).
  rewrite Hfl.
  assert (Hz : (p - inject_Z k == 0)%Q) by (rewrite Hp; ring).
  set (f := (p - inject_Z k)%Q) in *. rewrite Hz. ring.
Qed.

(** In exact arithmetic the interpolation is monotone in the position. *)
Lemma at_position_monotone (s : list Z) (p1 p2 : Q) :
  StronglySorted Z.le s -> s <> [] ->
  (0 <= p1)%Q -> (p1 <= p2)%Q -> (p2 <= inject_Z (Z.of_nat (length s) - 1))%Q ->
  (at_position s p1 <= at_position s p2)%Q.
Proof.
  intros Hs Hne H0 H12 H2.
  assert (Hn : 1 <= Z.of_nat (length s)) by (destruct s; [congruence | simpl; lia]).
  unfold at_position. cbv zeta.
  set (n := Z.of_nat (length s)) in *.
  pose proof (Qfloor_le p1) as Hl1. pose proof (Qlt_floor p1) as Hu1.
  pose proof (Qfloor_le p2) as Hl2. pose proof (Qlt_floor p2) as Hu2.
  rewrite inject_Z_plus in Hu1, Hu2. change (inject_Z 1) with 1%Q in Hu1, Hu2.
  assert (Hi0 : 0 <= Qfloor p1) by (change 0 with (Qfloor 0); apply Qfloor_resp_le; exact H0).
  assert (Hi12 : Qfloor p1 <= Qfloor p2) by (apply Qfloor_resp_le; exact H12).
  assert (Hi2 : Qfloor p2 <= n - 1) by (rewrite <- (Qfloor_Z (n - 1)); apply Qfloor_resp_le; exact H2).
  set (i1 := Qfloor p1) in *. set (i2 := Qfloor p2) in *.
  assert (Hnth : forall i j, 0 <= i -> i <= j -> j <= n - 1 ->
                   (inject_Z (nth (Z.to_nat i) s 0%Z) <= inject_Z (nth (Z.to_nat j) s 0%Z))%Q).
  { intros i j Hi Hij Hj. rewrite <- Zle_Qle. apply sorted_nth_le; [exact Hs|]. unfold n in *. lia. }
  pose proof (Hnth i1 (Z.min (i1 + 1) (n - 1)) Hi0 ltac:(lia) ltac:(lia)) as Hab1.
  pose proof (Hnth i2 (Z.min (i2 + 1) (n - 1)) ltac:(lia) ltac:(lia) ltac:(lia)) as Hab2.
  destruct (Z.eq_dec i1 i2) as [E | N].
  - rewrite <- E in *.
    set (a := inject_Z (nth (Z.to_nat i1) s 0)) in *.
    set (b := inject_Z (nth (Z.to_nat (Z.min (i1 + 1) (n - 1))) s 0)) in *.
    set (c := inject_Z i1) in *. nra.
  - pose proof (Hnth (Z.min (i1 + 1) (n - 1)) i2 ltac:(lia) ltac:(lia) ltac:(lia)) as Hba.
    set (a1 := inject_Z (nth (Z.to_nat i1) s 0)) in *.
    set (b1 := inject_Z (nth (Z.to_nat (Z.min (i1 + 1) (n - 1))) s 0)) in *.
    set (a2 := inject_Z (nth (Z.to_nat i2) s 0)) in *.
    set (b2 := inject_Z (nth (Z.to_nat (Z.min (i2 + 1) (n - 1))) s 0)) in *.
    set (c1 := inject_Z i1) in *. set (c2 := inject_Z i2) in *.
    apply Qle_trans with b1; [nra|]. apply Qle_trans with a2; [exact Hba | nra].
Qed.

Lemma at_exact_monotone (s : list Z) (q1 q2 : Q) :
  StronglySorted Z.le s -> s <> [] ->
  (0 <= q1)%Q -> (q1 <= q2)%Q -> (q2 <= 1)%Q ->
  (at_ exact s q1 <= at_ exact s q2)%Q.
Proof.
  intros Hs Hne H0 H12 H1.
  assert (Hn : 1 <= Z.of_nat (length s)) by (destruct s; [congruence | simpl; lia]).
  assert (Hm : (0 <= inject_Z (Z.of_nat (length s) - 1))%Q)
    by (change 0%Q with (inject_Z 0); rewrite <- Zle_Qle; lia).
  rewrite (at_exact_position s q1 Hne H0).
  rewrite (at_exact_position s q2 Hne (Qle_trans _ _ _ H0 H12)).
  unfold Qdiv. apply Qmult_le_compat_r; [| unfold Qle; simpl; lia].
  apply at_position_monotone; try assumption.
  - apply Qmult_le_0_compat; assumption.
  - apply Qmult_le_compat_r; assumption.
  - rewrite <- (Qmult_1_l (inject_Z (Z.of_nat (length s) - 1))) at 2.
    apply Qmult_le_compat_r; assumption.
Qed.

(** C6, as the specification states it, fails on the numbers the code
    computes with.  For the two latencies 80475207254445 and
    80475207254446 ns the products and the sum of
    [a * (1 - frac) + b * frac] are rounded to multiples of 1/64: before
    the division by 1000 the 99th percentile comes out as
    80475207254446 ns exactly and the 99.9th as 80475207254445.984375 ns,
    below it; the two results, in microseconds, are 5274023182627373 and
    5274023182627372 times 2^-16. *)
Lemma percentiles_binary64_out_of_order :
  let result := map snd (snd (computePercentiles binary64
                                [80475207254445; 80475207254446] [])) in
  nondecreasing binary64 result = false /\
  map FloatOps.Prim2SF (skipn 3 result)
  = [SpecFloat.S754_finite false 5274023182627373 (-16);
     SpecFloat.S754_finite false 5274023182627372 (-16)].
Proof. vm_compute. split; reflexivity. Qed.

(** C6 (amended): for every non-empty input the five values are
    non-decreasing when the interpolation is evaluated in exact
    arithmetic.  The formula at quantile 0 gives the least sample and at
    quantile 1 the greatest sample, in microseconds: exactly so in exact
    arithmetic, and in the binary64 arithmetic of the code as the sample
    converted to binary64 and divided by 1000, for 64-bit samples and at
    most [2^53] of them. *)
Theorem percentiles_order_and_extremes :
  forall data : list Z,
    data <> [] ->
    nondecreasing exact (map snd (snd (computePercentiles exact data []))) = true /\
    let least := nth 0 (std_sort data) 0 in
    let greatest := nth (length data - 1) (std_sort data) 0 in
      In least data /\ (forall x, In x data -> least <= x) /\
      In greatest data /\ (forall x, In x data -> x <= greatest) /\
      at_ exact (std_sort data) (lit exact 0 1) == inject_Z least / 1000 /\
      at_ exact (std_sort data) (lit exact 1 1) == inject_Z greatest / 1000 /\
      ((forall x, In x data -> 0 <= x < 2 ^ 64) ->
       Z.of_nat (length data) <= 2 ^ 53 ->
       at_ binary64 (std_sort data) (lit binary64 0 1)
       = ddiv binary64 (of_uint binary64 least) (lit binary64 1000 1) /\
       at_ binary64 (std_sort data) (lit binary64 1 1)
       = ddiv binary64 (of_uint binary64 greatest) (lit binary64 1000 1)).
Proof.
  intros data Hne.
  pose proof (std_sort_sorted data) as Hs.
  pose proof (std_sort_perm data) as Hp.
  assert (Hsne : std_sort data <> []).
  { intros E. rewrite E in Hp. apply Permutation_nil in Hp. congruence. }
  assert (Hlen : (0 < length (std_sort data))%nat)
    by (destruct (std_sort data); [congruence | simpl; lia]).
  split.
  - destruct data as [|x t]; [congruence|].
    unfold computePercentiles, pcts. cbn [snd app map lit exact fst nondecreasing dleb].
    repeat (apply andb_true_intro; split);
      try reflexivity;
      apply Qle_bool_iff; apply (at_exact_monotone _ _ _ Hs Hsne);
      unfold Qle; simpl; lia.
  - cbv zeta. rewrite <- (std_sort_length data).
    split; [apply (Permutation_in _ Hp); apply nth_In; exact Hlen|].
    split.
    { intros x Hx. apply sorted_first_least; [exact Hs|].
      apply (Permutation_in _ (Permutation_sym Hp)). exact Hx. }
    split; [apply (Permutation_in _ Hp); apply nth_In; lia|].
    split.
    { intros x Hx. apply sorted_last_greatest; [exact Hs|].
      apply (Permutation_in _ (Permutation_sym Hp)). exact Hx. }
    split.
    { rewrite (at_exact_position _ _ Hsne) by (unfold Qle; simpl; lia).
      rewrite (at_position_integer _ _ 0); [reflexivity|].
      change (lit exact 0 1) with 0%Q. change (inject_Z 0) with 0%Q. ring. }
    split.
    { rewrite (at_exact_position _ _ Hsne) by (unfold Qle; simpl; lia).
      rewrite (at_position_integer _ _ (Z.of_nat (length (std_sort data)) - 1)).
      * replace (Z.to_nat (Z.of_nat (length (std_sort data)) - 1))
          with (length (std_sort data) - 1)%nat by lia.
        reflexivity.
      * change (lit exact 1 1) with 1%Q. ring. }
    intros Hu Hn.
    assert (Hu' : forall x, In x (std_sort data) -> 0 <= x < 2 ^ 64).
    { intros x Hx. apply Hu. apply (Permutation_in _ Hp Hx). }
    pose proof Hn as Hn'.
    split.
    + apply at_binary64_quantile_0; [exact Hsne | exact Hu' |].
      apply Z.le_trans with (2 ^ 53); [exact Hn' | discriminate].
    + apply at_binary64_quantile_1; assumption.
Qed.

Lemma percentiles_order_and_extremes_witness :
  [80475207254445; 80475207254446] <> [] /\
  (forall x, In x [80475207254445; 80475207254446] -> 0 <= x < 2 ^ 64) /\
  Z.of_nat (length [80475207254445; 80475207254446]) <= 2 ^ 53 /\
  nondecreasing exact
    (map snd (snd (computePercentiles exact [80475207254445; 80475207254446] []))) = true /\
  at_ binary64 (std_sort [80475207254445; 80475207254446]) (lit binary64 1 1)
  = ddiv binary64 (of_uint binary64 80475207254446) (lit binary64 1000 1).
Proof.
  assert (Hne : [80475207254445; 80475207254446] <> []) by discriminate.
  assert (Hu : forall x, In x [80475207254445; 80475207254446] -> 0 <= x < 2 ^ 64).
  { intros x [<- | [<- | []]]; split; (lia || reflexivity). }
  assert (Hn : Z.of_nat (length [80475207254445; 80475207254446]) <= 2 ^ 53)
    by (vm_compute; discriminate).
  split; [exact Hne|]. split; [exact Hu|]. split; [exact Hn|].
  destruct (percentiles_order_and_extremes [80475207254445; 80475207254446] Hne)
    as (Hord & _ & _ & _ & _ & _ & _ & Hb64).
  split; [exact Hord|].
  exact (proj2 (Hb64 Hu Hn)).
Defined.

(** ** C4: the producer after a failed send *)

(** One iteration with random payload, on messages of 22 bytes: the
    header, one word of the generator written least significant byte
    first, and two bytes that the loop does not reach. *)
Example producer_random_payload :
  let cfg := mkConfig String.EmptyString 5 22 1024 1 1 true true false true 100000 1
               String.EmptyString in
  map (fun it => (it_message it, it_sleep_us it, sentMessages (p_stats (it_state it))))
    (producerThread cfg (fun k => 16909060 + Z.of_nat k) stats0
       [(100, SendOk); (200, SendFailed ETIMEDOUT); (300, SendFailed 90)])
  = [(mkMessage (Some (mkHeader 0 100)) [4; 3; 2; 1; 0; 0], None, 1);
     (mkMessage (Some (mkHeader 1 200)) [5; 3; 2; 1; 0; 0], Some 50, 1);
     (mkMessage (Some (mkHeader 2 300)) [6; 3; 2; 1; 0; 0], Some 100, 1)].
Proof. reflexivity. Qed.

(** C4, as the specification states it, fails: the loop writes a new
    sequence number and a new timestamp into the header at the start of
    every iteration, also after a failed send.  Here the first send fails
    with [EAGAIN] and the second succeeds: the message with sequence 0 is
    never sent again, the next message has sequence 1 and the timestamp
    of its own iteration, and the 16 bytes given to [mq_timedsend] are
    not the 16 bytes of the failed call. *)
Lemma producer_builds_new_message_after_failure :
  let run := producerThread cfg16 (fun _ => 0) stats0
               [(100, SendFailed EAGAIN); (200, SendOk)] in
  map it_message run
  = [mkMessage (Some (mkHeader 0 100)) []; mkMessage (Some (mkHeader 1 200)) []] /\
  map it_sleep_us run = [Some 50; None] /\
  nth 1 (map it_message run) (mkMessage None []) <> nth 0 (map it_message run) (mkMessage None []) /\
  map mq_timedsend_bytes run
  = [[0; 0; 0; 0; 0; 0; 0; 0; 100; 0; 0; 0; 0; 0; 0; 0];
     [1; 0; 0; 0; 0; 0; 0; 0; 200; 0; 0; 0; 0; 0; 0; 0]].
Proof.
  cbv zeta. split; [reflexivity|]. split; [reflexivity|]. split; [| reflexivity].
  cbn. intros H. discriminate H.
Qed.

(** What one iteration leaves in the header, the buffer, the sequence
    counter and the counters. *)
Lemma producerIter_header (cfg : Config) (rng : nat -> Z) (st : ProducerState)
    (now : Z) (ret : SendResult) :
  header (it_message (producerIter cfg rng st now ret))
  = match header (p_buffer st) with
    | Some _ => Some (mkHeader (p_seq st) now)
    | None => None
    end.
Proof.
  unfold producerIter.
  destruct (header (p_buffer st)); destruct (randomPayload cfg);
    try destruct (fill_random _ _ _ _ _ _ _);
    destruct ret as [|e]; try destruct (would_block e); reflexivity.
Qed.

Lemma producerIter_buffer (cfg : Config) (rng : nat -> Z) (st : ProducerState)
    (now : Z) (ret : SendResult) :
  p_buffer (it_state (producerIter cfg rng st now ret))
  = it_message (producerIter cfg rng st now ret).
Proof.
  unfold producerIter.
  destruct (header (p_buffer st)); destruct (randomPayload cfg);
    try destruct (fill_random _ _ _ _ _ _ _);
    destruct ret as [|e]; try destruct (would_block e); reflexivity.
Qed.

Lemma producerIter_seq (cfg : Config) (rng : nat -> Z) (st : ProducerState)
    (now : Z) (ret : SendResult) :
  p_seq (it_state (producerIter cfg rng st now ret))
  = match header (p_buffer st) with
    | Some _ => wrap64 (p_seq st + 1)
    | None => p_seq st
    end.
Proof.
  unfold producerIter.
  destruct (header (p_buffer st)); destruct (randomPayload cfg);
    try destruct (fill_random _ _ _ _ _ _ _);
    destruct ret as [|e]; try destruct (would_block e); reflexivity.
Qed.

Lemma producerIter_stats (cfg : Config) (rng : nat -> Z) (st : ProducerState)
    (now errno : Z) :
  p_stats (it_state (producerIter cfg rng st now (SendFailed errno)))
  = if would_block errno then add_sendEagain (p_stats st) else add_sendErrors (p_stats st).
Proof.
  unfold producerIter.
  destruct (header (p_buffer st)); destruct (randomPayload cfg);
    try destruct (fill_random _ _ _ _ _ _ _);
    destruct (would_block errno); reflexivity.
Qed.

Lemma producerIter_sleep (cfg : Config) (rng : nat -> Z) (st : ProducerState)
    (now errno : Z) :
  it_sleep_us (producerIter cfg rng st now (SendFailed errno))
  = Some (if would_block errno then 50 else 100).
Proof.
  unfold producerIter.
  destruct (header (p_buffer st)); destruct (randomPayload cfg);
    try destruct (fill_random _ _ _ _ _ _ _);
    destruct (would_block errno); reflexivity.
Qed.

(** Without random payload the bytes behind the header stay. *)
Lemma producerIter_plain (cfg : Config) (rng : nat -> Z) (st : ProducerState)
    (now : Z) (ret : SendResult) :
  randomPayload cfg = false ->
  payload (it_message (producerIter cfg rng st now ret)) = payload (p_buffer st).
Proof.
  intros Hrp. unfold producerIter. rewrite Hrp.
  destruct (header (p_buffer st));
    destruct ret as [|e]; try destruct (would_block e); reflexivity.
Qed.

Lemma producerIter_length (cfg : Config) (rng : nat -> Z) (st : ProducerState)
    (now : Z) (ret : SendResult) :
  it_length (producerIter cfg rng st now ret) = send_length cfg.
Proof.
  unfold producerIter.
  destruct (header (p_buffer st)); destruct (randomPayload cfg);
    try destruct (fill_random _ _ _ _ _ _ _);
    destruct ret as [|e]; try destruct (would_block e); reflexivity.
Qed.

(** *** The producer over a whole run *)

Lemma wrap64_add_l (a b : Z) : wrap64 (wrap64 a + b) = wrap64 (a + b).
Proof. unfold wrap64. apply Z.add_mod_idemp_l. unfold U64_MOD. lia. Qed.

Lemma last_cons_default {A : Type} (l : list A) :
  forall a d, last (a :: l) d = last l a.
Proof.
  induction l as [|b l IH]; intros a d; [reflexivity|].
  change (last (a :: b :: l) d) with (last (b :: l) d).
  rewrite (IH b d). symmetry. apply IH.
Qed.

Lemma producerEnd_cons (cfg : Config) (rng : nat -> Z) (st : ProducerState)
    (now : Z) (ret : SendResult) (rest : list (Z * SendResult)) :
  producerEnd cfg rng st ((now, ret) :: rest)
  = producerEnd cfg rng (it_state (producerIter cfg rng st now ret)) rest.
Proof. unfold producerEnd. cbn [producerLoop map]. apply last_cons_default. Qed.

Lemma producerLoop_nth (cfg : Config) (rng : nat -> Z) (steps : list (Z * SendResult)) :
  forall st k now ret,
    nth_error steps k = Some (now, ret) ->
    nth_error (producerLoop cfg rng st steps) k
    = Some (producerIter cfg rng (producerEnd cfg rng st (firstn k steps)) now ret).
Proof.
  induction steps as [|[n0 r0] rest IH]; intros st k now ret Hk.
  - destruct k; discriminate.
  - destruct k as [|k].
    + injection Hk as <- <-. reflexivity.
    + cbn [nth_error] in Hk. cbn [producerLoop nth_error firstn].
      rewrite producerEnd_cons. apply IH. exact Hk.
Qed.

Lemma count_cons {A : Type} (f : A -> bool) (x : A) (l : list A) :
  count f (x :: l) = (if f x then 1 else 0) + count f l.
Proof. unfold count. cbn [filter]. destruct (f x); cbn [length]; lia. Qed.

Lemma producerIter_stats_ok (cfg : Config) (rng : nat -> Z) (st : ProducerState)
    (now : Z) :
  p_stats (it_state (producerIter cfg rng st now SendOk))
  = add_sent (p_stats st) (messageSize cfg).
Proof.
  unfold producerIter.
  destruct (header (p_buffer st)); destruct (randomPayload cfg);
    try destruct (fill_random _ _ _ _ _ _ _); reflexivity.
Qed.

Lemma producer_stats_run (cfg : Config) (rng : nat -> Z) (steps : list (Z * SendResult)) :
  forall st,
    is_u64 (sentMessages (p_stats st)) -> is_u64 (sentBytes (p_stats st)) ->
    is_u64 (sendErrors (p_stats st)) -> is_u64 (sendEagain (p_stats st)) ->
    p_stats (producerEnd cfg rng st steps)
    = mkStats
        (wrap64 (sentMessages (p_stats st) + count send_ok steps))
        (wrap64 (sentBytes (p_stats st) + messageSize cfg * count send_ok steps))
        (recvMessages (p_stats st)) (recvBytes (p_stats st))
        (wrap64 (sendErrors (p_stats st) + count send_failed steps))
        (recvErrors (p_stats st))
        (wrap64 (sendEagain (p_stats st) + count send_blocked steps))
        (recvEagain (p_stats st)).
Proof.
  induction steps as [|[now ret] rest IH]; intros st H1 H2 H3 H4.
  - unfold producerEnd, count. cbn [producerLoop map last filter length Z.of_nat].
    rewrite Z.mul_0_r, !Z.add_0_r, !wrap64_small by assumption.
    destruct (p_stats st); reflexivity.
  - rewrite producerEnd_cons, !count_cons.
    change (send_ok (now, ret))
      with (match ret with SendOk => true | SendFailed _ => false end).
    change (send_failed (now, ret))
      with (match ret with SendOk => false | SendFailed e => negb (would_block e) end).
    change (send_blocked (now, ret))
      with (match ret with SendOk => false | SendFailed e => would_block e end).
    destruct ret as [|errno].
    + rewrite IH; rewrite producerIter_stats_ok;
        cbn [add_sent sentMessages sentBytes recvMessages recvBytes sendErrors
             recvErrors sendEagain recvEagain]; try apply wrap64_is_u64; try assumption.
      rewrite !wrap64_add_l. f_equal; f_equal; lia.
    + rewrite IH; rewrite producerIter_stats; destruct (would_block errno);
        cbn [add_sendEagain add_sendErrors sentMessages sentBytes recvMessages recvBytes
             sendErrors recvErrors sendEagain recvEagain negb];
        try apply wrap64_is_u64; try assumption;
        rewrite ?wrap64_add_l; f_equal; f_equal; lia.
Qed.

Lemma count_partition {A : Type} (f g h : A -> bool) (l : list A) :
  (forall x, (if f x then 1 else 0) + (if g x then 1 else 0) + (if h x then 1 else 0) = 1) ->
  count f l + count g l + count h l = Z.of_nat (length l).
Proof.
  intros Hx. induction l as [|x l IH]; [reflexivity|].
  rewrite !count_cons. specialize (Hx x). cbn [length]. lia.
Qed.

(** *** The buffer *)

Lemma random_words_S (rng : nat -> Z) (first w : nat) :
  random_words rng first (S w)
  = le_bytes 4 (rng first) ++ random_words rng (S first) w.
Proof.
  unfold random_words. cbn [seq flat_map]. rewrite Nat.add_0_r. f_equal.
  rewrite <- seq_shift.
  generalize (seq 0 w) as l. induction l as [|k l IH]; [reflexivity|].
  cbn [map flat_map]. rewrite IH, Nat.add_succ_r. reflexivity.
Qed.

Lemma random_words_length (rng : nat -> Z) (w : nat) :
  forall first, length (random_words rng first w) = (4 * w)%nat.
Proof.
  induction w as [|w IH]; intros first; [reflexivity|].
  rewrite random_words_S, length_app, IH. cbn [le_bytes length]. lia.
Qed.

Lemma set_at_app {A : Type} (pre : list A) (x m : A) (t : list A) :
  set_at (length pre) x (pre ++ m :: t) = pre ++ x :: t.
Proof.
  induction pre as [|a pre IH]; [reflexivity|].
  cbn [length app set_at]. now rewrite IH.
Qed.

(** [memcpy] replaces the bytes at the offset and nothing else. *)
Lemma write_bytes_app (bytes : list Z) :
  forall pre mid post,
    length mid = length bytes ->
    write_bytes (length pre) bytes (pre ++ mid ++ post) = pre ++ bytes ++ post.
Proof.
  induction bytes as [|b bs IH]; intros pre mid post Hl.
  - destruct mid; [reflexivity | discriminate].
  - destruct mid as [|m mid]; [discriminate|].
    cbn [write_bytes app]. rewrite set_at_app.
    replace (S (length pre)) with (length (pre ++ [b]))
      by (rewrite length_app; cbn [length]; lia).
    replace (pre ++ b :: mid ++ post) with ((pre ++ [b]) ++ mid ++ post)
      by (rewrite <- app_assoc; reflexivity).
    rewrite IH by (cbn [length] in Hl; lia).
    rewrite <- app_assoc. reflexivity.
Qed.

(** The loop that fills the payload writes the next values of the
    generator, in order, over the words from the offset on. *)
Lemma fill_random_app (rng : nat -> Z) (size_ : Z) (post : list Z) (fuel : nat) :
  forall i pre mid drawn,
    let w := Z.to_nat ((size_ - i) / 4) in
    (w <= fuel)%nat ->
    length mid = (4 * w)%nat ->
    fill_random fuel rng i size_ (length pre) drawn (pre ++ mid ++ post)
    = (pre ++ random_words rng drawn w ++ post, (drawn + w)%nat).
Proof.
  induction fuel as [|fuel IH]; intros i pre mid drawn w Hw Hl.
  - assert (E : w = 0%nat) by lia. rewrite E in *.
    destruct mid; [|discriminate].
    cbn [fill_random random_words seq flat_map app]. now rewrite Nat.add_0_r.
  - cbn [fill_random]. destruct (Z.leb_spec (i + 4) size_) as [Hle | Hgt].
    + assert (E : w = S (Z.to_nat ((size_ - (i + 4)) / 4))).
      { unfold w. replace (size_ - i) with ((size_ - (i + 4)) + 1 * 4) by lia.
        rewrite Z.div_add by lia.
        rewrite Z2Nat.inj_add by (try apply Z.div_pos; lia). simpl (Z.to_nat 1). lia. }
      set (w' := Z.to_nat ((size_ - (i + 4)) / 4)) in *.
      rewrite E in *.
      assert (Hsplit : mid = firstn 4 mid ++ skipn 4 mid)
        by (symmetry; apply firstn_skipn).
      assert (Hf : length (firstn 4 mid) = 4%nat) by (rewrite length_firstn; lia).
      assert (Hs : length (skipn 4 mid) = (4 * w')%nat) by (rewrite length_skipn; lia).
      rewrite Hsplit, <- (app_assoc (firstn 4 mid)).
      rewrite write_bytes_app by (rewrite Hf; reflexivity).
      replace (length pre + 4)%nat with (length (pre ++ le_bytes 4 (rng drawn)))
        by (rewrite length_app; reflexivity).
      replace (pre ++ le_bytes 4 (rng drawn) ++ skipn 4 mid ++ post)
        with ((pre ++ le_bytes 4 (rng drawn)) ++ skipn 4 mid ++ post)
        by (rewrite <- app_assoc; reflexivity).
      rewrite (IH (i + 4) _ (skipn 4 mid) (S drawn)) by (fold w'; lia).
      fold w'. rewrite random_words_S, <- !app_assoc.
      f_equal. lia.
    + assert (E : w = 0%nat).
      { unfold w. assert ((size_ - i) / 4 < 1) by (apply Z.div_lt_upper_bound; lia). lia. }
      rewrite E in *. destruct mid; [|discriminate].
      cbn [random_words seq flat_map app]. now rewrite Nat.add_0_r.
Qed.

Lemma producerIter_fill (cfg : Config) (rng : nat -> Z) (st : ProducerState)
    (now : Z) (ret : SendResult) :
  (payload (it_message (producerIter cfg rng st now ret)),
   p_drawn (it_state (producerIter cfg rng st now ret)))
  = if randomPayload cfg then
      fill_random (Z.to_nat (messageSize cfg)) rng
        (if has_header (p_buffer st) then sizeof_MsgHeader else 0) (messageSize cfg)
        0 (p_drawn st) (payload (p_buffer st))
    else (payload (p_buffer st), p_drawn st).
Proof.
  unfold producerIter, has_header.
  destruct (header (p_buffer st)); destruct (randomPayload cfg);
    try destruct (fill_random _ _ _ _ _ _ _);
    destruct ret as [|errno]; try destruct (would_block errno); reflexivity.
Qed.

Lemma header_size_bounds (cfg : Config) :
  0 <= messageSize cfg -> 0 <= header_size cfg <= messageSize cfg.
Proof.
  unfold header_size, sizeof_MsgHeader.
  destruct (Z.leb_spec 16 (messageSize cfg)); lia.
Qed.

Lemma payload_split (cfg : Config) :
  0 <= messageSize cfg ->
  Z.to_nat (messageSize cfg - header_size cfg)
  = (4 * payload_words cfg + payload_rest cfg)%nat.
Proof.
  intros Hs. pose proof (header_size_bounds cfg Hs) as Hh.
  unfold payload_words, payload_rest.
  set (d := messageSize cfg - header_size cfg) in *.
  pose proof (Z.div_mod d 4 ltac:(lia)) as Hdm.
  pose proof (Z.mod_pos_bound d 4 ltac:(lia)) as Hm.
  assert (0 <= d / 4) by (apply Z.div_pos; lia).
  lia.
Qed.

Lemma payload_after_length (cfg : Config) (rng : nat -> Z) (n : nat) :
  length (payload_after cfg rng n) = (4 * payload_words cfg + payload_rest cfg)%nat.
Proof.
  unfold payload_after. rewrite length_app, repeat_length. f_equal.
  destruct n as [|k]; [apply repeat_length|].
  destruct (randomPayload cfg); [apply random_words_length | apply repeat_length].
Qed.

Lemma producer_inv_initial (cfg : Config) (rng : nat -> Z) (stats : Stats) :
  0 <= messageSize cfg ->
  producer_inv cfg rng 0 (mkProducer (initial_buffer cfg) 0 0 stats).
Proof.
  intros Hs. pose proof (payload_split cfg Hs) as Hp.
  unfold producer_inv, initial_buffer, payload_after, has_header in *.
  unfold header_size in Hp.
  cbn [p_buffer p_seq p_drawn].
  destruct (sizeof_MsgHeader <=? messageSize cfg);
    cbn [header payload]; rewrite ?Z.sub_0_r in Hp; rewrite Hp, repeat_app;
    (split; [reflexivity|]); (split; [reflexivity|]);
    (split; [destruct (randomPayload cfg); reflexivity | reflexivity]).
Qed.

Lemma producer_inv_step (cfg : Config) (rng : nat -> Z) (n : nat) (st : ProducerState)
    (now : Z) (ret : SendResult) :
  0 <= messageSize cfg ->
  producer_inv cfg rng n st ->
  producer_inv cfg rng (S n) (it_state (producerIter cfg rng st now ret)).
Proof.
  intros Hs (Hh & Hq & Hd & Hp).
  pose proof (producerIter_fill cfg rng st now ret) as Hfill.
  pose proof (producerIter_buffer cfg rng st now ret) as Hbuf.
  pose proof (producerIter_header cfg rng st now ret) as Hhdr.
  pose proof (producerIter_seq cfg rng st now ret) as Hseq.
  unfold producer_inv. rewrite Hbuf, Hseq.
  assert (Hh' : has_header (it_message (producerIter cfg rng st now ret))
                = has_header (p_buffer st)).
  { unfold has_header. rewrite Hhdr. destruct (header (p_buffer st)); reflexivity. }
  assert (Hfill' :
    (payload (it_message (producerIter cfg rng st now ret)),
     p_drawn (it_state (producerIter cfg rng st now ret)))
    = (payload_after cfg rng (S n),
       if randomPayload cfg then (S n * payload_words cfg)%nat else 0%nat)).
  { rewrite Hfill, Hd, Hp.
    destruct (randomPayload cfg) eqn:Er.
    - replace (if has_header (p_buffer st) then sizeof_MsgHeader else 0)
        with (header_size cfg) by (rewrite Hh; reflexivity).
      pose proof (header_size_bounds cfg Hs) as Hb.
      assert (Hmid : exists mid, payload_after cfg rng n = mid ++ repeat 0 (payload_rest cfg)
                                 /\ length mid = (4 * payload_words cfg)%nat).
      { unfold payload_after. rewrite Er. destruct n as [|k].
        - eexists. split; [reflexivity | apply repeat_length].
        - eexists. split; [reflexivity | apply random_words_length]. }
      destruct Hmid as (mid & -> & Hlen).
      rewrite (fill_random_app rng (messageSize cfg) (repeat 0 (payload_rest cfg))
                 (Z.to_nat (messageSize cfg)) (header_size cfg) [] mid).
      + cbn [app]. fold (payload_words cfg). f_equal.
        * unfold payload_after. rewrite Er. reflexivity.
        * cbn [Nat.mul]. lia.
      + fold (payload_words cfg). unfold payload_words.
        apply Z2Nat.inj_le; try lia.
        * apply Z.div_pos; lia.
        * apply Z.div_le_upper_bound; lia.
      + exact Hlen.
    - unfold payload_after. rewrite Er. destruct n; reflexivity. }
  injection Hfill' as Hpay Hdr.
  split; [rewrite Hh'; exact Hh|]. split; [| split; [exact Hdr | exact Hpay]].
  unfold has_header in Hh. rewrite Hq.
  destruct (header (p_buffer st)); rewrite <- Hh; [| reflexivity].
  rewrite wrap64_add_l. f_equal. lia.
Qed.

Lemma producer_inv_run (cfg : Config) (rng : nat -> Z) (steps : list (Z * SendResult)) :
  0 <= messageSize cfg ->
  forall n st,
    producer_inv cfg rng n st ->
    producer_inv cfg rng (n + length steps) (producerEnd cfg rng st steps).
Proof.
  intros Hs. induction steps as [|[now ret] rest IH]; intros n st Hinv.
  - rewrite Nat.add_0_r. exact Hinv.
  - rewrite producerEnd_cons. cbn [length]. rewrite Nat.add_succ_r.
    apply (IH (S n)). apply producer_inv_step; assumption.
Qed.

(** The message of iteration [k] of a run, counted from 0. *)
Lemma producer_message (cfg : Config) (rng : nat -> Z) (stats : Stats)
    (steps : list (Z * SendResult)) (k : nat) (now : Z) (ret : SendResult) :
  0 <= messageSize cfg ->
  nth_error steps k = Some (now, ret) ->
  exists it,
    nth_error (producerThread cfg rng stats steps) k = Some it /\
    header (it_message it)
    = (if sizeof_MsgHeader <=? messageSize cfg
       then Some (mkHeader (wrap64 (Z.of_nat k)) now) else None) /\
    payload (it_message it) = payload_after cfg rng (S k).
Proof.
  intros Hs Hk. unfold producerThread.
  set (st0 := mkProducer (initial_buffer cfg) 0 0 stats).
  set (stk := producerEnd cfg rng st0 (firstn k steps)).
  exists (producerIter cfg rng stk now ret).
  split; [apply producerLoop_nth; exact Hk|].
  assert (Hlen : length (firstn k steps) = k).
  { apply firstn_length_le. apply Nat.lt_le_incl. apply nth_error_Some. congruence. }
  pose proof (producer_inv_run cfg rng (firstn k steps) Hs 0 st0
                (producer_inv_initial cfg rng stats Hs)) as Hinv.
  rewrite Hlen in Hinv. cbn [Nat.add] in Hinv. fold stk in Hinv.
  pose proof (producer_inv_step cfg rng k stk now ret Hs Hinv) as (_ & _ & _ & Hpay).
  rewrite producerIter_buffer in Hpay.
  split; [| exact Hpay].
  destruct Hinv as (Hh & Hq & _).
  rewrite producerIter_header, Hq. unfold has_header in Hh.
  destruct (header (p_buffer stk)); rewrite <- Hh; reflexivity.
Qed.

Lemma producerEnd_nil (cfg : Config) (rng : nat -> Z) (st : ProducerState) :
  producerEnd cfg rng st [] = st.
Proof. reflexivity. Qed.

Lemma producerEnd_next (cfg : Config) (rng : nat -> Z) (steps : list (Z * SendResult)) :
  forall st k now ret,
    nth_error steps k = Some (now, ret) ->
    producerEnd cfg rng st (firstn (S k) steps)
    = it_state (producerIter cfg rng (producerEnd cfg rng st (firstn k steps)) now ret).
Proof.
  induction steps as [|[n0 r0] rest IH]; intros st k now ret Hk.
  - destruct k; discriminate.
  - destruct k as [|k].
    + injection Hk as <- <-. cbn [firstn]. rewrite producerEnd_cons. reflexivity.
    + cbn [nth_error] in Hk.
      change (firstn (S (S k)) ((n0, r0) :: rest)) with ((n0, r0) :: firstn (S k) rest).
      change (firstn (S k) ((n0, r0) :: rest)) with ((n0, r0) :: firstn k rest).
      rewrite !producerEnd_cons. apply IH. exact Hk.
Qed.

(** The state before iteration [k] of a run. *)
Lemma producer_inv_before (cfg : Config) (rng : nat -> Z) (stats : Stats)
    (steps : list (Z * SendResult)) (k : nat) (step : Z * SendResult) :
  0 <= messageSize cfg ->
  nth_error steps k = Some step ->
  producer_inv cfg rng k
    (producerEnd cfg rng (mkProducer (initial_buffer cfg) 0 0 stats) (firstn k steps)).
Proof.
  intros Hs Hk.
  assert (Hlen : length (firstn k steps) = k).
  { apply firstn_length_le. apply Nat.lt_le_incl. apply nth_error_Some. congruence. }
  pose proof (producer_inv_run cfg rng (firstn k steps) Hs 0 _
                (producer_inv_initial cfg rng stats Hs)) as Hinv.
  rewrite Hlen in Hinv. exact Hinv.
Qed.

(** The buffer that an iteration builds from the state after [n]
    iterations. *)
Lemma producerIter_message (cfg : Config) (rng : nat -> Z) (n : nat) (st : ProducerState)
    (now : Z) (ret : SendResult) :
  0 <= messageSize cfg ->
  producer_inv cfg rng n st ->
  it_message (producerIter cfg rng st now ret)
  = mkMessage
      (if sizeof_MsgHeader <=? messageSize cfg
       then Some (mkHeader (wrap64 (Z.of_nat n)) now) else None)
      (payload_after cfg rng (S n)).
Proof.
  intros Hs Hinv.
  pose proof (producer_inv_step cfg rng n st now ret Hs Hinv) as (_ & _ & _ & Hpay).
  rewrite producerIter_buffer in Hpay.
  pose proof (producerIter_header cfg rng st now ret) as Hhdr.
  destruct Hinv as (Hh & Hq & _). unfold has_header in Hh. rewrite Hq in Hhdr.
  destruct (it_message (producerIter cfg rng st now ret)) as [h b].
  cbn [header payload] in *. rewrite Hhdr, Hpay.
  destruct (header (p_buffer st)); rewrite <- Hh; reflexivity.
Qed.

Lemma length_le_bytes (n : nat) : forall v, length (le_bytes n v) = n.
Proof. induction n as [|n IH]; intros v; [reflexivity|]. cbn [le_bytes length]. now rewrite IH. Qed.

Lemma wrap64_low_byte (x : Z) : wrap64 x mod 256 = x mod 256.
Proof.
  unfold wrap64, U64_MOD. apply Z.mod_mod_divide.
  exists (2 ^ 56). reflexivity.
Qed.

(** Successive sequence numbers differ, in their lowest byte already. *)
Lemma wrap64_succ_low_byte (x : Z) : wrap64 (x + 1) mod 256 <> wrap64 x mod 256.
Proof.
  rewrite !wrap64_low_byte. intros E.
  pose proof (Z.div_mod x 256 ltac:(lia)) as H1.
  pose proof (Z.div_mod (x + 1) 256 ltac:(lia)) as H2.
  rewrite E in H2. lia.
Qed.

Lemma buffer_bytes_length (m : Message) :
  length (buffer_bytes m) = Z.to_nat (message_size m).
Proof.
  unfold buffer_bytes, message_size, sizeof_MsgHeader.
  destruct (header m); rewrite ?length_app, ?length_le_bytes; cbn [app length]; lia.
Qed.

(** The messages of two successive iterations are the same exactly when
    there is no header and the bytes behind it are not drawn anew, or
    are drawn the same; what is given to [mq_timedsend] is the same
    exactly when the buffers are, or when nothing is given. *)
Lemma successive_messages (cfg : Config) (rng : nat -> Z) (k : nat) (now now' : Z) :
  is_u64 (messageSize cfg) ->
  let w := payload_words cfg in
  let hdr (n : Z) (t : Z) :=
    if sizeof_MsgHeader <=? messageSize cfg then Some (mkHeader (wrap64 n) t) else None in
  let m := mkMessage (hdr (Z.of_nat k) now) (payload_after cfg rng (S k)) in
  let m' := mkMessage (hdr (Z.of_nat k + 1) now') (payload_after cfg rng (S (S k))) in
  (m' = m <->
   messageSize cfg < sizeof_MsgHeader /\
   (randomPayload cfg = false \/
    random_words rng (S k * w) w = random_words rng (k * w) w)) /\
  (firstn (Z.to_nat (send_length cfg)) (buffer_bytes m')
   = firstn (Z.to_nat (send_length cfg)) (buffer_bytes m)
   <-> m' = m \/ send_length cfg = 0).
Proof.
  intros (Hs & Hlt) w hdr m m'.
  assert (Hmsg : m' = m <->
            messageSize cfg < sizeof_MsgHeader /\
            (randomPayload cfg = false \/
             random_words rng (S k * w) w = random_words rng (k * w) w)).
  { subst m m' hdr. cbv beta. unfold payload_after. fold w. split.
    - intros E. injection E as Eh Ep.
      destruct (Z.leb_spec sizeof_MsgHeader (messageSize cfg)) as [Hge | Hsmall].
      + injection Eh as Eseq _. exfalso.
        apply (wrap64_succ_low_byte (Z.of_nat k)). now rewrite Eseq.
      + split; [exact Hsmall|]. apply app_inv_tail in Ep.
        destruct (randomPayload cfg); [right; exact Ep | left; reflexivity].
    - intros (Hsmall & Hpay).
      destruct (Z.leb_spec sizeof_MsgHeader (messageSize cfg)) as [Hge | _]; [lia|].
      f_equal. f_equal.
      destruct (randomPayload cfg); [| reflexivity].
      destruct Hpay as [Hf | Hw]; [discriminate | exact Hw]. }
  split; [exact Hmsg|]. split.
  - intros E.
    destruct (Z.eq_dec (send_length cfg) 0) as [E0 | Hn0]; [right; exact E0 | left].
    assert (Hl : 0 < send_length cfg).
    { unfold send_length in *. pose proof (Z.mod_pos_bound (messageSize cfg) (2 ^ 32)). lia. }
    destruct (Z.to_nat (send_length cfg)) as [|l] eqn:El; [lia|].
    subst m m' hdr. cbv beta in *. unfold buffer_bytes in E. cbn [header payload] in E.
    destruct (Z.leb_spec sizeof_MsgHeader (messageSize cfg)) as [Hge | Hsmall].
    + exfalso. cbn [sequence sendTimeNs le_bytes app firstn] in E.
      injection E as Ebyte _.
      exact (wrap64_succ_low_byte (Z.of_nat k) Ebyte).
    + cbn [app] in E. f_equal.
      assert (Hlen : forall n, length (payload_after cfg rng n) = S l).
      { intros n. rewrite payload_after_length, <- payload_split by exact Hs.
        unfold header_size. unfold sizeof_MsgHeader in *.
        destruct (Z.leb_spec 16 (messageSize cfg)) as [|_]; [lia|].
        rewrite Z.sub_0_r, <- El. unfold send_length.
        rewrite Z.mod_small by lia. reflexivity. }
      rewrite <- (Hlen (S (S k))) in E at 1. rewrite <- (Hlen (S k)) in E.
      rewrite !firstn_all in E. exact E.
  - intros [E | E0]; [now rewrite E | rewrite E0; reflexivity].
Qed.

(** C4 (amended): in a run of the producer, when the send of iteration
    [k] fails, a would-block or timeout failure is counted in
    [sendEagain] and followed by a sleep of 50 microseconds, any other
    failure is counted in [sendErrors] and followed by a sleep of 100
    microseconds, and the sent counters do not move.  The failed message
    is not kept: the next iteration builds the buffer anew, with the next
    sequence number and its own timestamp when the message has a header,
    and with the next words of the generator behind it when the payload
    is random.  The two buffers are the same exactly when
    [messageSize < 16] and the payload is not random or the generator
    gives the same words again; [mq_timedsend] is given the first
    [messageSize mod 2^32] bytes of the buffer, and is given the same
    bytes twice exactly when the buffers are the same or that length
    is 0. *)
Theorem producer_after_failed_send :
  forall (cfg : Config) (rng : nat -> Z) (stats : Stats) (steps : list (Z * SendResult))
         (k : nat) (now errno now' : Z) (ret' : SendResult),
    is_u64 (messageSize cfg) ->
    nth_error steps k = Some (now, SendFailed errno) ->
    nth_error steps (S k) = Some (now', ret') ->
    let before :=
      producerEnd cfg rng (mkProducer (initial_buffer cfg) 0 0 stats) (firstn k steps) in
    let w := payload_words cfg in
    exists it it',
      nth_error (producerThread cfg rng stats steps) k = Some it /\
      nth_error (producerThread cfg rng stats steps) (S k) = Some it' /\
      p_stats (it_state it)
      = (if would_block errno then add_sendEagain (p_stats before)
         else add_sendErrors (p_stats before)) /\
      it_sleep_us it = Some (if would_block errno then 50 else 100) /\
      sentMessages (p_stats (it_state it)) = sentMessages (p_stats before) /\
      sentBytes (p_stats (it_state it)) = sentBytes (p_stats before) /\
      it_message it
      = mkMessage
          (if sizeof_MsgHeader <=? messageSize cfg
           then Some (mkHeader (wrap64 (Z.of_nat k)) now) else None)
          (payload_after cfg rng (S k)) /\
      it_message it'
      = mkMessage
          (if sizeof_MsgHeader <=? messageSize cfg
           then Some (mkHeader (wrap64 (Z.of_nat k + 1)) now') else None)
          (payload_after cfg rng (S (S k))) /\
      it_length it = messageSize cfg mod 2 ^ 32 /\
      it_length it' = messageSize cfg mod 2 ^ 32 /\
      (it_message it' = it_message it <->
       messageSize cfg < sizeof_MsgHeader /\
       (randomPayload cfg = false \/
        random_words rng (S k * w) w = random_words rng (k * w) w)) /\
      (mq_timedsend_bytes it' = mq_timedsend_bytes it <->
       it_message it' = it_message it \/ messageSize cfg mod 2 ^ 32 = 0).
Proof.
  intros cfg rng stats steps k now errno now' ret' Hu Hk Hk' before w.
  pose proof Hu as (Hs & _).
  set (st0 := mkProducer (initial_buffer cfg) 0 0 stats) in *.
  set (it := producerIter cfg rng before now (SendFailed errno)).
  set (it' := producerIter cfg rng (it_state it) now' ret').
  exists it, it'.
  pose proof (producer_inv_before cfg rng stats steps k _ Hs Hk) as Hinv.
  fold st0 in Hinv. fold before in Hinv.
  pose proof (producer_inv_step cfg rng k before now (SendFailed errno) Hs Hinv) as Hinv'.
  fold it in Hinv'.
  pose proof (producerIter_message cfg rng k before now (SendFailed errno) Hs Hinv) as Hm.
  fold it in Hm.
  pose proof (producerIter_message cfg rng (S k) (it_state it) now' ret' Hs Hinv') as Hm'.
  fold it' in Hm'. rewrite Nat2Z.inj_succ in Hm'. unfold Z.succ in Hm'.
  split; [unfold producerThread; apply producerLoop_nth; exact Hk|].
  split.
  { unfold producerThread. fold st0.
    rewrite (producerLoop_nth cfg rng steps st0 (S k) now' ret' Hk').
    rewrite (producerEnd_next cfg rng steps st0 k now (SendFailed errno) Hk).
    reflexivity. }
  split; [apply producerIter_stats|].
  split; [apply producerIter_sleep|].
  split; [unfold it; rewrite producerIter_stats; destruct (would_block errno); reflexivity|].
  split; [unfold it; rewrite producerIter_stats; destruct (would_block errno); reflexivity|].
  split; [exact Hm|]. split; [exact Hm'|].
  split; [apply producerIter_length|]. split; [apply producerIter_length|].
  destruct (successive_messages cfg rng k now now' Hu) as (Hsame & Hsent).
  unfold mq_timedsend_bytes.
  replace (it_length it') with (send_length cfg) by (symmetry; apply producerIter_length).
  replace (it_length it) with (send_length cfg) by (symmetry; apply producerIter_length).
  rewrite Hm, Hm'. split; [exact Hsame | exact Hsent].
Qed.

Lemma producer_after_failed_send_witness :
  let cfg := mkConfig String.EmptyString 5 3 1024 1 1 true true false true 100000 1
               String.EmptyString in
  let steps := [(100, SendFailed 5); (200, SendOk)] in
  is_u64 (messageSize cfg) /\
  exists it it',
    nth_error (producerThread cfg (fun n => Z.of_nat n) stats0 steps) 0 = Some it /\
    nth_error (producerThread cfg (fun n => Z.of_nat n) stats0 steps) 1 = Some it' /\
    it_sleep_us it = Some 100 /\
    sendErrors (p_stats (it_state it)) = 1 /\
    it_message it' = it_message it /\
    mq_timedsend_bytes it' = mq_timedsend_bytes it.
Proof.
  intros cfg steps.
  assert (Hu : is_u64 (messageSize cfg)) by (unfold is_u64, U64_MOD; simpl; lia).
  split; [exact Hu|].
  destruct (producer_after_failed_send cfg (fun n => Z.of_nat n) stats0 steps 0 100 5 200
              SendOk Hu eq_refl eq_refl)
    as (it & it' & H0 & H1 & Hst & Hsl & _ & _ & _ & _ & _ & _ & Hsame & Hsent).
  exists it, it'.
  assert (Hm : it_message it' = it_message it).
  { apply Hsame. split; [unfold sizeof_MsgHeader; simpl; lia | right; reflexivity]. }
  split; [exact H0|]. split; [exact H1|]. split; [exact Hsl|].
  split; [rewrite Hst; reflexivity|]. split; [exact Hm|].
  apply Hsent. left. exact Hm.
Defined.

(** ** C8: the latencies that reach the recorder *)

Lemma latency_sample_some (has_header : bool) (n recvNs sendNs v : Z) :
  is_u64 recvNs -> is_u64 sendNs ->
  latency_sample has_header n recvNs sendNs = Some v ->
  has_header = true /\ sizeof_MsgHeader <= n /\ sendNs <= recvNs /\
  v = recvNs - sendNs /\ 0 <= v.
Proof.
  intros Hr Hs. unfold latency_sample.
  destruct has_header; simpl; [|discriminate].
  destruct (Z.leb_spec sizeof_MsgHeader n) as [Hn | Hn]; [|discriminate].
  destruct (Z.leb_spec sendNs recvNs) as [Hle | Hle]; [|discriminate].
  intros Hv. injection Hv as <-.
  rewrite wrap64_small by (unfold is_u64 in *; lia).
  repeat split; try assumption; lia.
Qed.

(** The buffer after a call holds values of the buffer before it and the
    value of the call, nothing else. *)
Lemma record_members (record : LatencyRecorder -> Z -> Rand LatencyRecorder)
    (r : LatencyRecorder) (v : Z) (draws : list Z) (r' : LatencyRecorder)
    (rest : list Z) :
  is_record record ->
  run (record r v) draws = Some (r', rest) ->
  forall x, In x (samplesNs r') -> x = v \/ In x (samplesNs r).
Proof.
  intros Hrec Hrun x.
  assert (Hcases : samplesNs r' = samplesNs r
                   \/ samplesNs r' = samplesNs r ++ [v]
                   \/ exists p, samplesNs r' = set_at p v (samplesNs r)).
  { revert Hrun.
    destruct Hrec; unfold record_mq, record_gcd, fetch_add_seen; simpl;
      repeat match goal with
             | |- context [if ?b then _ else _] => destruct b
             end; simpl;
      try (intros Hr; injection Hr as <- _; simpl; auto; fail);
      (destruct draws as [|pos ds]; [discriminate|]);
      destruct ((0 <=? pos) && (pos <=? seen r)); try discriminate;
      repeat match goal with
             | |- context [if ?b then _ else _] => destruct b
             end; simpl;
      intros Hr; injection Hr as <- _; simpl; eauto. }
  destruct Hcases as [-> | [-> | (p & ->)]].
  - auto.
  - intros Hx. apply in_app_or in Hx. destruct Hx as [Hx | [<- | []]]; auto.
  - intros Hx. apply in_set_at in Hx. exact Hx.
Qed.

Lemma consumerLoop_latencies (cfg : Config) (steps : list (RecvResult * Z)) :
  forall (all : list (RecvResult * Z)) (st st' : ConsumerState) (draws rest : list Z),
    (forall step, In step steps -> In step all) ->
    Forall (fun step => is_u64 (snd step) /\
                        match fst step with
                        | RecvOk _ sendNs => is_u64 sendNs
                        | RecvFailed _ => True
                        end) steps ->
    run (consumerLoop cfg st steps) draws = Some (st', rest) ->
    forall x, In x (samplesNs (c_recorder st')) ->
              In x (samplesNs (c_recorder st)) \/ latency_of all x.
Proof.
  induction steps as [|[res now] steps IH]; intros all st st' draws rest Hsub Hu64 Hrun x Hx.
  - simpl in Hrun. injection Hrun as <- _. now left.
  - simpl consumerLoop in Hrun. rewrite run_bind in Hrun.
    destruct (run (consumerIter cfg st res now) draws) as [[[st1 sl] d1]|] eqn:E1;
      [|discriminate].
    cbn [fst] in Hrun.
    inversion Hu64 as [|s l (Hnow & Hres) Hrest]; subst. cbn [fst snd] in Hnow, Hres.
    assert (Hsub' : forall step, In step steps -> In step all)
      by (intros step Hs; apply Hsub; now right).
    destruct (IH all st1 st' d1 rest Hsub' Hrest Hrun x Hx) as [Hin1 | Hlat];
      [| now right].
    (* the value was in the buffer after this iteration *)
    destruct res as [n sendNs | errno]; simpl in E1.
    + destruct (latency_sample (sizeof_MsgHeader <=? messageSize cfg) n now sendNs)
        as [v|] eqn:El.
      * rewrite run_bind in E1.
        destruct (run (record_mq (c_recorder st) v) draws) as [[r1 d]|] eqn:Er;
          [|discriminate].
        simpl in E1. injection E1 as <- _ _. cbn [c_recorder] in Hin1.
        destruct (record_members record_mq _ _ _ _ _ is_record_mq Er x Hin1)
          as [-> | Hold]; [| now left].
        right.
        destruct (latency_sample_some _ _ _ _ _ Hnow Hres El) as (_ & Hn & Hle & -> & _).
        exists n, sendNs, now. repeat split; try assumption; try reflexivity.
        apply Hsub. now left.
      * injection E1 as <- _ _. now left.
    + destruct (would_block errno); injection E1 as <- _ _; now left.
Qed.

(** A run of the consumer on a recorder of capacity 2: a message without
    a full header, a message from the future, two messages that fill the
    buffer, a timeout, and a message whose draw replaces position 1. *)
Example consumer_run :
  let cfg := mkConfig String.EmptyString 5 64 1024 1 1 true true false false 2 1
               String.EmptyString in
  run (consumerLoop cfg (mkConsumer stats0 (LatencyRecorder_new 2))
         [(RecvOk 8 10, 500); (RecvOk 64 900, 600); (RecvOk 64 100, 700);
          (RecvOk 64 300, 800); (RecvFailed EAGAIN, 900); (RecvOk 64 500, 950)])
      [1]
  = Some (mkConsumer (mkStats 0 0 5 264 0 0 0 1) (mkRecorder [600; 450] 2 3), []).
Proof. reflexivity. Qed.

(** C8: the consumer, and the completion block of the other program,
    call [record] only for a message that carries a header and whose
    receive time is not before the send time of its header, with the
    difference of the two as the value; the subtraction on [uint64_t]
    does not wrap and the value is [>= 0].  Over a whole run of a
    consumer, every value of the buffer is such a difference or was in
    the buffer before the run. *)
Theorem recorded_latency_nonnegative :
  forall (has_header : bool) (n recvNs sendNs : Z),
    is_u64 recvNs -> is_u64 sendNs ->
    (forall v, latency_sample has_header n recvNs sendNs = Some v ->
       has_header = true /\ sizeof_MsgHeader <= n /\ sendNs <= recvNs /\
       v = recvNs - sendNs /\ 0 <= v) /\
    (has_header = true -> sizeof_MsgHeader <= n -> sendNs <= recvNs ->
       latency_sample has_header n recvNs sendNs = Some (recvNs - sendNs)) /\
    (forall cfg st,
       consumerIter cfg st (RecvOk n sendNs) recvNs
       = match latency_sample (sizeof_MsgHeader <=? messageSize cfg) n recvNs sendNs with
         | Some v => bind (record_mq (c_recorder st) v)
                       (fun r => Ret (mkConsumer (add_recv (c_stats st) n) r, None))
         | None => Ret (mkConsumer (add_recv (c_stats st) n) (c_recorder st), None)
         end) /\
    (forall st,
       gcd_completion st n sendNs recvNs
       = match latency_sample true n recvNs sendNs with
         | Some v => bind (record_gcd (c_recorder st) v)
                       (fun r => Ret (mkConsumer (add_recv (c_stats st) n) r))
         | None => Ret (mkConsumer (add_recv (c_stats st) n) (c_recorder st))
         end) /\
    (forall cfg steps stats cap draws st' rest,
       Forall (fun step => is_u64 (snd step) /\
                           match fst step with
                           | RecvOk _ s => is_u64 s
                           | RecvFailed _ => True
                           end) steps ->
       run (consumerLoop cfg (mkConsumer stats (LatencyRecorder_new cap)) steps) draws
       = Some (st', rest) ->
       forall x, In x (samplesNs (c_recorder st')) -> latency_of steps x /\ 0 <= x).
Proof.
  intros has_header n recvNs sendNs Hr Hs.
  split; [| split; [| split; [| split]]].
  - intros v. apply latency_sample_some; assumption.
  - intros -> Hn Hle. unfold latency_sample. simpl.
    destruct (Z.leb_spec sizeof_MsgHeader n); [|lia].
    destruct (Z.leb_spec sendNs recvNs); [|lia].
    rewrite wrap64_small by (unfold is_u64 in *; lia). reflexivity.
  - reflexivity.
  - reflexivity.
  - intros cfg steps stats cap draws st' rest Hu64 Hrun x Hx.
    destruct (consumerLoop_latencies cfg steps steps _ st' draws rest
                (fun step H => H) Hu64 Hrun x Hx) as [[] | Hlat].
    split; [exact Hlat|].
    destruct Hlat as (m & s & t & _ & _ & Hle & ->). lia.
Qed.

Lemma recorded_latency_nonnegative_witness :
  is_u64 1500 /\ is_u64 1000 /\
  latency_sample true 64 1500 1000 = Some 500 /\
  latency_sample true 64 1000 1500 = None.
Proof.
  assert (H1 : is_u64 1500) by (unfold is_u64, U64_MOD; lia).
  assert (H2 : is_u64 1000) by (unfold is_u64, U64_MOD; lia).
  split; [exact H1|]. split; [exact H2|]. split; [| reflexivity].
  apply (proj1 (proj2 (recorded_latency_nonnegative true 64 1500 1000 H1 H2)));
    [reflexivity | unfold sizeof_MsgHeader; lia | lia].
Defined.

(** ** C9: the exit status *)

Lemma main_mq_invalid (cfg : Config) (env : MainEnv) :
  invalid_config cfg -> status_of (main_mq cfg env) = Some 1.
Proof.
  unfold invalid_config, main_mq. intros H.
  destruct (Z.eqb_spec (messageSize cfg) 0); [reflexivity|].
  destruct (Z.leb_spec (producers cfg) 0); [reflexivity|].
  destruct (Z.leb_spec (consumers cfg) 0); [reflexivity|].
  destruct (Z.leb_spec (durationSeconds cfg) 0); [reflexivity|].
  destruct (Z.leb_spec (maxMessages cfg) 0); [reflexivity|].
  lia.
Qed.

(** [main] behind the checks of the configuration. *)
Lemma main_mq_valid (cfg : Config) (env : MainEnv) :
  ~ invalid_config cfg ->
  main_mq cfg env
  = let start := unlink_if (unlinkAtStart cfg) ++ [MqOpen] in
    if negb (mq_open_ok env) then Exited (start ++ [PerrorMqOpen]) 2
    else if negb (mq_getattr_ok env) then
      Exited (start ++ [MqGetattr; PerrorMqGetattr; MqClose]
                ++ unlink_if (unlinkAtEnd cfg)) 2
    else if negb (recorder_constructed cfg env) then Aborted (start ++ [MqGetattr])
    else if negb (workers_started cfg env) then Aborted (start ++ [MqGetattr])
    else
      Exited (start ++ [MqGetattr; RunWorkers; PrintSummary] ++ write_csv cfg env
                ++ unlink_if (unlinkAtEnd cfg) ++ [MqClose]) 0.
Proof.
  unfold invalid_config, main_mq. intros H.
  destruct (Z.eqb_spec (messageSize cfg) 0); [lia|].
  destruct (Z.leb_spec (producers cfg) 0); [lia|].
  destruct (Z.leb_spec (consumers cfg) 0); [lia|].
  destruct (Z.leb_spec (durationSeconds cfg) 0); [lia|].
  destruct (Z.leb_spec (maxMessages cfg) 0); [lia|].
  reflexivity.
Qed.

Lemma invalid_config_dec (cfg : Config) : invalid_config cfg \/ ~ invalid_config cfg.
Proof. unfold invalid_config. lia. Qed.

(** C9: the exit status of [mq_benchmark] is 1 for every invalid
    configuration, 2 when the configuration is valid and [mq_open] or
    [mq_getattr] fails, and 0 in every run that completes, which are the
    runs in which the workers have run: a run with a valid configuration
    and a queue that has been set up completes unless the recorder or the
    workers cannot be set up, in which case the process is aborted and
    [main] returns no status.  When the CSV file cannot be opened the
    failure is reported with [perror], no line is written, the run still
    completes and the status is still 0. *)
Theorem exit_status :
  forall (cfg : Config) (env : MainEnv),
    let run := main_mq cfg env in
    (invalid_config cfg -> status_of run = Some 1) /\
    (~ invalid_config cfg -> mq_open_ok env = false -> status_of run = Some 2) /\
    (~ invalid_config cfg -> mq_open_ok env = true -> mq_getattr_ok env = false ->
       status_of run = Some 2) /\
    (~ invalid_config cfg -> mq_open_ok env = true -> mq_getattr_ok env = true ->
       status_of run
       = (if recorder_constructed cfg env && workers_started cfg env
          then Some 0 else None)) /\
    (In RunWorkers (events_of run) <-> status_of run = Some 0) /\
    (status_of run = Some 0 ->
       In PrintSummary (events_of run) /\
       (is_empty (csvPath cfg) = false -> fopen_ok env = false ->
          In PerrorFopenCsv (events_of run) /\ ~ In CsvLine (events_of run))) /\
    (~ invalid_config cfg -> mq_open_ok env = true -> mq_getattr_ok env = true ->
     recorder_constructed cfg env = true -> workers_started cfg env = true ->
     is_empty (csvPath cfg) = false -> fopen_ok env = false ->
       status_of run = Some 0 /\ In PerrorFopenCsv (events_of run)).
Proof.
  intros cfg env run. subst run.
  assert (Hrun : status_of (main_mq cfg env) = Some 0 ->
            In RunWorkers (events_of (main_mq cfg env)) /\
            In PrintSummary (events_of (main_mq cfg env)) /\
            (is_empty (csvPath cfg) = false -> fopen_ok env = false ->
               In PerrorFopenCsv (events_of (main_mq cfg env)) /\
               ~ In CsvLine (events_of (main_mq cfg env)))).
  { destruct (invalid_config_dec cfg) as [Hi | Hv];
      [rewrite (main_mq_invalid cfg env Hi); discriminate|].
    rewrite (main_mq_valid cfg env Hv). cbv zeta.
    destruct (mq_open_ok env); [| discriminate].
    destruct (mq_getattr_ok env); [| discriminate].
    destruct (recorder_constructed cfg env); [| discriminate].
    destruct (workers_started cfg env); [| discriminate].
    cbn [negb status_of events_of]. intros _.
    split; [apply in_or_app; right; simpl; auto|].
    split; [apply in_or_app; right; simpl; auto|].
    intros Hcsv Hf. unfold write_csv. rewrite Hcsv, Hf. unfold unlink_if.
    destruct (unlinkAtStart cfg); destruct (unlinkAtEnd cfg); cbn [app];
      (split; [simpl; tauto |]);
      simpl; intros Hmem;
      repeat (destruct Hmem as [Hmem | Hmem]; [discriminate Hmem|]); exact Hmem. }
  assert (Hvalid : ~ invalid_config cfg -> mq_open_ok env = true -> mq_getattr_ok env = true ->
            status_of (main_mq cfg env)
            = (if recorder_constructed cfg env && workers_started cfg env
               then Some 0 else None)).
  { intros Hv Ho Hg. rewrite (main_mq_valid cfg env Hv). cbv zeta. rewrite Ho, Hg.
    destruct (recorder_constructed cfg env); destruct (workers_started cfg env);
      reflexivity. }
  split; [apply main_mq_invalid|].
  split; [intros Hv Ho; rewrite (main_mq_valid cfg env Hv); cbv zeta; rewrite Ho;
          reflexivity|].
  split; [intros Hv Ho Hg; rewrite (main_mq_valid cfg env Hv); cbv zeta; rewrite Ho, Hg;
          reflexivity|].
  split; [exact Hvalid|].
  split; [| split].
  - split; [| intros H0; exact (proj1 (Hrun H0))].
    destruct (invalid_config_dec cfg) as [Hi | Hv].
    + revert Hi. unfold invalid_config, main_mq. intros Hi.
      destruct (Z.eqb_spec (messageSize cfg) 0);
        [simpl; intros [Hmem | []]; discriminate Hmem|].
      destruct (Z.leb_spec (producers cfg) 0);
        [simpl; intros [Hmem | []]; discriminate Hmem|].
      destruct (Z.leb_spec (consumers cfg) 0);
        [simpl; intros [Hmem | []]; discriminate Hmem|].
      destruct (Z.leb_spec (durationSeconds cfg) 0);
        [simpl; intros [Hmem | []]; discriminate Hmem|].
      destruct (Z.leb_spec (maxMessages cfg) 0);
        [simpl; intros [Hmem | []]; discriminate Hmem|].
      lia.
    + rewrite (main_mq_valid cfg env Hv). cbv zeta. unfold unlink_if.
      destruct (mq_open_ok env), (mq_getattr_ok env), (recorder_constructed cfg env),
        (workers_started cfg env), (unlinkAtStart cfg), (unlinkAtEnd cfg);
        cbn [negb status_of events_of app]; try reflexivity;
        simpl; intros Hmem;
        repeat (destruct Hmem as [Hmem | Hmem]; [discriminate Hmem|]); contradiction.
  - intros H0. exact (proj2 (Hrun H0)).
  - intros Hv Ho Hg Hr Hw Hcsv Hf.
    assert (H0 : status_of (main_mq cfg env) = Some 0)
      by (rewrite (Hvalid Hv Ho Hg), Hr, Hw; reflexivity).
    split; [exact H0|].
    destruct (Hrun H0) as (_ & _ & Hperror). exact (proj1 (Hperror Hcsv Hf)).
Qed.

Lemma exit_status_witness :
  let cfg := mkConfig String.EmptyString 5 256 1024 1 1 true true false false 100000 1
               (String.String (Ascii.ascii_of_nat 120) String.EmptyString) in
  let env := mkMainEnv true true false (fun _ => true) true in
  ~ invalid_config cfg /\ mq_open_ok env = true /\ mq_getattr_ok env = true /\
  recorder_constructed cfg env = true /\ workers_started cfg env = true /\
  is_empty (csvPath cfg) = false /\ fopen_ok env = false /\
  status_of (main_mq cfg env) = Some 0 /\
  In PerrorFopenCsv (events_of (main_mq cfg env)) /\
  status_of (main_mq (with_messageSize cfg 0) env) = Some 1 /\
  status_of (main_mq cfg (mkMainEnv false true true (fun _ => true) true)) = Some 2.
Proof.
  intros cfg env.
  assert (Hv : ~ invalid_config cfg) by (unfold invalid_config; simpl; lia).
  assert (Hi : invalid_config (with_messageSize cfg 0)) by (left; reflexivity).
  split; [exact Hv|]. do 6 (split; [reflexivity|]).
  destruct (exit_status cfg env) as (_ & _ & _ & _ & _ & _ & Hcsv).
  destruct (Hcsv Hv eq_refl eq_refl eq_refl eq_refl eq_refl eq_refl) as (Hexit & Hperror).
  split; [exact Hexit|]. split; [exact Hperror|].
  split.
  - exact (proj1 (exit_status (with_messageSize cfg 0) env) Hi).
  - exact (proj1 (proj2 (exit_status cfg (mkMainEnv false true true (fun _ => true) true)))
             Hv eq_refl).
Defined.

(** The other program has no transport to set up: its exit status is 1
    for an invalid configuration and 0 otherwise, unless the recorder or
    the producers cannot be set up and the process is aborted. *)
Lemma main_gcd_exit_status (cfg : Config) (env : MainEnv) :
  (invalid_config cfg -> status_of (main_gcd cfg env) = Some 1) /\
  (~ invalid_config cfg ->
   status_of (main_gcd cfg env)
   = if recorder_constructed cfg env && producers_started cfg env then Some 0 else None).
Proof.
  unfold invalid_config, main_gcd.
  destruct (Z.eqb_spec (messageSize cfg) 0);
    destruct (Z.leb_spec (producers cfg) 0);
    destruct (Z.leb_spec (consumers cfg) 0);
    destruct (Z.leb_spec (durationSeconds cfg) 0);
    destruct (Z.leb_spec (maxMessages cfg) 0); cbn [orb]; split; intros;
      try reflexivity; try lia;
      destruct (recorder_constructed cfg env); destruct (producers_started cfg env);
      reflexivity.
Qed.

(* ================================================================== *)
(** * Part III: further properties of the code *)
(* ================================================================== *)

(** ** The recorder: what the buffer holds and what a run costs *)

(** The three things a call can do to the buffer. *)
Lemma record_buffer_cases (record : LatencyRecorder -> Z -> Rand LatencyRecorder)
    (r : LatencyRecorder) (v : Z) (draws : list Z) (r' : LatencyRecorder)
    (rest : list Z) :
  is_record record ->
  run (record r v) draws = Some (r', rest) ->
  samplesNs r' = samplesNs r
  \/ samplesNs r' = samplesNs r ++ [v]
  \/ exists p, samplesNs r' = set_at p v (samplesNs r).
Proof.
  intros Hrec.
  destruct Hrec; unfold record_mq, record_gcd, fetch_add_seen; simpl;
    repeat match goal with
           | |- context [if ?b then _ else _] => destruct b
           end; simpl;
    try (intros Hr; injection Hr as <- _; simpl; auto; fail);
    (destruct draws as [|pos ds]; [discriminate|]);
    destruct ((0 <=? pos) && (pos <=? seen r)); try discriminate;
    repeat match goal with
           | |- context [if ?b then _ else _] => destruct b
           end; simpl;
    intros Hr; injection Hr as <- _; simpl; eauto.
Qed.

Lemma record_all_buffer (record : LatencyRecorder -> Z -> Rand LatencyRecorder)
    (values : list Z) :
  is_record record ->
  forall r draws r' rest,
    run (record_all record r values) draws = Some (r', rest) ->
    (forall x, In x (samplesNs r') -> In x (samplesNs r) \/ In x values) /\
    (NoDup (samplesNs r ++ values) -> NoDup (samplesNs r')).
Proof.
  intros Hrec. induction values as [|v vs IH]; intros r draws r' rest Hrun.
  - simpl in Hrun. injection Hrun as <- _. split; [auto|].
    rewrite app_nil_r. auto.
  - simpl record_all in Hrun. rewrite run_bind in Hrun.
    destruct (run (record r v) draws) as [[r1 d1]|] eqn:E1; [|discriminate].
    destruct (IH r1 d1 r' rest Hrun) as (Hmem & Hnd).
    pose proof (record_buffer_cases record r v draws r1 d1 Hrec E1) as Hcases.
    split.
    + intros x Hx. destruct (Hmem x Hx) as [H1 | Hvs]; [| right; now right].
      destruct Hcases as [E | [E | (p & E)]]; rewrite E in H1.
      * now left.
      * apply in_app_or in H1. destruct H1 as [H1 | [<- | []]]; [now left | right; now left].
      * apply in_set_at in H1. destruct H1 as [-> | H1]; [right; now left | now left].
    + intros Hall. apply Hnd.
      pose proof (NoDup_remove _ _ _ Hall) as (Hall' & Hv).
      destruct Hcases as [E | [E | (p & E)]]; rewrite E.
      * exact Hall'.
      * rewrite <- app_assoc. exact Hall.
      * apply NoDup_app.
        -- apply NoDup_set_at; [apply (NoDup_app_remove_r _ _ Hall')|].
           intros H. apply Hv. apply in_or_app. now left.
        -- apply (NoDup_app_remove_l _ _ Hall').
        -- intros a Ha Hin. apply in_set_at in Ha. destruct Ha as [-> | Ha].
           ++ apply Hv. apply in_or_app. now right.
           ++ apply (NoDup_app_disjoint _ _ a Hall' Ha Hin).
Qed.

(** X1: whatever the draws, the buffer after a run holds only values
    that were recorded, and when the recorded values are pairwise
    different no value is in two positions of the buffer. *)
Theorem buffer_holds_recorded_values :
  forall (record : LatencyRecorder -> Z -> Rand LatencyRecorder)
         (cap : Z) (values draws : list Z) (r : LatencyRecorder) (rest : list Z),
    is_record record ->
    run (record_all record (LatencyRecorder_new cap) values) draws = Some (r, rest) ->
    (forall x, In x (samplesNs r) -> In x values) /\
    (NoDup values -> NoDup (samplesNs r)).
Proof.
  intros record cap values draws r rest Hrec Hrun.
  destruct (record_all_buffer record values Hrec _ _ _ _ Hrun) as (Hmem & Hnd).
  split.
  - intros x Hx. destruct (Hmem x Hx) as [[] | H]. exact H.
  - exact Hnd.
Qed.

Lemma buffer_holds_recorded_values_witness :
  run (record_all record_mq (LatencyRecorder_new 2) [5; 6; 9; 4]) [2; 1]
  = Some (mkRecorder [5; 4] 2 4, []) /\
  (forall x, In x [5; 4] -> In x [5; 6; 9; 4]) /\
  (NoDup [5; 6; 9; 4] -> NoDup [5; 4]).
Proof.
  assert (Hrun : run (record_all record_mq (LatencyRecorder_new 2) [5; 6; 9; 4]) [2; 1]
                 = Some (mkRecorder [5; 4] 2 4, [])) by reflexivity.
  split; [exact Hrun|].
  exact (buffer_holds_recorded_values record_mq 2 [5; 6; 9; 4] [2; 1] _ []
           is_record_mq Hrun).
Defined.

Lemma record_gcd_draws (r : LatencyRecorder) (v : Z) (draws : list Z)
    (r' : LatencyRecorder) (rest : list Z) :
  in_step r ->
  run (record_gcd r v) draws = Some (r', rest) ->
  (capacity r = 0 \/ seen r < capacity r -> rest = draws) /\
  (capacity r <> 0 -> capacity r <= seen r -> length draws = S (length rest)).
Proof.
  intros (Hs & Hsz). pose proof (size_nonneg r) as Hnn. open_record.
  destruct (Z.eqb_spec (capacity r) 0) as [E0 | E0].
  - intros Hr. injection Hr as _ <-. split; [reflexivity | contradiction].
  - destruct (Z.ltb_spec (seen r) (capacity r)) as [Hlt | Hge].
    + destruct (Z.ltb_spec (size r) (capacity r)) as [Hz | Hz];
        intros Hr; injection Hr as _ <-; (split; [reflexivity | lia]).
    + simpl. destruct draws as [|pos ds]; [discriminate|].
      destruct ((0 <=? pos) && (pos <=? seen r)); [|discriminate].
      repeat match goal with
             | |- context [if ?b then _ else _] => destruct b
             end;
        intros Hr; injection Hr as _ <-; (split; [lia | reflexivity]).
Qed.

Lemma record_all_gcd_count (values : list Z) :
  forall r draws r' rest,
    in_step r ->
    seen r + Z.of_nat (length values) < U64_MOD ->
    run (record_all record_gcd r values) draws = Some (r', rest) ->
    seen r' = seen r + Z.of_nat (length values) /\
    capacity r' = capacity r /\
    in_step r' /\
    Z.of_nat (length draws)
    = Z.of_nat (length rest) + draws_used (capacity r) (seen r) (Z.of_nat (length values)).
Proof.
  induction values as [|v vs IH]; intros r draws r' rest Hin Hlen Hrun.
  - simpl in Hrun. injection Hrun as <- <-. simpl length.
    pose proof Hin as (Hs0 & _).
    unfold draws_used.
    split; [lia|]. split; [reflexivity|]. split; [exact Hin|].
    destruct (capacity r =? 0); lia.
  - simpl record_all in Hrun. rewrite run_bind in Hrun.
    destruct (run (record_gcd r v) draws) as [[r1 d1]|] eqn:E1; [|discriminate].
    assert (HL : Z.of_nat (length (v :: vs)) = Z.of_nat (length vs) + 1)
      by (simpl length; lia).
    rewrite HL in *.
    destruct (in_step_step r v draws r1 d1 Hin ltac:(lia) E1) as (Hin1 & Hs1 & Hc1).
    destruct (record_gcd_draws r v draws r1 d1 Hin E1) as (Hkeep & Htake).
    destruct (IH r1 d1 r' rest Hin1 ltac:(lia) Hrun) as (Hs' & Hc' & Hin' & Hd).
    rewrite Hs1 in Hs', Hd. rewrite Hc1 in Hc', Hd.
    split; [lia|]. split; [exact Hc'|]. split; [exact Hin'|].
    destruct Hin as (Hs0 & _).
    unfold draws_used in *.
    destruct (Z.eqb_spec (capacity r) 0) as [E0 | E0].
    + rewrite (Hkeep (or_introl E0)) in Hd. lia.
    + destruct (Z.lt_ge_cases (seen r) (capacity r)) as [Hlt | Hge].
      * rewrite (Hkeep (or_intror Hlt)) in Hd. lia.
      * rewrite (Htake E0 Hge). lia.
Qed.

Lemma record_all_new_counts :
  forall (record : LatencyRecorder -> Z -> Rand LatencyRecorder)
         (cap : Z) (values draws : list Z) (r : LatencyRecorder) (rest : list Z),
    is_record record ->
    is_u64 cap ->
    Z.of_nat (length values) < U64_MOD ->
    run (record_all record (LatencyRecorder_new cap) values) draws = Some (r, rest) ->
    seen r = Z.of_nat (length values) /\
    size r = Z.min (Z.of_nat (length values)) cap /\
    Z.of_nat (length draws)
    = Z.of_nat (length rest)
      + (if cap =? 0 then 0 else Z.max 0 (Z.of_nat (length values) - cap)).
Proof.
  intros record cap values draws r rest Hrec Hcap Hlen Hrun.
  assert (Hnew : in_step (LatencyRecorder_new cap)).
  { unfold in_step, LatencyRecorder_new, size, is_u64 in *. simpl. lia. }
  assert (Hgcd : run (record_all record_gcd (LatencyRecorder_new cap) values) draws
                 = Some (r, rest)).
  { destruct Hrec; [| exact Hrun].
    rewrite <- (record_all_mq_gcd values _ draws Hnew); [exact Hrun | simpl; lia]. }
  destruct (record_all_gcd_count values _ _ _ _ Hnew ltac:(simpl; lia) Hgcd)
    as (Hs & Hc & (_ & Hsz) & Hd).
  cbn [seen capacity LatencyRecorder_new] in Hs, Hc, Hd. unfold draws_used in Hd.
  rewrite Hsz, Hs, Hc.
  unfold is_u64 in Hcap.
  split; [lia|]. split; [lia|].
  destruct (cap =? 0); lia.
Qed.

(** X2: after [N] calls on a new recorder ([N < 2^64]) the counter
    [seen] is [N] and the buffer has [min(N, capacity)] values; the run
    uses one draw for every call after the first [capacity] ones and none
    when the capacity is 0. *)
Theorem recorder_counts :
  forall (record : LatencyRecorder -> Z -> Rand LatencyRecorder)
         (cap : Z) (values draws : list Z) (r : LatencyRecorder) (rest : list Z),
    is_record record ->
    is_u64 cap ->
    Z.of_nat (length values) < U64_MOD ->
    run (record_all record (LatencyRecorder_new cap) values) draws = Some (r, rest) ->
    seen r = Z.of_nat (length values) /\
    size r = Z.min (Z.of_nat (length values)) cap /\
    Z.of_nat (length draws)
    = Z.of_nat (length rest)
      + (if cap =? 0 then 0 else Z.max 0 (Z.of_nat (length values) - cap)).
Proof.
  intros record cap values draws r rest Hrec Hcap Hlen Hrun.
  exact (record_all_new_counts record cap values draws r rest Hrec Hcap Hlen Hrun).
Qed.

Lemma recorder_counts_witness :
  is_u64 2 /\ Z.of_nat (length [5; 6; 9; 4]) < U64_MOD /\
  run (record_all record_gcd (LatencyRecorder_new 2) [5; 6; 9; 4]) [2; 1; 7]
  = Some (mkRecorder [5; 4] 2 4, [7]) /\
  seen (mkRecorder [5; 4] 2 4) = 4 /\ size (mkRecorder [5; 4] 2 4) = Z.min 4 2.
Proof.
  assert (H1 : is_u64 2) by (unfold is_u64, U64_MOD; lia).
  assert (H2 : Z.of_nat (length [5; 6; 9; 4]) < U64_MOD) by (unfold U64_MOD; simpl; lia).
  assert (Hrun : run (record_all record_gcd (LatencyRecorder_new 2) [5; 6; 9; 4]) [2; 1; 7]
                 = Some (mkRecorder [5; 4] 2 4, [7])) by reflexivity.
  split; [exact H1|]. split; [exact H2|]. split; [exact Hrun|].
  destruct (recorder_counts record_gcd 2 [5; 6; 9; 4] [2; 1; 7] _ [7]
              is_record_gcd H1 H2 Hrun) as (Hs & Hsz & _).
  split; [exact Hs | exact Hsz].
Defined.

(** ** [computePercentiles]: order of the samples, range of the result *)

(** A sorted list is determined by its elements. *)
Lemma sorted_perm_unique (l1 : list Z) :
  forall l2,
    StronglySorted Z.le l1 -> StronglySorted Z.le l2 -> Permutation l1 l2 -> l1 = l2.
Proof.
  induction l1 as [|a t1 IH]; intros l2 H1 H2 Hp.
  - apply Permutation_nil in Hp. now subst.
  - destruct l2 as [|b t2].
    + apply Permutation_sym, Permutation_nil in Hp. discriminate.
    + apply StronglySorted_inv in H1. destruct H1 as (Ht1 & Ha).
      apply StronglySorted_inv in H2. destruct H2 as (Ht2 & Hb).
      rewrite Forall_forall in Ha, Hb.
      assert (Hab : a = b).
      { assert (Hin1 : In a (b :: t2))
          by (apply (Permutation_in _ Hp); now left).
        assert (Hin2 : In b (a :: t1))
          by (apply (Permutation_in _ (Permutation_sym Hp)); now left).
        destruct Hin1 as [E | Hin1]; [now symmetry|].
        destruct Hin2 as [E | Hin2]; [exact E|].
        specialize (Ha b Hin2). specialize (Hb a Hin1). lia. }
      subst b. f_equal. apply IH; try assumption.
      apply (Permutation_cons_inv Hp).
Qed.

Lemma std_sort_permutation (l1 l2 : list Z) :
  Permutation l1 l2 -> std_sort l1 = std_sort l2.
Proof.
  intros Hp. apply sorted_perm_unique; try apply std_sort_sorted.
  eapply Permutation_trans; [apply std_sort_perm|].
  eapply Permutation_trans; [exact Hp|].
  apply Permutation_sym, std_sort_perm.
Qed.

(** X3: in either arithmetic, the result of [computePercentiles] does
    not depend on the order in which the samples sit in the buffer: two
    vectors with the same values, each as often, give the same sorted
    vector and the same percentiles. *)
Theorem computePercentiles_order_independent :
  forall (A : Arith) (data1 data2 : list Z) (out : list (dbl A * dbl A)),
    Permutation data1 data2 ->
    computePercentiles A data1 out = computePercentiles A data2 out.
Proof.
  intros A data1 data2 out Hp.
  destruct data1 as [|x1 t1].
  - apply Permutation_nil in Hp. subst. reflexivity.
  - destruct data2 as [|x2 t2].
    + apply Permutation_sym, Permutation_nil in Hp. discriminate.
    + unfold computePercentiles.
      rewrite (std_sort_permutation _ _ Hp). reflexivity.
Qed.

Lemma computePercentiles_order_independent_witness :
  Permutation [30; 10; 20] [10; 20; 30] /\
  computePercentiles binary64 [30; 10; 20] [] = computePercentiles binary64 [10; 20; 30] [].
Proof.
  assert (Hp : Permutation [30; 10; 20] [10; 20; 30]).
  { apply (Permutation_cons_app [10; 20] [] 30). apply Permutation_refl. }
  split; [exact Hp|].
  exact (computePercentiles_order_independent binary64 _ _ [] Hp).
Defined.

Lemma at_position_range (s : list Z) (p : Q) (lo hi : Z) :
  (forall x, In x s -> lo <= x <= hi) ->
  0 <= Qfloor p <= Z.of_nat (length s) - 1 ->
  (0 <= p - inject_Z (Qfloor p))%Q -> (p - inject_Z (Qfloor p) < 1)%Q ->
  (inject_Z lo <= at_position s p)%Q /\ (at_position s p <= inject_Z hi)%Q.
Proof.
  intros Hr Hi Hf0 Hf1. unfold at_position.
  set (i := Qfloor p) in *. set (f := (p - inject_Z i)%Q) in *.
  assert (Ha : lo <= nth (Z.to_nat i) s 0 <= hi).
  { apply Hr, nth_In. lia. }
  assert (Hb : lo <= nth (Z.to_nat (Z.min (i + 1) (Z.of_nat (length s) - 1))) s 0 <= hi).
  { apply Hr, nth_In. lia. }
  destruct Ha as (Ha1 & Ha2). destruct Hb as (Hb1 & Hb2).
  rewrite Zle_Qle in Ha1, Ha2, Hb1, Hb2.
  set (a := inject_Z (nth (Z.to_nat i) s 0)) in *.
  set (b := inject_Z (nth (Z.to_nat (Z.min (i + 1) (Z.of_nat (length s) - 1))) s 0)) in *.
  set (L := inject_Z lo) in *. set (H := inject_Z hi) in *.
  split; nra.
Qed.

Lemma at_exact_range (s : list Z) (q : Q) (lo hi : Z) :
  s <> [] -> (0 <= q)%Q -> (q <= 1)%Q ->
  (forall x, In x s -> lo <= x <= hi) ->
  (inject_Z lo / 1000 <= at_ exact s q)%Q /\ (at_ exact s q <= inject_Z hi / 1000)%Q.
Proof.
  intros Hs H0 H1 Hr.
  rewrite (at_exact_position s q Hs H0).
  assert (Hn : 1 <= Z.of_nat (length s)).
  { destruct s; [congruence | simpl length; lia]. }
  destruct (position_bounds (Z.of_nat (length s)) q Hn H0 H1) as (_ & _ & Hi & Hf0 & Hf1).
  destruct (at_position_range s _ lo hi Hr Hi Hf0 Hf1) as (Hlo & Hhi).
  unfold Qdiv. split; apply Qmult_le_compat_r; try assumption; discriminate.
Qed.

Lemma pcts_exact_unit (q : Q) : In q (pcts exact) -> (0 <= q)%Q /\ (q <= 1)%Q.
Proof.
  unfold pcts. cbn [lit exact].
  intros [<- | [<- | [<- | [<- | [<- | []]]]]]; split; discriminate.
Qed.

(** X4: in exact arithmetic every percentile of the result lies within
    the range of the samples: bounds [lo <= x <= hi] (nanoseconds) on all
    samples give [lo / 1000 <= v <= hi / 1000] (microseconds) for every
    value [v] written. *)
Theorem percentiles_within_sample_range :
  forall (data : list Z) (lo hi : Z) (q v : Q),
    (forall x, In x data -> lo <= x <= hi) ->
    In (q, v) (snd (computePercentiles exact data [])) ->
    (inject_Z lo / 1000 <= v)%Q /\ (v <= inject_Z hi / 1000)%Q.
Proof.
  intros data lo hi q v Hr Hin.
  destruct data as [|x t]; [contradiction|].
  unfold computePercentiles in Hin. cbn [snd app] in Hin.
  apply in_map_iff in Hin. destruct Hin as (q' & E & Hq).
  injection E as <- <-.
  destruct (pcts_exact_unit q' Hq) as (H0 & H1).
  apply at_exact_range; try assumption.
  - change (std_sort (x :: t) <> []).
    intros E. pose proof (std_sort_length (x :: t)) as Hl.
    rewrite E in Hl. discriminate.
  - intros y Hy. change (In y (std_sort (x :: t))) in Hy. apply Hr. apply (Permutation_in _ (std_sort_perm (x :: t)) Hy).
Qed.

Lemma percentiles_within_sample_range_witness :
  (forall x, In x [3000; 1000; 2000] -> 1000 <= x <= 3000) /\
  In (5 # 10, 200000 # 100000)%Q (snd (computePercentiles exact [3000; 1000; 2000] [])) /\
  (inject_Z 1000 / 1000 <= 200000 # 100000)%Q /\
  (200000 # 100000 <= inject_Z 3000 / 1000)%Q.
Proof.
  assert (Hr : forall x, In x [3000; 1000; 2000] -> 1000 <= x <= 3000).
  { intros x [<- | [<- | [<- | []]]]; lia. }
  assert (Hin : In (5 # 10, 200000 # 100000)%Q
                  (snd (computePercentiles exact [3000; 1000; 2000] []))).
  { left. vm_compute. reflexivity. }
  split; [exact Hr|]. split; [exact Hin|].
  exact (percentiles_within_sample_range _ 1000 3000 _ _ Hr Hin).
Defined.

(** X5: the result of [main]'s call has no entry when the buffer of the
    recorder is empty and five entries otherwise; the summary prints
    "not available" in exactly the runs in which the five latency fields
    of the CSV line stay NaN, and otherwise both show the five values. *)
Theorem summary_and_csv_latency_agree :
  forall (A : Arith) (r : LatencyRecorder),
    let pctUs := final_percentiles A r in
    (samplesNs r = [] /\ pctUs = [] /\
     summary_latency A pctUs = LatencyNotAvailable /\
     csv_latency A pctUs = [None; None; None; None; None])
    \/
    ((exists x t, samplesNs r = x :: t) /\ length pctUs = 5%nat /\
     map fst pctUs = pcts A /\
     summary_latency A pctUs = LatencyValues pctUs /\
     csv_latency A pctUs = map (fun e => Some (snd e)) pctUs).
Proof.
  intros A r. unfold final_percentiles, computePercentiles.
  destruct (samplesNs r) as [|x t]; [left | right].
  - repeat split.
  - cbn [snd app pcts map length summary_latency].
    split; [now exists x, t|]. repeat split.
Qed.

(** ** Clocks *)

(** X6: the deadline that the producer and the consumer hand to the
    timed calls is again a normalized [timespec] and lies exactly 100
    milliseconds after the clock reading it is computed from. *)
Theorem deadline_is_100ms_later :
  forall ts : timespec,
    normalized ts ->
    normalized (deadline ts) /\
    ns_value (deadline ts) = ns_value ts + 100000000.
Proof.
  intros [s n] (Hs & Hn). unfold deadline, normalized, ns_value in *.
  cbn [tv_sec tv_nsec] in *.
  destruct (Z.leb_spec 1000000000 (n + 100 * 1000 * 1000)); cbn [tv_sec tv_nsec]; lia.
Qed.

Lemma deadline_is_100ms_later_witness :
  normalized (mkTimespec 7 950000000) /\
  normalized (deadline (mkTimespec 7 950000000)) /\
  ns_value (deadline (mkTimespec 7 950000000)) = ns_value (mkTimespec 7 950000000) + 100000000.
Proof.
  assert (H : normalized (mkTimespec 7 950000000)) by (unfold normalized; simpl; lia).
  split; [exact H|]. exact (deadline_is_100ms_later _ H).
Defined.

(** X7: on a normalized reading of the clock that is less than [2^64]
    nanoseconds after its origin (some 584 years), [nowNs] is the number
    of nanoseconds of the reading, without wrap-around: seconds and
    nanoseconds can be read back from it, and a later reading gives a
    value that is not smaller. *)
Theorem nowNs_exact :
  forall ts : timespec,
    normalized ts ->
    ns_value ts < U64_MOD ->
    nowNs ts = ns_value ts /\
    nowNs ts / 1000000000 = tv_sec ts /\
    nowNs ts mod 1000000000 = tv_nsec ts /\
    (forall ts', normalized ts' -> ns_value ts' < U64_MOD ->
       (tv_sec ts < tv_sec ts' \/ (tv_sec ts = tv_sec ts' /\ tv_nsec ts <= tv_nsec ts')) ->
       nowNs ts <= nowNs ts').
Proof.
  assert (Hnow : forall t, normalized t -> ns_value t < U64_MOD -> nowNs t = ns_value t).
  { intros [s n] (Hs & Hn) Hlt. unfold nowNs, ns_value in *. cbn [tv_sec tv_nsec] in *.
    rewrite (wrap64_small s) by (unfold is_u64; lia).
    rewrite (wrap64_small (s * 1000000000)) by (unfold is_u64; lia).
    rewrite (wrap64_small n) by (unfold is_u64; lia).
    apply wrap64_small. unfold is_u64. lia. }
  intros ts Hn Hlt. rewrite (Hnow ts Hn Hlt).
  destruct ts as [s n]. destruct Hn as (Hs & Hns). unfold ns_value in *.
  cbn [tv_sec tv_nsec] in *.
  split; [reflexivity|]. split; [| split].
  - symmetry. apply (Z.div_unique _ _ s n); lia.
  - symmetry. apply (Z.mod_unique _ _ s n); lia.
  - intros ts' Hn' Hlt' Hord. rewrite (Hnow ts' Hn' Hlt').
    destruct ts' as [s' n']. destruct Hn' as (Hs' & Hns'). unfold ns_value.
    cbn [tv_sec tv_nsec] in *. lia.
Qed.

Lemma nowNs_exact_witness :
  normalized (mkTimespec 12 345) /\
  ns_value (mkTimespec 12 345) < U64_MOD /\
  nowNs (mkTimespec 12 345) = 12000000345.
Proof.
  assert (H1 : normalized (mkTimespec 12 345)) by (unfold normalized; simpl; lia).
  assert (H2 : ns_value (mkTimespec 12 345) < U64_MOD) by (vm_compute; reflexivity).
  split; [exact H1|]. split; [exact H2|].
  exact (proj1 (nowNs_exact _ H1 H2)).
Defined.

(** ** The attributes requested for the queue *)

(** X8: the attributes that [main] requests on Linux are at least 1;
    they do not exceed the limits read from [/proc/sys/fs/mqueue] (10
    messages and 8192 bytes when a file cannot be read) when those are
    positive; and they are the configured values when these are positive
    and within the limits. *)
Theorem mq_attr_request_capped :
  forall (cfg : Config) (msg_max msgsize_max : option (option Z)),
    let sys_maxmsg := readLongFromFile msg_max 10 in
    let sys_msgsize := readLongFromFile msgsize_max 8192 in
    let attr := mq_attr_request cfg msg_max msgsize_max in
    1 <= fst attr /\ 1 <= snd attr /\
    (1 <= sys_maxmsg -> fst attr <= sys_maxmsg) /\
    (1 <= sys_msgsize -> snd attr <= sys_msgsize) /\
    (1 <= maxMessages cfg <= sys_maxmsg -> fst attr = maxMessages cfg) /\
    (1 <= messageSize cfg <= sys_msgsize -> messageSize cfg < 2 ^ 63 ->
     snd attr = messageSize cfg) /\
    (2 ^ 63 <= messageSize cfg < U64_MOD -> snd attr = 1).
Proof.
  intros cfg msg_max msgsize_max. cbv zeta. unfold mq_attr_request.
  generalize (readLongFromFile msg_max 10) as a.
  generalize (readLongFromFile msgsize_max 8192) as b.
  intros b a. cbn [fst snd].
  assert (Hmin : forall x y, (if x <? y then x else y) = Z.min x y).
  { intros x y. destruct (Z.ltb_spec x y); lia. }
  assert (Hmax : forall x, (if x <? 1 then 1 else x) = Z.max 1 x).
  { intros x. destruct (Z.ltb_spec x 1); lia. }
  rewrite !Hmin, !Hmax. unfold to_long, U64_MOD.
  destruct (Z.ltb_spec (messageSize cfg) (2 ^ 63)); repeat split; intros; lia.
Qed.

Lemma mq_attr_request_capped_witness :
  1 <= readLongFromFile None 10 /\
  1 <= readLongFromFile (Some (Some 8)) 8192 /\
  fst (mq_attr_request cfg16 None (Some (Some 8))) <= readLongFromFile None 10 /\
  snd (mq_attr_request cfg16 None (Some (Some 8))) <= readLongFromFile (Some (Some 8)) 8192.
Proof.
  assert (Ha : 1 <= readLongFromFile None 10) by (simpl; lia).
  assert (Hb : 1 <= readLongFromFile (Some (Some 8)) 8192) by (simpl; lia).
  pose proof (mq_attr_request_capped cfg16 None (Some (Some 8))) as H.
  cbv zeta in H. destruct H as (_ & _ & H1 & H2 & _).
  split; [exact Ha|]. split; [exact Hb|].
  split; [exact (H1 Ha) | exact (H2 Hb)].
Defined.

(** ** [parseArgs] *)

(** The loop takes the arguments one or two at a time. *)
Lemma args_ind (P : list String.string -> Prop) :
  P [] -> (forall x, P [x]) -> (forall x y l, P l -> P (x :: y :: l)) ->
  forall l, P l.
Proof.
  intros H0 H1 H2 l.
  assert (H : P l /\ forall x, P (x :: l)).
  { induction l as [|y l (IH1 & IH2)]; [split; [exact H0 | exact H1]|].
    split; [apply IH2|]. intros x. apply H2, IH1. }
  exact (proj1 H).
Qed.

(** X9: [parseArgs] works from left to right.  When the arguments [a]
    parse to a configuration, the arguments [a ++ b] parse as [b] does
    from that configuration, so that a later option overrides an earlier
    one; when [a] makes a number conversion throw, or exits for another
    reason than a missing value, [a ++ b] does the same. *)
Theorem parseArgs_left_to_right :
  forall (options : String.string -> option (Config -> String.string -> option Config))
         (a b : list String.string) (cfg : Config),
    (forall cfg', parseArgs_from options cfg a = ArgsOk cfg' ->
       parseArgs_from options cfg (a ++ b) = parseArgs_from options cfg' b) /\
    (parseArgs_from options cfg a = ArgsThrow ->
       parseArgs_from options cfg (a ++ b) = ArgsThrow) /\
    (forall arg, parseArgs_from options cfg a = ArgsExit 1 (UnknownOption arg) ->
       parseArgs_from options cfg (a ++ b) = ArgsExit 1 (UnknownOption arg)) /\
    (parseArgs_from options cfg a = ArgsExit 0 HelpRequested ->
       parseArgs_from options cfg (a ++ b) = ArgsExit 0 HelpRequested).
Proof.
  intros options a b. induction a as [| x | x y l IH] using args_ind; intros cfg.
  - cbn [parseArgs_from app].
    split; [intros cfg' E; now injection E as <- |].
    split; [discriminate|]. split; [intros arg|]; discriminate.
  - cbn [parseArgs_from app].
    destruct (options x) as [assign|].
    + split; [intros cfg'; discriminate|].
      split; [discriminate|]. split; [intros arg|]; discriminate.
    + destruct (String.eqb x "--help" || String.eqb x "-h");
        (split; [intros cfg'; discriminate|]);
        (split; [discriminate|]); split; auto.
  - cbn [parseArgs_from app].
    destruct (options x) as [assign|].
    + destruct (assign cfg y) as [cfg1|].
      * apply IH.
      * split; [intros cfg'; discriminate|]. split; [reflexivity|].
        split; [intros arg|]; discriminate.
    + destruct (String.eqb x "--help" || String.eqb x "-h");
        (split; [intros cfg'; discriminate|]);
        (split; [discriminate|]); split; auto.
Qed.

Lemma parseArgs_left_to_right_witness :
  parseArgs_from (option_mq (fun _ => Some 3) (fun _ => Some 4) (fun _ => Some 5))
    default_config_mq (["--producers"; "x"] ++ ["--producers"; "y"; "--csv"; "f"])%string
  = parseArgs_from (option_mq (fun _ => Some 3) (fun _ => Some 4) (fun _ => Some 5))
      (with_producers default_config_mq 3) ["--producers"; "y"; "--csv"; "f"]%string.
Proof.
  apply (proj1 (parseArgs_left_to_right _ ["--producers"; "x"]%string _ default_config_mq)).
  reflexivity.
Defined.

(** X10: how [parseArgs] can end.  A run that returns has taken the
    arguments in pairs, so their number is even; a run that exits does
    so with status 0 for [--help] or [-h], which then is among the
    arguments, and with status 1 for an option that is not known or an
    option whose value is missing, the last argument then. *)
Theorem parseArgs_outcomes :
  forall (options : String.string -> option (Config -> String.string -> option Config))
         (args : list String.string) (cfg : Config),
    match parseArgs_from options cfg args with
    | ArgsOk _ => Nat.even (length args) = true
    | ArgsExit status why =>
        (status = 0 /\ why = HelpRequested /\
         (In "--help"%string args \/ In "-h"%string args))
        \/ (status = 1 /\ exists arg,
              In arg args /\
              ((why = UnknownOption arg /\ options arg = None)
               \/ (why = MissingValue arg /\ last args arg = arg /\
                   exists assign, options arg = Some assign)))
    | ArgsThrow => exists opt v assign c,
        In opt args /\ In v args /\ options opt = Some assign /\ assign c v = None
    end.
Proof.
  intros options args. induction args as [| x | x y l IH] using args_ind; intros cfg.
  - reflexivity.
  - cbn [parseArgs_from].
    destruct (options x) as [assign|] eqn:Eo.
    + right. split; [reflexivity|]. exists x. split; [now left|]. right.
      split; [reflexivity|]. split; [reflexivity|]. now exists assign.
    + destruct (String.eqb x "--help" || String.eqb x "-h") eqn:Eh.
      * left. split; [reflexivity|]. split; [reflexivity|].
        apply orb_true_iff in Eh. destruct Eh as [Eh | Eh];
          apply String.eqb_eq in Eh; subst x; [left | right]; now left.
      * right. split; [reflexivity|]. exists x. split; [now left|]. left. now split.
  - cbn [parseArgs_from].
    destruct (options x) as [assign|] eqn:Eo.
    + destruct (assign cfg y) as [cfg1|] eqn:Ea.
      * specialize (IH cfg1).
        destruct (parseArgs_from options cfg1 l) as [c | status why |].
        -- exact IH.
        -- destruct IH as [(Hs & Hw & Hin) | (Hs & arg & Hin & Hwhy)].
           ++ left. split; [exact Hs|]. split; [exact Hw|].
              destruct Hin as [Hin | Hin]; [left | right]; right; right; exact Hin.
           ++ right. split; [exact Hs|]. exists arg. split; [right; right; exact Hin|].
              destruct Hwhy as [Hu | (Hm & Hl & Hass)]; [left; exact Hu | right].
              split; [exact Hm|]. split; [| exact Hass].
              destruct l as [|z l']; [contradiction | exact Hl].
        -- destruct IH as (opt & v & assign' & c & Ho & Hv & Hopt & Hnone).
           exists opt, v, assign', c.
           split; [right; right; exact Ho|]. split; [right; right; exact Hv|].
           now split.
      * exists x, y, assign, cfg. split; [now left|]. split; [right; now left|].
        now split.
    + destruct (String.eqb x "--help" || String.eqb x "-h") eqn:Eh.
      * left. split; [reflexivity|]. split; [reflexivity|].
        apply orb_true_iff in Eh. destruct Eh as [Eh | Eh];
          apply String.eqb_eq in Eh; subst x; [left | right]; now left.
      * right. split; [reflexivity|]. exists x. split; [now left|]. left. now split.
Qed.

(** X11: a negative [--message-size] is not rejected, and no run with
    it completes.  [std::stoll] reads [z] with [-2^63 <= z < 0], the
    conversion to [size_t] makes it [2^64 + z], the test for 0 in [main]
    passes and [main] goes on to open the queue, for which it requests
    the message size 1.  No worker can have a buffer of [2^64 + z] bytes:
    the run ends with status 2 when the queue cannot be set up, and is
    aborted otherwise. *)
Theorem negative_message_size_accepted :
  forall (stoi stol stoll : String.string -> option Z) (s : String.string) (z : Z)
         (env : MainEnv) (msg_max msgsize_max : option (option Z)),
    stoll s = Some z ->
    - 2 ^ 63 <= z < 0 ->
    exists cfg,
      parseArgs_mq stoi stol stoll ["--message-size"%string; s] = ArgsOk cfg /\
      messageSize cfg = U64_MOD + z /\
      program_mq stoi stol stoll ["--message-size"%string; s] env = main_mq cfg env /\
      occurrences ErrMessageSize (events_of (main_mq cfg env)) = 0%nat /\
      occurrences MqOpen (events_of (main_mq cfg env)) = 1%nat /\
      snd (mq_attr_request cfg msg_max msgsize_max) = 1 /\
      workers_started cfg env = false /\
      status_of (main_mq cfg env)
      = (if mq_open_ok env && mq_getattr_ok env then None else Some 2).
Proof.
  intros stoi stol stoll s z env msg_max msgsize_max Hs Hz.
  assert (Hw : wrap64 z = U64_MOD + z).
  { unfold wrap64. symmetry. apply (Z.mod_unique _ _ (-1)); unfold U64_MOD; lia. }
  exists (with_messageSize default_config_mq (wrap64 z)).
  set (cfg := with_messageSize default_config_mq (wrap64 z)).
  assert (Hp : parseArgs_mq stoi stol stoll ["--message-size"%string; s] = ArgsOk cfg).
  { unfold parseArgs_mq. cbn [parseArgs_from].
    change (option_mq stoi stol stoll "--message-size"%string)
      with (Some (fun cfg v => option_map (fun z => with_messageSize cfg (wrap64 z)) (stoll v))).
    cbv beta iota. rewrite Hs. reflexivity. }
  assert (Hm : messageSize cfg = U64_MOD + z) by exact Hw.
  split; [exact Hp|]. split; [exact Hm|].
  split; [unfold program_mq; rewrite Hp; reflexivity|].
  assert (Hv : ~ invalid_config cfg).
  { unfold invalid_config. rewrite Hm.
    change (producers cfg) with 1. change (consumers cfg) with 1.
    change (durationSeconds cfg) with 5. change (maxMessages cfg) with 1024.
    unfold U64_MOD. lia. }
  assert (Hnw : workers_started cfg env = false).
  { unfold workers_started, allocates. rewrite Hm.
    assert (E0 : (U64_MOD + z =? 0) = false) by (apply Z.eqb_neq; unfold U64_MOD; lia).
    assert (E1 : (U64_MOD + z <=? PTRDIFF_MAX) = false)
      by (apply Z.leb_gt; unfold U64_MOD, PTRDIFF_MAX; lia).
    rewrite E0, E1. cbn [orb andb]. apply andb_false_r. }
  rewrite (main_mq_valid cfg env Hv). cbv zeta. rewrite Hnw.
  change (unlinkAtStart cfg) with true. change (unlinkAtEnd cfg) with true.
  split; [| split; [| split; [| split; [reflexivity|]]]].
  - destruct (mq_open_ok env), (mq_getattr_ok env), (recorder_constructed cfg env);
      reflexivity.
  - destruct (mq_open_ok env), (mq_getattr_ok env), (recorder_constructed cfg env);
      reflexivity.
  - unfold mq_attr_request, to_long. rewrite Hm.
    change (maxMessages cfg) with 1024.
    cbn [snd].
    destruct (Z.ltb_spec (U64_MOD + z) (2 ^ 63)) as [Hlt | Hge];
      [unfold U64_MOD in Hlt; lia|].
    destruct (Z.ltb_spec (readLongFromFile msgsize_max 8192) (U64_MOD + z - U64_MOD));
      match goal with
      | |- (if ?x <? 1 then _ else _) = _ => destruct (Z.ltb_spec x 1)
      end; lia.
  - destruct (mq_open_ok env), (mq_getattr_ok env), (recorder_constructed cfg env);
      reflexivity.
Qed.

Lemma negative_message_size_accepted_witness :
  exists cfg,
    parseArgs_mq (fun _ => None) (fun _ => None) (fun _ => Some (-1))
      ["--message-size"; "-1"]%string = ArgsOk cfg /\
    messageSize cfg = U64_MOD + -1 /\
    status_of (main_mq cfg (mkMainEnv true true true (fun _ => true) true)) = None.
Proof.
  destruct (negative_message_size_accepted (fun _ => None) (fun _ => None)
              (fun _ => Some (-1)) "-1"%string (-1)
              (mkMainEnv true true true (fun _ => true) true) None None
              eq_refl ltac:(lia)) as (cfg & Hp & Hm & _ & _ & _ & _ & _ & Hst).
  exists cfg. split; [exact Hp|]. split; [exact Hm | exact Hst].
Defined.

(** ** [main] of [mq_benchmark.cpp]: the queue is closed when [main] returns *)



(** ** The dispatch of [gcd_benchmark.cpp] *)

Lemma dispatched_S (n : nat) (queues : Z) :
  dispatched (S n) queues = dispatched n queues ++ [pick_queue (wrap64 (Z.of_nat n)) queues].
Proof. unfold dispatched. rewrite seq_S, map_app. reflexivity. Qed.

Lemma count_app {A : Type} (f : A -> bool) (l1 l2 : list A) :
  count f (l1 ++ l2) = count f l1 + count f l2.
Proof. unfold count. rewrite filter_app, length_app. lia. Qed.

Lemma round_robin_step (n c q : Z) :
  0 < c -> 0 <= n -> 0 <= q < c ->
  (n + 1 + c - 1 - q) / c
  = (n + c - 1 - q) / c + (if q =? n mod c then 1 else 0).
Proof.
  intros Hc Hn Hq.
  pose proof (Z.div_mod n c ltac:(lia)) as Hdm.
  pose proof (Z.mod_pos_bound n c Hc) as Hr.
  set (d := n / c) in *. set (r := n mod c) in *.
  destruct (Z.eqb_spec q r) as [E | E].
  - rewrite <- (Z.div_unique (n + 1 + c - 1 - q) c (d + 1) 0) by lia.
    rewrite <- (Z.div_unique (n + c - 1 - q) c d (c - 1)) by lia. lia.
  - destruct (Z.lt_ge_cases q r) as [Hlt | Hge].
    + rewrite <- (Z.div_unique (n + 1 + c - 1 - q) c (d + 1) (r - q)) by lia.
      rewrite <- (Z.div_unique (n + c - 1 - q) c (d + 1) (r - q - 1)) by lia. lia.
    + rewrite <- (Z.div_unique (n + 1 + c - 1 - q) c d (c + r - q)) by lia.
      rewrite <- (Z.div_unique (n + c - 1 - q) c d (c + r - q - 1)) by lia. lia.
Qed.

Lemma dispatched_count (queues q : Z) (n : nat) :
  0 < queues -> Z.of_nat n <= U64_MOD -> 0 <= q < queues ->
  count (Z.eqb q) (dispatched n queues) = (Z.of_nat n + queues - 1 - q) / queues.
Proof.
  intros Hc Hn Hq. induction n as [|n IH].
  - unfold dispatched, count. simpl.
    symmetry. apply Z.div_small. lia.
  - rewrite dispatched_S, count_app, IH by lia.
    rewrite wrap64_small by (unfold is_u64; lia).
    replace (Z.of_nat (S n) + queues - 1 - q) with (Z.of_nat n + 1 + queues - 1 - q) by lia.
    rewrite (round_robin_step (Z.of_nat n) queues q) by lia.
    unfold count, pick_queue. cbn [filter].
    destruct (q =? Z.of_nat n mod queues); reflexivity.
Qed.

(** X13: the round-robin dispatch spreads the blocks evenly.  Of the
    first [n] blocks ([n <= 2^64], so that the counter [rr] has not
    wrapped) the queue [q] of [c] queues gets [(n + c - 1 - q) / c], so
    that every queue gets [n / c] blocks or one more, and two queues
    never differ by more than one block. *)
Theorem round_robin_balanced :
  forall (n : nat) (c q q' : Z),
    0 < c -> Z.of_nat n <= U64_MOD -> 0 <= q < c -> 0 <= q' < c ->
    count (Z.eqb q) (dispatched n c) = (Z.of_nat n + c - 1 - q) / c /\
    Z.of_nat n / c <= count (Z.eqb q) (dispatched n c) <= Z.of_nat n / c + 1 /\
    Z.abs (count (Z.eqb q) (dispatched n c) - count (Z.eqb q') (dispatched n c)) <= 1.
Proof.
  intros n c q q' Hc Hn Hq Hq'.
  rewrite !dispatched_count by assumption.
  assert (Hb : forall p, 0 <= p < c ->
             Z.of_nat n / c <= (Z.of_nat n + c - 1 - p) / c <= Z.of_nat n / c + 1).
  { intros p Hp. split.
    - apply Z.div_le_mono; lia.
    - replace (Z.of_nat n / c + 1) with ((Z.of_nat n + 1 * c) / c)
        by (rewrite Z.div_add by lia; reflexivity).
      apply Z.div_le_mono; lia. }
  pose proof (Hb q Hq). pose proof (Hb q' Hq').
  split; [reflexivity|]. split; lia.
Qed.

Lemma round_robin_balanced_witness :
  count (Z.eqb 0) (dispatched 7 3) = 3 /\ count (Z.eqb 2) (dispatched 7 3) = 2 /\
  Z.abs (count (Z.eqb 0) (dispatched 7 3) - count (Z.eqb 2) (dispatched 7 3)) <= 1.
Proof.
  destruct (round_robin_balanced 7 3 0 2 ltac:(lia) ltac:(unfold U64_MOD; simpl; lia)
              ltac:(lia) ltac:(lia)) as (_ & _ & H).
  split; [reflexivity|]. split; [reflexivity | exact H].
Defined.

(** ** The semaphore of [gcd_benchmark.cpp] *)

Lemma gcd_step_invariant (s s' : GcdState) (e : GcdStep) :
  gcd_step s e = Some s' ->
  0 <= sem_value s -> 0 <= acquired s -> 0 <= in_flight s ->
  sem_value s' + acquired s' + in_flight s' = sem_value s + acquired s + in_flight s /\
  0 <= sem_value s' /\ 0 <= acquired s' /\ 0 <= in_flight s' /\
  in_flight s' = in_flight s + (if is_dispatch e then 1 else 0)
                 - (if is_complete e then 1 else 0).
Proof.
  destruct e; unfold gcd_step;
    match goal with
    | |- context [0 <? ?x] => destruct (Z.ltb_spec 0 x)
    end; intros E; try discriminate; injection E as <-;
    cbn [sem_value acquired in_flight is_dispatch is_complete]; lia.
Qed.

Lemma gcd_run_invariant (steps : list GcdStep) :
  forall s s',
    gcd_run s steps = Some s' ->
    0 <= sem_value s -> 0 <= acquired s -> 0 <= in_flight s ->
    sem_value s' + acquired s' + in_flight s' = sem_value s + acquired s + in_flight s /\
    0 <= sem_value s' /\ 0 <= acquired s' /\ 0 <= in_flight s' /\
    in_flight s' = in_flight s + count is_dispatch steps - count is_complete steps.
Proof.
  induction steps as [|e rest IH]; intros s s' Hrun H1 H2 H3.
  - injection Hrun as <-. unfold count. simpl. lia.
  - cbn [gcd_run] in Hrun.
    destruct (gcd_step s e) as [s1|] eqn:E; [|discriminate].
    destruct (gcd_step_invariant s s1 e E H1 H2 H3) as (Ha & Hb & Hc & Hd & He).
    destruct (IH s1 s' Hrun Hb Hc Hd) as (Ia & Ib & Ic & Id & Ie).
    split; [lia|]. split; [exact Ib|]. split; [exact Ic|]. split; [exact Id|].
    rewrite Ie, He. unfold count. cbn [filter].
    destruct e; cbn [is_dispatch is_complete length]; lia.
Qed.

(** X14: the semaphore bounds the blocks in flight.  While the
    producers run (before the signals that [main] adds after joining
    them), after any steps of producers and blocks that a counting
    semaphore allows, from the start of a run with [maxInFlight >= 0],
    the blocks submitted and not yet finished are the submitted ones less
    the finished ones, and together with the value of the semaphore and
    the producers that have passed the wait they are [maxInFlight]: never
    more than [maxInFlight] blocks are in flight. *)
Theorem in_flight_bounded :
  forall (cfg : Config) (steps : list GcdStep) (s : GcdState),
    0 <= maxMessages cfg ->
    gcd_run (gcd_start cfg) steps = Some s ->
    sem_value s + acquired s + in_flight s = maxMessages cfg /\
    in_flight s = count is_dispatch steps - count is_complete steps /\
    0 <= in_flight s <= maxMessages cfg.
Proof.
  intros cfg steps s Hm Hrun.
  destruct (gcd_run_invariant steps _ _ Hrun) as (Ha & Hb & Hc & Hd & He);
    cbn [gcd_start sem_value acquired in_flight] in *; try lia.
Qed.

Lemma in_flight_bounded_witness :
  gcd_run (gcd_start (with_maxMessages default_config_gcd 2))
    [Acquire; Dispatch; Acquire; Complete; Dispatch]
  = Some (mkGcdState 1 0 1) /\
  gcd_run (gcd_start (with_maxMessages default_config_gcd 2))
    [Acquire; Acquire; Acquire] = None /\
  0 <= in_flight (mkGcdState 1 0 1) <= 2.
Proof.
  assert (Hrun : gcd_run (gcd_start (with_maxMessages default_config_gcd 2))
                   [Acquire; Dispatch; Acquire; Complete; Dispatch]
                 = Some (mkGcdState 1 0 1)) by reflexivity.
  split; [exact Hrun|]. split; [reflexivity|].
  assert (Hm : 0 <= maxMessages (with_maxMessages default_config_gcd 2)) by (simpl; lia).
  exact (proj2 (proj2 (in_flight_bounded _ _ _ Hm Hrun))).
Defined.

(** ** [producerThread] over a whole run *)

(** X15: the counters of a producer, run alone from counters that are
    64-bit values.  After any number of iterations [sentMessages] has
    grown by the number of sends that succeeded and [sentBytes] by
    [messageSize] for each of them, [sendEagain] by the sends that failed
    with [EAGAIN] or [ETIMEDOUT], [sendErrors] by the other failures, all
    modulo [2^64]; every iteration is counted in exactly one of the
    three; the counters of the consumers are not touched. *)
Theorem producer_counters :
  forall (cfg : Config) (rng : nat -> Z) (stats : Stats) (steps : list (Z * SendResult)),
    is_u64 (sentMessages stats) -> is_u64 (sentBytes stats) ->
    is_u64 (sendErrors stats) -> is_u64 (sendEagain stats) ->
    p_stats (producerEnd cfg rng (mkProducer (initial_buffer cfg) 0 0 stats) steps)
    = mkStats
        (wrap64 (sentMessages stats + count send_ok steps))
        (wrap64 (sentBytes stats + messageSize cfg * count send_ok steps))
        (recvMessages stats) (recvBytes stats)
        (wrap64 (sendErrors stats + count send_failed steps))
        (recvErrors stats)
        (wrap64 (sendEagain stats + count send_blocked steps))
        (recvEagain stats)
    /\ count send_ok steps + count send_blocked steps + count send_failed steps
       = Z.of_nat (length steps).
Proof.
  intros cfg rng stats steps H1 H2 H3 H4. split.
  - apply (producer_stats_run cfg rng steps (mkProducer (initial_buffer cfg) 0 0 stats));
      assumption.
  - apply count_partition. intros [now [|errno]]; unfold send_ok, send_blocked, send_failed;
      cbn [snd]; [reflexivity|]. destruct (would_block errno); reflexivity.
Qed.

Lemma producer_counters_witness :
  p_stats (producerEnd cfg16 (fun _ => 0) (mkProducer (initial_buffer cfg16) 0 0 stats0)
             [(100, SendOk); (200, SendFailed ETIMEDOUT); (300, SendFailed 90); (400, SendOk)])
  = mkStats 2 32 0 0 1 0 1 0.
Proof.
  assert (H0 : is_u64 0) by (unfold is_u64, U64_MOD; lia).
  rewrite (proj1 (producer_counters cfg16 (fun _ => 0) stats0
                    [(100, SendOk); (200, SendFailed ETIMEDOUT); (300, SendFailed 90);
                     (400, SendOk)] H0 H0 H0 H0)).
  reflexivity.
Defined.

(** X16: the header of every message.  In a run of the producer the
    buffer of iteration [k] (from 0) carries the sequence number
    [k mod 2^64] and the clock value read in that iteration when
    [messageSize >= 16], and no header otherwise: the sequence numbers
    count the iterations, whether their sends succeed or fail.
    [mq_timedsend] is given the first [messageSize mod 2^32] bytes of the
    buffer; when these are 16 or more, the first 16 of them are the
    sequence number and the clock value, each in 8 bytes, least
    significant first. *)
Theorem producer_sequence_numbers :
  forall (cfg : Config) (rng : nat -> Z) (stats : Stats) (steps : list (Z * SendResult))
         (k : nat) (now : Z) (ret : SendResult),
    is_u64 (messageSize cfg) ->
    nth_error steps k = Some (now, ret) ->
    exists it,
      nth_error (producerThread cfg rng stats steps) k = Some it /\
      header (it_message it)
      = (if sizeof_MsgHeader <=? messageSize cfg
         then Some (mkHeader (wrap64 (Z.of_nat k)) now) else None) /\
      it_length it = messageSize cfg mod 2 ^ 32 /\
      (sizeof_MsgHeader <= messageSize cfg mod 2 ^ 32 ->
       firstn 16 (mq_timedsend_bytes it)
       = le_bytes 8 (wrap64 (Z.of_nat k)) ++ le_bytes 8 now).
Proof.
  intros cfg rng stats steps k now ret (Hs & Hlt) Hk.
  set (st0 := mkProducer (initial_buffer cfg) 0 0 stats).
  exists (producerIter cfg rng (producerEnd cfg rng st0 (firstn k steps)) now ret).
  split; [unfold producerThread; apply producerLoop_nth; exact Hk|].
  pose proof (producer_inv_before cfg rng stats steps k _ Hs Hk) as Hinv. fold st0 in Hinv.
  pose proof (producerIter_message cfg rng k _ now ret Hs Hinv) as Hm.
  split; [rewrite Hm; reflexivity|].
  split; [apply producerIter_length|].
  intros H16. unfold mq_timedsend_bytes. rewrite producerIter_length, Hm.
  unfold send_length.
  assert (Hge : sizeof_MsgHeader <= messageSize cfg).
  { pose proof (Z.mod_le (messageSize cfg) (2 ^ 32) Hs ltac:(lia)). lia. }
  apply Z.leb_le in Hge. rewrite Hge.
  unfold buffer_bytes. cbn [header payload sequence sendTimeNs].
  rewrite firstn_firstn.
  replace (Init.Nat.min 16 (Z.to_nat (messageSize cfg mod 2 ^ 32))) with 16%nat
    by (unfold sizeof_MsgHeader in H16; lia).
  set (hd := le_bytes 8 (wrap64 (Z.of_nat k)) ++ le_bytes 8 now).
  replace 16%nat with (length hd + 0)%nat
    by (unfold hd; rewrite length_app, !length_le_bytes; reflexivity).
  rewrite firstn_app_2. cbn [firstn]. apply app_nil_r.
Qed.

Lemma producer_sequence_numbers_witness :
  exists it,
    nth_error (producerThread cfg16 (fun _ => 0) stats0
                 [(100, SendFailed EAGAIN); (200, SendFailed 90); (300, SendOk)]) 2
    = Some it /\
    header (it_message it) = Some (mkHeader 2 300) /\
    mq_timedsend_bytes it = [2; 0; 0; 0; 0; 0; 0; 0; 44; 1; 0; 0; 0; 0; 0; 0].
Proof.
  assert (H16 : is_u64 (messageSize cfg16)) by (unfold is_u64, U64_MOD; simpl; lia).
  destruct (producer_sequence_numbers cfg16 (fun _ => 0) stats0
              [(100, SendFailed EAGAIN); (200, SendFailed 90); (300, SendOk)] 2 300 SendOk
              H16 eq_refl) as (it & Hit & Hh & _ & _).
  exists it. split; [exact Hit|]. split; [exact Hh|].
  injection Hit as <-. reflexivity.
Defined.

(** X17: the bytes of every message.  The buffer of iteration [k] has
    [messageSize] bytes, header included.  With [randomPayload] the
    [w = (messageSize - start) / 4] words behind the header are the values
    number [k w], ..., [k w + w - 1] of the generator, each least
    significant byte first, and the [(messageSize - start) mod 4] bytes
    behind them are 0 as in the new buffer; without it all bytes behind
    the header are 0.  [mq_timedsend] is given the first
    [messageSize mod 2^32] bytes of the buffer: all of it when
    [messageSize < 2^32], and less than all of it otherwise. *)
Theorem producer_message_bytes :
  forall (cfg : Config) (rng : nat -> Z) (stats : Stats) (steps : list (Z * SendResult))
         (k : nat) (now : Z) (ret : SendResult),
    is_u64 (messageSize cfg) ->
    nth_error steps k = Some (now, ret) ->
    exists it,
      nth_error (producerThread cfg rng stats steps) k = Some it /\
      message_size (it_message it) = messageSize cfg /\
      length (buffer_bytes (it_message it)) = Z.to_nat (messageSize cfg) /\
      payload (it_message it)
      = (if randomPayload cfg
         then random_words rng (k * payload_words cfg) (payload_words cfg)
         else repeat 0 (4 * payload_words cfg))
        ++ repeat 0 (payload_rest cfg) /\
      length (mq_timedsend_bytes it) = Z.to_nat (messageSize cfg mod 2 ^ 32) /\
      (messageSize cfg < 2 ^ 32 ->
       mq_timedsend_bytes it = buffer_bytes (it_message it)) /\
      (2 ^ 32 <= messageSize cfg ->
       (length (mq_timedsend_bytes it) < length (buffer_bytes (it_message it)))%nat).
Proof.
  intros cfg rng stats steps k now ret (Hs & _) Hk.
  destruct (producer_message cfg rng stats steps k now ret Hs Hk) as (it0 & Hit & Hh & Hp).
  assert (Hex : exists st, it0 = producerIter cfg rng st now ret).
  { unfold producerThread in Hit.
    rewrite (producerLoop_nth cfg rng steps _ k now ret Hk) in Hit.
    injection Hit as <-. eexists. reflexivity. }
  destruct Hex as (st & Hst).
  exists it0. split; [exact Hit|].
  assert (Hsize : message_size (it_message it0) = messageSize cfg).
  { unfold message_size. rewrite Hh, Hp, payload_after_length, <- payload_split by exact Hs.
    pose proof (header_size_bounds cfg Hs) as Hb. unfold header_size in *.
    destruct (sizeof_MsgHeader <=? messageSize cfg); unfold sizeof_MsgHeader in *;
      cbv iota; lia. }
  assert (Hlen : length (buffer_bytes (it_message it0)) = Z.to_nat (messageSize cfg))
    by (rewrite buffer_bytes_length, Hsize; reflexivity).
  assert (Hl : it_length it0 = messageSize cfg mod 2 ^ 32)
    by (rewrite Hst; apply producerIter_length).
  pose proof (Z.mod_pos_bound (messageSize cfg) (2 ^ 32) ltac:(lia)) as Hmod.
  pose proof (Z.mod_le (messageSize cfg) (2 ^ 32) Hs ltac:(lia)) as Hle.
  split; [exact Hsize|]. split; [exact Hlen|]. split; [exact Hp|].
  unfold mq_timedsend_bytes. rewrite Hl.
  split; [rewrite length_firstn, Hlen; lia|].
  split.
  - intros H32. rewrite Z.mod_small by lia. rewrite <- Hlen. apply firstn_all.
  - intros H32. rewrite length_firstn, Hlen. lia.
Qed.

Lemma producer_message_bytes_witness :
  exists it,
    nth_error
      (producerThread (with_randomPayload (with_messageSize cfg16 22) true)
         (fun k => 16909060 + Z.of_nat k) stats0 [(100, SendOk); (200, SendFailed 90)]) 1
    = Some it /\
    message_size (it_message it) = 22 /\
    payload (it_message it) = [5; 3; 2; 1; 0; 0] /\
    mq_timedsend_bytes it = buffer_bytes (it_message it).
Proof.
  assert (H22 : is_u64 (messageSize (with_randomPayload (with_messageSize cfg16 22) true)))
    by (unfold is_u64, U64_MOD; simpl; lia).
  destruct (producer_message_bytes (with_randomPayload (with_messageSize cfg16 22) true)
              (fun k => 16909060 + Z.of_nat k) stats0 [(100, SendOk); (200, SendFailed 90)]
              1 200 (SendFailed 90) H22 eq_refl) as (it & Hit & Hsz & _ & Hp & _ & Hall & _).
  exists it. split; [exact Hit|]. split; [exact Hsz|]. split; [exact Hp|].
  apply Hall. simpl. lia.
Defined.

(** ** [consumerThread] over a whole run *)

Lemma consumerLoop_run (cfg : Config) (steps : list (RecvResult * Z)) :
  forall (st : ConsumerState) (draws : list Z),
    run (consumerLoop cfg st steps) draws
    = match run (record_all record_mq (c_recorder st) (latencies cfg steps)) draws with
      | Some (r, rest) => Some (mkConsumer (consumer_stats (c_stats st) steps) r, rest)
      | None => None
      end.
Proof.
  induction steps as [|[res now] steps IH]; intros st draws.
  - destruct st; reflexivity.
  - cbn [consumerLoop latencies consumer_stats]. rewrite run_bind.
    destruct res as [n sendNs | errno]; cbn [consumerIter].
    + destruct (latency_sample (sizeof_MsgHeader <=? messageSize cfg) n now sendNs)
        as [v|].
      * cbn [record_all]. rewrite !run_bind.
        destruct (run (record_mq (c_recorder st) v) draws) as [[r1 d1]|]; [|reflexivity].
        cbn [run fst]. rewrite IH. reflexivity.
      * cbn [run fst]. rewrite IH. reflexivity.
    + destruct (would_block errno); cbn [run fst]; rewrite IH; reflexivity.
Qed.

(** X18: a run of the consumer is a run of the recorder.  With the same
    draws, the loop of [consumerThread] ends exactly when recording the
    latencies of its messages, in the order of arrival, ends; the
    recorder and the draws left are the same, and the counters are those
    that the outcomes of the receives determine. *)
Theorem consumer_run_is_recorder_run :
  forall (cfg : Config) (steps : list (RecvResult * Z)) (st : ConsumerState)
         (draws : list Z),
    run (consumerLoop cfg st steps) draws
    = match run (record_all record_mq (c_recorder st) (latencies cfg steps)) draws with
      | Some (r, rest) => Some (mkConsumer (consumer_stats (c_stats st) steps) r, rest)
      | None => None
      end.
Proof. intros cfg steps st draws. apply consumerLoop_run. Qed.

Lemma consumer_stats_closed (steps : list (RecvResult * Z)) :
  forall stats,
    is_u64 (recvMessages stats) -> is_u64 (recvBytes stats) ->
    is_u64 (recvErrors stats) -> is_u64 (recvEagain stats) ->
    consumer_stats stats steps
    = mkStats (sentMessages stats) (sentBytes stats)
        (wrap64 (recvMessages stats + count recv_ok steps))
        (wrap64 (recvBytes stats + received_bytes steps))
        (sendErrors stats)
        (wrap64 (recvErrors stats + count recv_failed steps))
        (sendEagain stats)
        (wrap64 (recvEagain stats + count recv_blocked steps)).
Proof.
  induction steps as [|[res now] rest IH]; intros stats H1 H2 H3 H4.
  - unfold count. cbn [consumer_stats received_bytes filter length Z.of_nat].
    rewrite !Z.add_0_r, !wrap64_small by assumption. destruct stats; reflexivity.
  - rewrite !count_cons.
    change (recv_ok (res, now))
      with (match res with RecvOk _ _ => true | RecvFailed _ => false end).
    change (recv_failed (res, now))
      with (match res with RecvOk _ _ => false | RecvFailed e => negb (would_block e) end).
    change (recv_blocked (res, now))
      with (match res with RecvOk _ _ => false | RecvFailed e => would_block e end).
    destruct res as [n sendNs | errno]; cbn [consumer_stats received_bytes].
    + rewrite IH;
        cbn [add_recv sentMessages sentBytes recvMessages recvBytes sendErrors
             recvErrors sendEagain recvEagain]; try apply wrap64_is_u64; try assumption.
      rewrite !wrap64_add_l. f_equal; f_equal; lia.
    + destruct (would_block errno); rewrite IH;
        cbn [add_recvEagain add_recvErrors sentMessages sentBytes recvMessages recvBytes
             sendErrors recvErrors sendEagain recvEagain negb];
        try apply wrap64_is_u64; try assumption;
        rewrite ?wrap64_add_l; f_equal; f_equal; lia.
Qed.

(** X19: the counters of a consumer, run alone from counters that are
    64-bit values.  After a run that returns, [recvMessages] has grown by
    the number of receives that gave a message and [recvBytes] by the
    sizes of these messages, [recvEagain] by the receives that failed with
    [EAGAIN] or [ETIMEDOUT], [recvErrors] by the other failures, all
    modulo [2^64]; every iteration is counted in exactly one of the three;
    the counters of the producers are not touched. *)
Theorem consumer_counters :
  forall (cfg : Config) (steps : list (RecvResult * Z)) (st st' : ConsumerState)
         (draws rest : list Z),
    is_u64 (recvMessages (c_stats st)) -> is_u64 (recvBytes (c_stats st)) ->
    is_u64 (recvErrors (c_stats st)) -> is_u64 (recvEagain (c_stats st)) ->
    run (consumerLoop cfg st steps) draws = Some (st', rest) ->
    c_stats st'
    = mkStats (sentMessages (c_stats st)) (sentBytes (c_stats st))
        (wrap64 (recvMessages (c_stats st) + count recv_ok steps))
        (wrap64 (recvBytes (c_stats st) + received_bytes steps))
        (sendErrors (c_stats st))
        (wrap64 (recvErrors (c_stats st) + count recv_failed steps))
        (sendEagain (c_stats st))
        (wrap64 (recvEagain (c_stats st) + count recv_blocked steps))
    /\ count recv_ok steps + count recv_blocked steps + count recv_failed steps
       = Z.of_nat (length steps).
Proof.
  intros cfg steps st st' draws rest H1 H2 H3 H4 Hrun.
  rewrite consumerLoop_run in Hrun.
  destruct (run (record_all record_mq (c_recorder st) (latencies cfg steps)) draws)
    as [[r d]|]; [|discriminate].
  injection Hrun as <- _. cbn [c_stats]. split.
  - apply consumer_stats_closed; assumption.
  - apply count_partition. intros [[n sendNs | errno] now];
      unfold recv_ok, recv_blocked, recv_failed; cbn [fst]; [reflexivity|].
    destruct (would_block errno); reflexivity.
Qed.

Lemma consumer_counters_witness :
  run (consumerLoop cfg16 (mkConsumer stats0 (LatencyRecorder_new 2))
         [(RecvOk 16 100, 150); (RecvFailed EAGAIN, 160); (RecvOk 16 170, 200);
          (RecvFailed 9, 210)]) []
  = Some (mkConsumer (mkStats 0 0 2 32 0 1 0 1) (mkRecorder [50; 30] 2 2), []) /\
  c_stats (mkConsumer (mkStats 0 0 2 32 0 1 0 1) (mkRecorder [50; 30] 2 2))
  = mkStats 0 0 (wrap64 2) (wrap64 32) 0 (wrap64 1) 0 (wrap64 1).
Proof.
  assert (H0 : is_u64 0) by (unfold is_u64, U64_MOD; lia).
  assert (Hrun :
    run (consumerLoop cfg16 (mkConsumer stats0 (LatencyRecorder_new 2))
           [(RecvOk 16 100, 150); (RecvFailed EAGAIN, 160); (RecvOk 16 170, 200);
            (RecvFailed 9, 210)]) []
    = Some (mkConsumer (mkStats 0 0 2 32 0 1 0 1) (mkRecorder [50; 30] 2 2), []))
    by reflexivity.
  split; [exact Hrun|].
  exact (proj1 (consumer_counters cfg16 _ (mkConsumer stats0 (LatencyRecorder_new 2))
                  _ _ _ H0 H0 H0 H0 Hrun)).
Defined.

Lemma latencies_no_header (cfg : Config) (steps : list (RecvResult * Z)) :
  messageSize cfg < sizeof_MsgHeader -> latencies cfg steps = [].
Proof.
  intros Hs. apply Z.leb_gt in Hs.
  induction steps as [|[[n sendNs | errno] now] rest IH]; cbn [latencies];
    rewrite ?Hs; cbn [latency_sample andb]; assumption || reflexivity.
Qed.

Lemma latencies_length (cfg : Config) (steps : list (RecvResult * Z)) :
  Z.of_nat (length (latencies cfg steps)) <= count recv_ok steps.
Proof.
  induction steps as [|[[n sendNs | errno] now] rest IH].
  - unfold count. cbn [latencies filter length]. lia.
  - rewrite count_cons. cbn [latencies]. unfold recv_ok at 1. cbn [fst].
    destruct (latency_sample _ n now sendNs); cbn [length]; lia.
  - rewrite count_cons. cbn [latencies]. unfold recv_ok at 1. cbn [fst]. lia.
Qed.

(** X20: when nothing can be sampled.  With [messageSize] below the 16
    bytes of the header, or with [latencySample = 0], every run of a
    consumer from the new recorder returns, uses no draw and leaves the
    buffer empty; the summary then prints "not available" and the five
    latency fields of the CSV line are NaN, in either arithmetic. *)
Theorem no_latency_without_header_or_capacity :
  forall (cfg : Config) (stats : Stats) (steps : list (RecvResult * Z)) (draws : list Z),
    messageSize cfg < sizeof_MsgHeader \/ latencySample cfg = 0 ->
    exists r,
      run (consumerLoop cfg (mkConsumer stats (LatencyRecorder_new (latencySample cfg)))
             steps) draws
      = Some (mkConsumer (consumer_stats stats steps) r, draws) /\
      samplesNs r = [] /\
      (forall A : Arith,
         summary_latency A (final_percentiles A r) = LatencyNotAvailable /\
         csv_latency A (final_percentiles A r) = [None; None; None; None; None]).
Proof.
  intros cfg stats steps draws Hcase.
  assert (Hrun : exists r,
            run (record_all record_mq (LatencyRecorder_new (latencySample cfg))
                   (latencies cfg steps)) draws = Some (r, draws) /\ samplesNs r = []).
  { destruct Hcase as [Hs | Hc].
    - rewrite (latencies_no_header cfg steps Hs). eexists. split; reflexivity.
    - destruct (record_all_capacity_zero record_mq (latencies cfg steps) is_record_mq
                  (LatencyRecorder_new (latencySample cfg)) draws Hc) as (n & Hn).
      eexists. split; [exact Hn | reflexivity]. }
  destruct Hrun as (r & Hr & Hempty).
  exists r. rewrite consumerLoop_run. cbn [c_recorder c_stats]. rewrite Hr.
  split; [reflexivity|]. split; [exact Hempty|].
  intros A. unfold final_percentiles, computePercentiles. rewrite Hempty.
  split; reflexivity.
Qed.

Lemma no_latency_without_header_or_capacity_witness :
  exists r,
    run (consumerLoop (with_messageSize cfg16 8)
           (mkConsumer stats0 (LatencyRecorder_new (latencySample (with_messageSize cfg16 8))))
           [(RecvOk 8 0, 150); (RecvFailed EAGAIN, 160)]) [7]
    = Some (mkConsumer (consumer_stats stats0 [(RecvOk 8 0, 150); (RecvFailed EAGAIN, 160)]) r,
            [7]) /\
    samplesNs r = [].
Proof.
  assert (Hs : messageSize (with_messageSize cfg16 8) < sizeof_MsgHeader)
    by (unfold sizeof_MsgHeader; simpl; lia).
  destruct (no_latency_without_header_or_capacity (with_messageSize cfg16 8) stats0
              [(RecvOk 8 0, 150); (RecvFailed EAGAIN, 160)] [7] (or_introl Hs))
    as (r & Hr & He & _).
  exists r. split; [exact Hr | exact He].
Defined.

(** X21: the recorder against the counters.  After a run of a consumer
    from the new recorder that returns, with fewer than [2^64] samples,
    [seen] is the number of messages that gave a sample, which is at most
    the number of messages received, and the buffer holds
    [min(seen, latencySample)] values. *)
Theorem consumer_samples_counted :
  forall (cfg : Config) (stats : Stats) (steps : list (RecvResult * Z))
         (st' : ConsumerState) (draws rest : list Z),
    is_u64 (latencySample cfg) ->
    Z.of_nat (length steps) < U64_MOD ->
    run (consumerLoop cfg (mkConsumer stats (LatencyRecorder_new (latencySample cfg)))
           steps) draws = Some (st', rest) ->
    seen (c_recorder st') = Z.of_nat (length (latencies cfg steps)) /\
    seen (c_recorder st') <= count recv_ok steps <= Z.of_nat (length steps) /\
    size (c_recorder st') = Z.min (seen (c_recorder st')) (latencySample cfg).
Proof.
  intros cfg stats steps st' draws rest Hcap Hlen Hrun.
  rewrite consumerLoop_run in Hrun. cbn [c_recorder c_stats] in Hrun.
  destruct (run (record_all record_mq (LatencyRecorder_new (latencySample cfg))
                   (latencies cfg steps)) draws) as [[r d]|] eqn:Er; [|discriminate].
  injection Hrun as <- _. cbn [c_recorder].
  pose proof (latencies_length cfg steps) as Hl.
  assert (Hc : count recv_ok steps <= Z.of_nat (length steps)).
  { unfold count. pose proof (filter_length_le recv_ok steps). lia. }
  assert (Hn : Z.of_nat (length (latencies cfg steps)) < U64_MOD) by lia.
  destruct (record_all_new_counts record_mq _ _ _ _ _ is_record_mq Hcap Hn Er)
    as (Hs & Hsz & _).
  rewrite Hs, Hsz. split; [reflexivity|]. split; [lia | reflexivity].
Qed.

Lemma consumer_samples_counted_witness :
  seen (mkRecorder [50; 30] 2 3) = 3 /\
  size (mkRecorder [50; 30] 2 3) = Z.min (seen (mkRecorder [50; 30] 2 3)) 2.
Proof.
  assert (Hcap : is_u64 (latencySample (with_latencySample cfg16 2)))
    by (unfold is_u64, U64_MOD; simpl; lia).
  assert (Hlen : Z.of_nat (length [(RecvOk 16 100, 150); (RecvOk 16 170, 200);
                                   (RecvOk 8 0, 205); (RecvOk 16 200, 210)]) < U64_MOD)
    by (unfold U64_MOD; simpl; lia).
  assert (Hrun :
    run (consumerLoop (with_latencySample cfg16 2)
           (mkConsumer stats0 (LatencyRecorder_new (latencySample (with_latencySample cfg16 2))))
           [(RecvOk 16 100, 150); (RecvOk 16 170, 200); (RecvOk 8 0, 205);
            (RecvOk 16 200, 210)]) [2]
    = Some (mkConsumer (mkStats 0 0 4 56 0 0 0 0) (mkRecorder [50; 30] 2 3), []))
    by reflexivity.
  destruct (consumer_samples_counted _ _ _ _ _ _ Hcap Hlen Hrun) as (Hs & _ & Hsz).
  split; [exact Hs | exact Hsz].
Defined.

(** X22: the completion block of [gcd_benchmark.cpp] and an iteration
    of [consumerThread] that receives a whole message do the same.  For
    a message of [messageSize] bytes, from a state whose recorder has not
    wrapped its counter, the block leaves the counters and the recorder
    that the iteration leaves, with the same draws. *)
Theorem gcd_completion_as_consumer_iteration :
  forall (cfg : Config) (st : ConsumerState) (sendNs now : Z) (draws : list Z),
    in_step (c_recorder st) ->
    run (gcd_completion st (messageSize cfg) sendNs now) draws
    = match run (consumerIter cfg st (RecvOk (messageSize cfg) sendNs) now) draws with
      | Some (out, rest) => Some (fst out, rest)
      | None => None
      end.
Proof.
  intros cfg st sendNs now draws Hin.
  unfold gcd_completion, consumerIter, latency_sample.
  cbn [andb]. rewrite andb_diag.
  destruct (sizeof_MsgHeader <=? messageSize cfg); [|reflexivity].
  destruct (sendNs <=? now); [|reflexivity].
  rewrite <- (record_mq_gcd_same _ _ Hin).
  rewrite !run_bind.
  destruct (run (record_mq (c_recorder st) (wrap64 (now - sendNs))) draws) as [[r d]|];
    reflexivity.
Qed.

Lemma gcd_completion_as_consumer_iteration_witness :
  run (gcd_completion (mkConsumer stats0 (mkRecorder [50; 30] 2 2)) (messageSize cfg16)
         100 140) [1]
  = Some (mkConsumer (mkStats 0 0 1 16 0 0 0 0) (mkRecorder [50; 40] 2 3), []).
Proof.
  assert (Hin : in_step (c_recorder (mkConsumer stats0 (mkRecorder [50; 30] 2 2))))
    by (unfold in_step, size; simpl; lia).
  rewrite (gcd_completion_as_consumer_iteration cfg16 _ 100 140 [1] Hin).
  reflexivity.
Defined.

(** ** [produceFunc] of [gcd_benchmark.cpp] *)

Lemma count_all_sent (nows : list Z) :
  count send_ok (map (fun now => (now, SendOk)) nows) = Z.of_nat (length nows).
Proof.
  induction nows as [|now l IH]; [reflexivity|].
  cbn [map]. rewrite count_cons, IH. unfold send_ok. cbn [snd length]. lia.
Qed.

(** X23: in [gcd_benchmark.cpp] the sequence numbers count the blocks
    submitted.  In a run of one producer from counters at 0, with
    [messageSize >= 16], the block of iteration [k] carries the sequence
    number [k mod 2^64] and the clock value of the iteration, and after
    the iteration [sentMessages] is the sequence number plus one and
    [sentBytes] is [messageSize] times as much, modulo [2^64]. *)
Theorem gcd_sequence_counts_submitted :
  forall (cfg : Config) (rng : nat -> Z) (nows : list Z) (k : nat) (now : Z),
    is_u64 (messageSize cfg) ->
    sizeof_MsgHeader <= messageSize cfg ->
    nth_error nows k = Some now ->
    exists it,
      nth_error (produceFunc cfg rng stats0 nows) k = Some it /\
      header (it_message it) = Some (mkHeader (wrap64 (Z.of_nat k)) now) /\
      sentMessages (p_stats (it_state it)) = wrap64 (Z.of_nat k + 1) /\
      sentBytes (p_stats (it_state it)) = wrap64 (messageSize cfg * (Z.of_nat k + 1)).
Proof.
  intros cfg rng nows k now (Hs & Hlt) H16 Hk.
  unfold produceFunc, producerThread.
  set (f := fun now0 : Z => (now0, SendOk)).
  set (st0 := mkProducer (initial_buffer cfg) 0 0 stats0).
  assert (Hstep : nth_error (map f nows) k = Some (now, SendOk))
    by (rewrite nth_error_map, Hk; reflexivity).
  assert (Hlen : length (firstn k nows) = k).
  { apply firstn_length_le. apply Nat.lt_le_incl. apply nth_error_Some. congruence. }
  exists (producerIter cfg rng (producerEnd cfg rng st0 (firstn k (map f nows))) now SendOk).
  split; [apply producerLoop_nth; exact Hstep|].
  rewrite firstn_map.
  pose proof (producer_inv_run cfg rng (map f (firstn k nows)) Hs 0 st0
                (producer_inv_initial cfg rng stats0 Hs)) as (Hh & Hq & _).
  rewrite length_map, Hlen in Hq. cbn [Nat.add] in Hq.
  assert (H0 : is_u64 0) by (unfold is_u64, U64_MOD; lia).
  pose proof (producer_stats_run cfg rng (map f (firstn k nows)) st0 H0 H0 H0 H0) as Hst.
  rewrite count_all_sent, Hlen in Hst. cbn [p_stats st0 stats0 sentMessages sentBytes] in Hst.
  apply Z.leb_le in H16. rewrite H16 in Hh, Hq.
  split; [| split].
  - rewrite producerIter_header, Hq. unfold has_header in Hh.
    destruct (header (p_buffer (producerEnd cfg rng st0 (map f (firstn k nows)))));
      [reflexivity | discriminate].
  - rewrite producerIter_stats_ok, Hst. cbn [add_sent sentMessages].
    rewrite wrap64_add_l. reflexivity.
  - rewrite producerIter_stats_ok, Hst. cbn [add_sent sentBytes].
    rewrite wrap64_add_l. f_equal. lia.
Qed.

Lemma gcd_sequence_counts_submitted_witness :
  exists it,
    nth_error (produceFunc cfg16 (fun _ => 0) stats0 [100; 200; 300]) 2 = Some it /\
    header (it_message it) = Some (mkHeader (wrap64 2) 300) /\
    sentMessages (p_stats (it_state it)) = wrap64 3.
Proof.
  assert (H1 : is_u64 (messageSize cfg16)) by (unfold is_u64, U64_MOD; simpl; lia).
  assert (H2 : sizeof_MsgHeader <= messageSize cfg16) by (unfold sizeof_MsgHeader; simpl; lia).
  destruct (gcd_sequence_counts_submitted cfg16 (fun _ => 0) [100; 200; 300] 2 300 H1 H2
              eq_refl) as (it & Hit & Hh & Hm & _).
  exists it. split; [exact Hit|]. split; [exact Hh | exact Hm].
Defined.

(** ** The median *)

(** X24: in exact arithmetic the first percentile written for an odd
    number [2 m + 1] of samples is the 50th and its value is the middle
    one of the sorted samples, in microseconds, without interpolation. *)
Theorem p50_of_odd_sample_count :
  forall (data : list Z) (m : nat) (q v : Q),
    length data = (2 * m + 1)%nat ->
    nth_error (snd (computePercentiles exact data [])) 0 = Some (q, v) ->
    q = (5 # 10)%Q /\ (v == inject_Z (nth m (std_sort data) 0%Z) / 1000)%Q.
Proof.
  intros data m q v Hlen Hnth.
  destruct data as [|x t]; [cbn [length] in Hlen; lia|].
  unfold computePercentiles in Hnth. cbn [snd app pcts map nth_error] in Hnth.
  injection Hnth as <- <-. split; [reflexivity|].
  change (insert_sorted x (std_sort t)) with (std_sort (x :: t)).
  assert (Hne : std_sort (x :: t) <> []).
  { intros E. pose proof (std_sort_length (x :: t)) as Hl. rewrite E in Hl. discriminate. }
  rewrite (at_exact_position _ _ Hne) by discriminate.
  rewrite std_sort_length, Hlen.
  assert (Hp : (lit exact 5 10 * inject_Z (Z.of_nat (2 * m + 1) - 1) == inject_Z (Z.of_nat m))%Q).
  { cbn [lit exact]. unfold Qeq, Qmult, inject_Z. cbn [Qnum Qden]. 
    change (Z.to_pos 10) with 10%positive. lia. }
  rewrite (at_position_integer _ _ _ Hp), Nat2Z.id. reflexivity.
Qed.

Lemma p50_of_odd_sample_count_witness :
  (200000 # 100000 == inject_Z (nth 1 (std_sort [3000; 1000; 2000]%Z) 0%Z) / 1000)%Q.
Proof.
  exact (proj2 (p50_of_odd_sample_count [3000; 1000; 2000] 1 (5 # 10) (200000 # 100000)
                  eq_refl eq_refl)).
Defined.
